(** * ThreeNetwork: the RemoteSync entity registry and its wire protocol

    A shallow embedding of [js/networks/RemoteSync.js]: the registries of
    local, remote and shared objects, the float32 change detector, the
    connect / disconnect / receive handlers and the [NetworkClient]
    connection list, followed by the properties of the protocol.

    Modelling conventions.
    - A JS object used as a table is a [gmap] of its own properties.  A
      table keyed by peer id, shared id or remote object id -- ids that the
      application chooses or that come off the wire -- is read with
      [js_get], which finds an own property, else a property inherited
      from [Object.prototype] ('constructor', 'toString', ...), else
      [undefined].  The tables keyed by the uuid of a local or shared
      object are read directly: three.js generates the uuid, which never
      names an inherited property.
    - A [THREE.Object3D] is referred to by its uuid, which is unique per
      object; the live state of the objects (matrix elements and morph
      target influences) is kept in a store indexed by uuid, so that every
      registry holding the same object sees the same state.
    - A JS number is an IEEE 754 value ([spec_float]); [Float32Array]
      stores round it to binary32, to nearest even.
    - Calls that leave the engine (client.send, client.broadcast, console,
      application listeners) are recorded in a log, in call order.  A
      message is logged as it is when it is handed to the client: the
      buffer TRANSFER_COMPONENT it is built in is reused by the next call.
      Listeners do not call back into the engine.
    - A thrown JS exception ends the running handler and keeps the state
      reached so far.
    - The handlers of incoming requests are given [component.id] and
      [component.list] rather than the component.  [addEventListener] of
      [RemoteSync] and of [NetworkClient] and the forwarding of 'close',
      'error' and 'remote_stream' are left out; of [THREE.SignalingServer],
      an abstract class, the listener registry is modelled. *)

From Stdlib Require Import ZArith Lia Bool.
From Stdlib.Floats Require Import SpecFloat.
From stdpp Require Import base option list gmap strings functions pretty.

Local Open Scope Z_scope.

(** ** JS numbers and Float32Array rounding *)

Module Float32.

Definition number := spec_float.

Definition prec : Z := 24.
Definition emax : Z := 128.

Definition NaN : number := S754_nan.

(** [float32Value[ 0 ] = value; return float32Value[ 0 ];] *)
Definition ensureFloat32 (value : number) : number :=
  match value with
  | S754_finite s m e => binary_round prec emax s m e
  | _ => value
  end.

(** [a !== b] on numbers: never equal when either side is NaN, and the
    two zeros are equal. *)
Definition strict_neq (a b : number) : bool := negb (SFeqb a b).

Definition is_nan (a : number) : bool :=
  match a with S754_nan => true | _ => false end.

(** What [ensureFloat32] returns for a value that is not NaN: a zero,
    an infinity, or a finite value with a binary32 mantissa and
    exponent. *)
Definition rounded (x : number) : Prop :=
  match x with
  | S754_finite _ m e => bounded prec emax m e = true
  | S754_nan => False
  | _ => True
  end.

(** The binary64 value [m * 2^e], for writing constants. *)
Definition num (m e : Z) : number := binary_normalize 53 1024 m e false.

End Float32.

Import Float32.

(** ** JS arrays of numbers *)

(** [ensureFloat32( array[ i ] )]: reading past the end yields [undefined],
    which the Float32Array store turns into NaN. *)
Definition elem_f32 (array : list number) (i : nat) : number :=
  from_option ensureFloat32 NaN (array !! i).

(** [array[ i ] = value]: a store past the end extends the array.  A hole
    or an [undefined] entry is written NaN, which is what every read
    through [ensureFloat32] makes of it. *)
Definition array_set (array : list number) (i : nat) (value : number)
  : list number :=
  if decide (i < length array)%nat then <[i := value]> array
  else array ++ replicate (i - length array) NaN ++ [value].

(** [for ( i < array.length ) if ( ensureFloat32( array[ i ] ) !==
    ensureFloat32( array2[ i ] ) ) return true;] *)
Definition differs (array array2 : list number) : bool :=
  existsb (λ i, strict_neq (elem_f32 array i) (elem_f32 array2 i))
          (seq 0 (length array)).

(** [for ( i < array.length ) array[ i ] = ensureFloat32( array2[ i ] );] *)
Definition copy_float32 (array array2 : list number) : list number :=
  foldl (λ arr i, <[i := elem_f32 array2 i]> arr) array (seq 0 (length array)).

(** [for ( i < array.length ) array2[ i ] = array[ i ];] *)
Definition copy_into (array2 array : list number) : list number :=
  foldl (λ arr2 i, array_set arr2 i (default NaN (array !! i)))
        array2 (seq 0 (length array)).

(** [for ( i < source.length ) target[ i ] = ensureFloat32( source[ i ] );]
    starting from [target = []]. *)
Definition fill_float32 (source : list number) : list number :=
  foldl (λ target i, array_set target i (elem_f32 source i))
        [] (seq 0 (length source)).

(** [THREE.Matrix4.fromArray] (three.js): [elements[ i ] = array[ i ]] for
    the sixteen entries of the matrix. *)
Definition Matrix4_fromArray (array : list number) : list number :=
  map (λ i, default NaN (array !! i)) (seq 0 16).

(** ** Objects, transfer components and messages *)

(** The live state of a [THREE.Object3D] that the engine reads and writes:
    [object.matrix.elements] and [object.morphTargetInfluences]. *)
Record Object3D := {
  matrix_elements : list number;
  morphTargetInfluences : option (list number)
}.

(** User-specified info passed to the remote 'add' listener. *)
Inductive Info := InfoObject (props : list (string * string)).

Record TransferComponent := {
  tc_id : string;
  tc_sid : option string;
  tc_matrix : list number;
  tc_morphTargetInfluences : list number
}.

Record AddRecord := { add_id : string; add_info : option Info }.

Definition TRANSFER_TYPE_SYNC : Z := 0.
Definition TRANSFER_TYPE_ADD : Z := 1.
Definition TRANSFER_TYPE_REMOVE : Z := 2.
Definition TRANSFER_TYPE_USER_DATA : Z := 3.

(** [component.type] together with [component.list]. *)
Inductive TransferList :=
| SyncList (records : list TransferComponent)
| AddList (records : list AddRecord)
| RemoveList (records : list string)
| UserDataList (data : Info)
| UnknownList (type : Z).

Definition transfer_type (l : TransferList) : Z :=
  match l with
  | SyncList _ => TRANSFER_TYPE_SYNC
  | AddList _ => TRANSFER_TYPE_ADD
  | RemoveList _ => TRANSFER_TYPE_REMOVE
  | UserDataList _ => TRANSFER_TYPE_USER_DATA
  | UnknownList t => t
  end.

(** The envelope: source id, destination id ([None] for broadcast) and the
    typed list. *)
Record Message := {
  msg_id : string;
  msg_did : option string;
  msg_list : TransferList
}.

Definition Listener := nat.

(** What the engine does to the outside. *)
Inductive Event :=
| ClientSend (destId : string) (component : Message)
| ClientBroadcast (component : Message)
| ConsoleWarn (text : string)
| ConsoleLog (text : string)
| OnOpen (f : Listener) (id : string)
| OnConnect (f : Listener) (id : string)
| OnDisconnect (f : Listener) (id : string)
| OnReceive (f : Listener) (component : Message)
| OnAdd (f : Listener) (destId objectId : string) (info : option Info)
| OnRemove (f : Listener) (destId objectId : string) (object : string)
| OnReceiveUserData (f : Listener) (data : Info)
| OnRemoveInherited (f : Listener) (destId objectId : string) (name : string).
                     (* 'remove' called with the value that Object.prototype
                        has under [name] in place of the object *)

(** ** Plain objects used as tables *)

(** The properties that every object inherits from [Object.prototype]. *)
Definition Object_prototype : list string :=
  ["constructor"; "hasOwnProperty"; "isPrototypeOf"; "propertyIsEnumerable";
   "toLocaleString"; "toString"; "valueOf"; "__proto__";
   "__defineGetter__"; "__defineSetter__";
   "__lookupGetter__"; "__lookupSetter__"].

(** What [table[ key ]] yields on a plain object: the own property, or
    the value that [Object.prototype] has under [name], or [undefined]. *)
Inductive Property (A : Type) :=
| Own (a : A)
| Inherited (name : string)
| Undefined.
Arguments Own {A} a.
Arguments Inherited {A} name.
Arguments Undefined {A}.

Definition js_get {A} (table : gmap string A) (key : string) : Property A :=
  match table !! key with
  | Some a => Own a
  | None => if decide (key ∈ Object_prototype) then Inherited key else Undefined
  end.

(** [value !== undefined] *)
Definition defined {A} (value : Property A) : bool :=
  match value with Undefined => false | _ => true end.

(** [value[ key ]] where [value] is itself a value inherited from
    [Object.prototype] -- a built-in function, or [Object.prototype]: the
    properties that [Object.prototype] hands down are found there.  Which
    further properties a built-in has ('length', 'name', 'keys', ...)
    depends on the host and on what was stored on it before; they are
    taken to be absent, and the properties that read the table of a peer
    are stated for a peer that has a table of its own or whose id names no
    inherited property ([plain_peer]), where no built-in is read. *)
Definition builtin_get {A} (key : string) : Property A :=
  if decide (key ∈ Object_prototype) then Inherited key else Undefined.

(** [objects[ key ]], for [objects] read from a table of tables and not
    [undefined]. *)
Definition get_in {A} (objects : Property (gmap string A)) (key : string)
  : Property A :=
  match objects with
  | Own table => js_get table key
  | Inherited _ => builtin_get key
  | Undefined => Undefined
  end.

(** ** NetworkClient *)

Record Connection := { peer : string }.

Record NetworkClient := {
  client_id : string;
  connections : list Connection;
  connectionTable : gmap string Connection
}.

Definition hasConnection (c : NetworkClient) (id : string) : bool :=
  defined (js_get (connectionTable c) id).

Definition connectionNum (c : NetworkClient) : nat := length (connections c).

Definition addConnection (c : NetworkClient) (id : string)
    (connection : Connection) : bool * NetworkClient :=
  if decide (id = client_id c ∨ defined (js_get (connectionTable c) id) = true)
  then (false, c)
  else (true, {| client_id := client_id c;
                 connections := connections c ++ [connection];
                 connectionTable := <[id := connection]> (connectionTable c) |}).

(** One turn of the compaction loop of [removeConnection]. *)
Definition removeConnection_body (id : string)
    (s : list Connection * nat * nat) (i : nat) : list Connection * nat * nat :=
  let '(array, readIndex, writeIndex) := s in
  match array !! readIndex with
  | Some c =>
      if decide (peer c ≠ id)
      then (<[writeIndex := c]> array, S readIndex, S writeIndex)
      else (array, S readIndex, writeIndex)
  | None => (array, S readIndex, writeIndex)
  end.

Definition removeConnection (c : NetworkClient) (id : string)
  : bool * NetworkClient :=
  if decide (id = client_id c ∨ defined (js_get (connectionTable c) id) = false)
  then (false, c)
  else
    let '(array, _, writeIndex) :=
      foldl (removeConnection_body id) (connections c, 0%nat, 0%nat)
            (seq 0 (length (connections c))) in
    (true, {| client_id := client_id c;
              connections := take writeIndex array;
              connectionTable := delete id (connectionTable c) |}).

(** ** removeObjectFromArray *)

(** One turn of the loop: [if ( array[ i ] === object ) { array[
    writeIndex ] = array[ readIndex ]; writeIndex ++; } readIndex ++;] *)
Definition removeObjectFromArray_body (object : string)
    (s : list string * nat * nat) (i : nat) : list string * nat * nat :=
  let '(array, readIndex, writeIndex) := s in
  match array !! i, array !! readIndex with
  | Some x, Some y =>
      if decide (x = object)
      then (<[writeIndex := y]> array, S readIndex, S writeIndex)
      else (array, S readIndex, writeIndex)
  | _, _ => (array, S readIndex, writeIndex)
  end.

(** The loop, then [array.length = writeIndex]. *)
Definition removeObjectFromArray (array : list string) (object : string)
  : list string :=
  let '(array', _, writeIndex) :=
    foldl (removeObjectFromArray_body object) (array, 0%nat, 0%nat)
          (seq 0 (length array)) in
  take writeIndex array'.

(** [removeObjectFromArray( array, value )] for a value inherited from
    [Object.prototype], which no element of an array of objects is: the
    test [array[ i ] === object] fails at every turn. *)
Definition removeObjectFromArray_inherited (array : list string) : list string :=
  let '(array', _, writeIndex) :=
    foldl (λ (s : list string * nat * nat) (i : nat),
             let '(array, readIndex, writeIndex) := s in
             (array, S readIndex, writeIndex))
          (array, 0%nat, 0%nat) (seq 0 (length array)) in
  take writeIndex array'.

(** ** The RemoteSync instance *)

(** The fields set by the constructor; [rs_id] is [this.id].  The arrays
    of the 'close', 'error' and 'remote_stream' listeners, which only
    forward client events, are left out. *)
Record RemoteSync := {
  client : NetworkClient;
  rs_id : string;
  localObjects : list string;
  localObjectTable : gmap string string;             (* object.uuid -> object *)
  localObjectInfos : gmap string Info;               (* object.uuid -> info *)
  remoteObjectTable : gmap string (gmap string string);
                             (* remote peer id -> remote object.uuid -> object *)
  sharedObjects : list string;
  sharedObjectTable : gmap string string;            (* shared id -> object *)
  transferComponents : gmap string TransferComponent; (* object.uuid -> component *)
  onOpens : list Listener;
  onConnects : list Listener;
  onDisconnects : list Listener;
  onReceives : list Listener;
  onAdds : list Listener;
  onRemoves : list Listener;
  onReceiveUserDatas : list Listener
}.

(** [new THREE.RemoteSync( client )] *)
Definition RemoteSync_new (c : NetworkClient) : RemoteSync :=
  {| client := c; rs_id := client_id c;
     localObjects := []; localObjectTable := ∅; localObjectInfos := ∅;
     remoteObjectTable := ∅;
     sharedObjects := []; sharedObjectTable := ∅;
     transferComponents := ∅;
     onOpens := []; onConnects := []; onDisconnects := []; onReceives := [];
     onAdds := []; onRemoves := []; onReceiveUserDatas := [] |}.

Definition set_rs_id (v : string) (r : RemoteSync) : RemoteSync :=
  {| client := client r; rs_id := v;
     localObjects := localObjects r; localObjectTable := localObjectTable r;
     localObjectInfos := localObjectInfos r;
     remoteObjectTable := remoteObjectTable r;
     sharedObjects := sharedObjects r; sharedObjectTable := sharedObjectTable r;
     transferComponents := transferComponents r;
     onOpens := onOpens r; onConnects := onConnects r;
     onDisconnects := onDisconnects r; onReceives := onReceives r;
     onAdds := onAdds r; onRemoves := onRemoves r;
     onReceiveUserDatas := onReceiveUserDatas r |}.

Definition set_localObjects (f : list string → list string)
    (r : RemoteSync) : RemoteSync :=
  {| client := client r; rs_id := rs_id r;
     localObjects := f (localObjects r); localObjectTable := localObjectTable r;
     localObjectInfos := localObjectInfos r;
     remoteObjectTable := remoteObjectTable r;
     sharedObjects := sharedObjects r; sharedObjectTable := sharedObjectTable r;
     transferComponents := transferComponents r;
     onOpens := onOpens r; onConnects := onConnects r;
     onDisconnects := onDisconnects r; onReceives := onReceives r;
     onAdds := onAdds r; onRemoves := onRemoves r;
     onReceiveUserDatas := onReceiveUserDatas r |}.

Definition set_localObjectTable (f : gmap string string → gmap string string)
    (r : RemoteSync) : RemoteSync :=
  {| client := client r; rs_id := rs_id r;
     localObjects := localObjects r; localObjectTable := f (localObjectTable r);
     localObjectInfos := localObjectInfos r;
     remoteObjectTable := remoteObjectTable r;
     sharedObjects := sharedObjects r; sharedObjectTable := sharedObjectTable r;
     transferComponents := transferComponents r;
     onOpens := onOpens r; onConnects := onConnects r;
     onDisconnects := onDisconnects r; onReceives := onReceives r;
     onAdds := onAdds r; onRemoves := onRemoves r;
     onReceiveUserDatas := onReceiveUserDatas r |}.

Definition set_localObjectInfos (f : gmap string Info → gmap string Info)
    (r : RemoteSync) : RemoteSync :=
  {| client := client r; rs_id := rs_id r;
     localObjects := localObjects r; localObjectTable := localObjectTable r;
     localObjectInfos := f (localObjectInfos r);
     remoteObjectTable := remoteObjectTable r;
     sharedObjects := sharedObjects r; sharedObjectTable := sharedObjectTable r;
     transferComponents := transferComponents r;
     onOpens := onOpens r; onConnects := onConnects r;
     onDisconnects := onDisconnects r; onReceives := onReceives r;
     onAdds := onAdds r; onRemoves := onRemoves r;
     onReceiveUserDatas := onReceiveUserDatas r |}.

Definition set_remoteObjectTable
    (f : gmap string (gmap string string) → gmap string (gmap string string))
    (r : RemoteSync) : RemoteSync :=
  {| client := client r; rs_id := rs_id r;
     localObjects := localObjects r; localObjectTable := localObjectTable r;
     localObjectInfos := localObjectInfos r;
     remoteObjectTable := f (remoteObjectTable r);
     sharedObjects := sharedObjects r; sharedObjectTable := sharedObjectTable r;
     transferComponents := transferComponents r;
     onOpens := onOpens r; onConnects := onConnects r;
     onDisconnects := onDisconnects r; onReceives := onReceives r;
     onAdds := onAdds r; onRemoves := onRemoves r;
     onReceiveUserDatas := onReceiveUserDatas r |}.

Definition set_sharedObjects (f : list string → list string)
    (r : RemoteSync) : RemoteSync :=
  {| client := client r; rs_id := rs_id r;
     localObjects := localObjects r; localObjectTable := localObjectTable r;
     localObjectInfos := localObjectInfos r;
     remoteObjectTable := remoteObjectTable r;
     sharedObjects := f (sharedObjects r); sharedObjectTable := sharedObjectTable r;
     transferComponents := transferComponents r;
     onOpens := onOpens r; onConnects := onConnects r;
     onDisconnects := onDisconnects r; onReceives := onReceives r;
     onAdds := onAdds r; onRemoves := onRemoves r;
     onReceiveUserDatas := onReceiveUserDatas r |}.

Definition set_sharedObjectTable (f : gmap string string → gmap string string)
    (r : RemoteSync) : RemoteSync :=
  {| client := client r; rs_id := rs_id r;
     localObjects := localObjects r; localObjectTable := localObjectTable r;
     localObjectInfos := localObjectInfos r;
     remoteObjectTable := remoteObjectTable r;
     sharedObjects := sharedObjects r; sharedObjectTable := f (sharedObjectTable r);
     transferComponents := transferComponents r;
     onOpens := onOpens r; onConnects := onConnects r;
     onDisconnects := onDisconnects r; onReceives := onReceives r;
     onAdds := onAdds r; onRemoves := onRemoves r;
     onReceiveUserDatas := onReceiveUserDatas r |}.

Definition set_transferComponents
    (f : gmap string TransferComponent → gmap string TransferComponent)
    (r : RemoteSync) : RemoteSync :=
  {| client := client r; rs_id := rs_id r;
     localObjects := localObjects r; localObjectTable := localObjectTable r;
     localObjectInfos := localObjectInfos r;
     remoteObjectTable := remoteObjectTable r;
     sharedObjects := sharedObjects r; sharedObjectTable := sharedObjectTable r;
     transferComponents := f (transferComponents r);
     onOpens := onOpens r; onConnects := onConnects r;
     onDisconnects := onDisconnects r; onReceives := onReceives r;
     onAdds := onAdds r; onRemoves := onRemoves r;
     onReceiveUserDatas := onReceiveUserDatas r |}.

(** ** The world a handler runs in, and the JS monad *)

Record World := {
  this : RemoteSync;
  scene : string → Object3D;
  log : list Event
}.

Inductive JSError :=
| ReferenceError (name : string)
| TypeError (text : string).

Inductive Completion (A : Type) :=
| Normal (a : A)
| Throw (e : JSError).
Arguments Normal {A} a.
Arguments Throw {A} e.

Definition JS (A : Type) : Type := World → Completion A * World.

#[global] Instance JS_ret : MRet JS := λ A a w, (Normal a, w).

#[global] Instance JS_bind : MBind JS := λ A B f m w,
  match m w with
  | (Normal a, w') => f a w'
  | (Throw e, w') => (Throw e, w')
  end.

Definition gets {A} (f : World → A) : JS A := λ w, (Normal (f w), w).

Definition throw {A} (e : JSError) : JS A := λ w, (Throw e, w).

Definition modify_this (f : RemoteSync → RemoteSync) : JS unit := λ w,
  (Normal tt, {| this := f (this w); scene := scene w; log := log w |}).

Definition modify_scene (f : (string → Object3D) → string → Object3D)
  : JS unit := λ w,
  (Normal tt, {| this := this w; scene := f (scene w); log := log w |}).

Definition emit (e : Event) : JS unit := λ w,
  (Normal tt, {| this := this w; scene := scene w; log := log w ++ [e] |}).

(** [for ( i < list.length ) body( list[ i ] )] over an array that the
    body does not resize; [continue] is the body returning early. *)
Fixpoint forEach {A} (l : list A) (body : A → JS unit) : JS unit :=
  match l with
  | [] => mret tt
  | x :: l' => body x ;; forEach l' body
  end.

(** [for] loop that pushes what [body] yields onto a list. *)
Fixpoint collect {A B} (l : list A) (body : A → JS (option B)) : JS (list B) :=
  match l with
  | [] => mret []
  | x :: l' =>
      r ← body x;
      rest ← collect l' body;
      mret (from_option (λ b, b :: rest) rest r)
  end.

(** The events a run appended to the log. *)
Definition emitted (w w' : World) : list Event := drop (length (log w)) (log w').

(** ** Transfer components *)

(** [createTransferComponent( object )], on the live state of the object. *)
Definition createTransferComponent (uuid : string) (o : Object3D)
  : TransferComponent :=
  {| tc_id := uuid;
     tc_sid := None;
     tc_matrix := fill_float32 (matrix_elements o);
     tc_morphTargetInfluences :=
       match morphTargetInfluences o with
       | Some influences => fill_float32 influences
       | None => []
       end |}.

Definition buildObjectsAdditionComponent (sourceId : string)
    (objects : list string) (infoTable : gmap string Info) : Message :=
  {| msg_id := sourceId;
     msg_did := None;
     msg_list := AddList (map (λ object,
       {| add_id := object; add_info := infoTable !! object |}) objects) |}.

Definition buildObjectAdditionComponent (sourceId : string)
    (object : string) (info : option Info) : Message :=
  {| msg_id := sourceId;
     msg_did := None;
     msg_list := AddList [ {| add_id := object; add_info := info |} ] |}.

Definition buildObjectRemovalComponent (sourceId : string) (object : string)
  : Message :=
  {| msg_id := sourceId; msg_did := None; msg_list := RemoveList [ object ] |}.

(** ** Invoking listeners *)

Definition invokeOpenListeners (id : string) : JS unit :=
  fs ← gets (λ w, onOpens (this w));
  forEach fs (λ f, emit (OnOpen f id)).

Definition invokeConnectListeners (id : string) : JS unit :=
  fs ← gets (λ w, onConnects (this w));
  forEach fs (λ f, emit (OnConnect f id)).

Definition invokeDisconnectListeners (id : string) : JS unit :=
  fs ← gets (λ w, onDisconnects (this w));
  forEach fs (λ f, emit (OnDisconnect f id)).

Definition invokeAddListeners (destId objectId : string) (info : option Info)
  : JS unit :=
  fs ← gets (λ w, onAdds (this w));
  forEach fs (λ f, emit (OnAdd f destId objectId info)).

Definition invokeRemoteListeners (destId objectId object : string) : JS unit :=
  fs ← gets (λ w, onRemoves (this w));
  forEach fs (λ f, emit (OnRemove f destId objectId object)).

(** [invokeRemoteListeners] when the object handed over is the value that
    [Object.prototype] has under [name]. *)
Definition invokeRemoteListeners_inherited (destId objectId name : string)
  : JS unit :=
  fs ← gets (λ w, onRemoves (this w));
  forEach fs (λ f, emit (OnRemoveInherited f destId objectId name)).

Definition invokeReceiveListeners (component : Message) : JS unit :=
  fs ← gets (λ w, onReceives (this w));
  forEach fs (λ f, emit (OnReceive f component)).

Definition invokeReceiveUserDataListeners (data : Info) : JS unit :=
  fs ← gets (λ w, onReceiveUserDatas (this w));
  forEach fs (λ f, emit (OnReceiveUserData f data)).

(** ** Requests to the client *)

Definition broadcastAddObjectRequest (object : string) : JS unit :=
  self ← gets this;
  emit (ClientBroadcast (buildObjectAdditionComponent (rs_id self) object
                           (localObjectInfos self !! object))).

Definition sendAddObjectsRequest (destId : string) : JS unit :=
  self ← gets this;
  let component :=
    buildObjectsAdditionComponent (rs_id self) (localObjects self)
                                  (localObjectInfos self) in
  emit (ClientSend destId {| msg_id := msg_id component;
                             msg_did := Some destId;
                             msg_list := msg_list component |}).

Definition broadcastRemoveObjectRequest (object : string) : JS unit :=
  self ← gets this;
  emit (ClientBroadcast (buildObjectRemovalComponent (rs_id self) object)).

(** ** Registration *)

Definition addLocalObject (object : string) (info : option Info) : JS unit :=
  self ← gets this;
  match localObjectTable self !! object with
  | Some _ => mret tt
  | None =>
      let info := default (InfoObject []) info in
      modify_this (set_localObjectTable <[object := object]>) ;;
      modify_this (set_localObjects (λ l, l ++ [object])) ;;
      modify_this (set_localObjectInfos <[object := info]>) ;;
      o ← gets (λ w, scene w object);
      modify_this (set_transferComponents
                     <[object := createTransferComponent object o]>) ;;
      n ← gets (λ w, connectionNum (client (this w)));
      if decide (0 < n)%nat then broadcastAddObjectRequest object else mret tt
  end.

Definition removeLocalObject (object : string) : JS unit :=
  self ← gets this;
  match localObjectTable self !! object with
  | None => mret tt
  | Some _ =>
      modify_this (set_localObjectTable (delete object)) ;;
      modify_this (set_localObjectInfos (delete object)) ;;
      modify_this (set_transferComponents (delete object)) ;;
      modify_this (set_localObjects (λ l, removeObjectFromArray l object)) ;;
      n ← gets (λ w, connectionNum (client (this w)));
      if decide (0 < n)%nat then broadcastRemoveObjectRequest object
      else mret tt
  end.

Definition addRemoteObject (destId objectId object : string) : JS unit :=
  self ← gets this;
  (match js_get (remoteObjectTable self) destId with
   | Undefined => modify_this (set_remoteObjectTable <[destId := ∅]>)
   | _ => mret tt
   end) ;;
  objects ← gets (λ w, js_get (remoteObjectTable (this w)) destId);
  match objects with
  | Own table =>
      match js_get table objectId with
      | Undefined =>
          modify_this
            (set_remoteObjectTable <[destId := <[objectId := object]> table]>)
      | _ => mret tt
      end
  | _ =>
      (* [objects] is a built-in of the host: the store, if any, is made on
         the built-in, and the instance is as before *)
      mret tt
  end.

Definition addSharedObject (object : string) (id : string) : JS unit :=
  self ← gets this;
  if defined (js_get (sharedObjectTable self) id) then
      emit (ConsoleWarn ("THREE.RemoteSystem.addSharedObject: Shared id "
                           +:+ id +:+ " is already used."))
  else
      modify_this (set_sharedObjectTable <[id := object]>) ;;
      modify_this (set_sharedObjects (λ l, l ++ [object])) ;;
      o ← gets (λ w, scene w object);
      let component := createTransferComponent object o in
      modify_this (set_transferComponents
        <[object := {| tc_id := tc_id component;
                       tc_sid := Some id;
                       tc_matrix := tc_matrix component;
                       tc_morphTargetInfluences :=
                         tc_morphTargetInfluences component |}]>).

Definition removeSharedObject (id : string) : JS unit :=
  self ← gets this;
  match js_get (sharedObjectTable self) id with
  | Undefined => mret tt
  | Own object =>
      modify_this (set_sharedObjectTable (delete id)) ;;
      modify_this (set_sharedObjects (λ l, removeObjectFromArray l object))
  | Inherited _ =>
      modify_this (set_sharedObjectTable (delete id)) ;;
      modify_this (set_sharedObjects removeObjectFromArray_inherited)
  end.

(** ** Change detection and (de)serialization *)

(** [component.matrix] with [component] undefined. *)
Definition no_component : JSError :=
  TypeError "Cannot read property 'matrix' of undefined".

(** The comparison loops of [checkUpdate], on the component and the live
    state of the object. *)
Definition changed (component : TransferComponent) (o : Object3D) : bool :=
  if differs (tc_matrix component) (matrix_elements o) then true
  else
    match morphTargetInfluences o with
    | Some array2 =>
        if differs (tc_morphTargetInfluences component) array2
        then true else false
    | None => false
    end.

Definition checkUpdate (object : string) : JS bool :=
  self ← gets this;
  match transferComponents self !! object with
  | None => throw no_component
  | Some component =>
      o ← gets (λ w, scene w object);
      mret (changed component o)
  end.

(** The copy loops of [serialize]: the component after they have run. *)
Definition serialized (component : TransferComponent) (o : Object3D)
  : TransferComponent :=
  {| tc_id := tc_id component;
     tc_sid := tc_sid component;
     tc_matrix := copy_float32 (tc_matrix component) (matrix_elements o);
     tc_morphTargetInfluences :=
       match morphTargetInfluences o with
       | Some array2 =>
           copy_float32 (tc_morphTargetInfluences component) array2
       | None => tc_morphTargetInfluences component
       end |}.

(** The component is updated in place and returned. *)
Definition serialize (object : string) : JS TransferComponent :=
  self ← gets this;
  match transferComponents self !! object with
  | None => throw no_component
  | Some component =>
      o ← gets (λ w, scene w object);
      modify_this (set_transferComponents
                     <[object := serialized component o]>) ;;
      mret (serialized component o)
  end.

(** [object.matrix.decompose] writes position, quaternion and scale, which
    the engine never reads. *)
Definition deserialize (object : string) (component : TransferComponent)
  : JS unit :=
  modify_scene (λ sc,
    <[object :=
       {| matrix_elements := Matrix4_fromArray (tc_matrix component);
          morphTargetInfluences :=
            match morphTargetInfluences (sc object) with
            | Some array2 =>
                if decide (0 < length (tc_morphTargetInfluences component))%nat
                then Some (copy_into array2 (tc_morphTargetInfluences component))
                else Some array2
            | None => None
            end |}]> sc).

(** ** sync *)

Definition sync_scan (force : bool) (array : list string)
  : JS (list TransferComponent) :=
  collect array (λ object,
    update ← (if force then mret true else checkUpdate object);
    if update : bool then c ← serialize object; mret (Some c) else mret None).

Definition sync (force onlyLocal : bool) : JS unit :=
  self ← gets this;
  local ← sync_scan force (localObjects self);
  shared ← (if onlyLocal then mret [] else sync_scan force (sharedObjects self));
  let list := local ++ shared in
  if decide (0 < length list)%nat then
    emit (ClientBroadcast {| msg_id := rs_id self;
                             msg_did := None;
                             msg_list := SyncList list |})
  else mret tt.

(** ** Handling requests sent from remote *)

(** [object.matrix.fromArray] with [object.matrix] undefined: what
    [deserialize] runs into when it is handed a value inherited from
    [Object.prototype], which has no [matrix]. *)
Definition no_matrix : JSError :=
  TypeError "Cannot read property 'fromArray' of undefined".

(** The body of the loop of [handleSyncRequest]; [objects] is
    [this.remoteObjectTable[ destId ]], read before the loop. *)
Definition handleSyncRecord (objects : Property (gmap string string))
    (record : TransferComponent) : JS unit :=
  let objectId := tc_id record in
  let sharedId := tc_sid record in
  self ← gets this;
  let target :=
    match sharedId with
    | Some sid => js_get (sharedObjectTable self) sid
    | None => get_in objects objectId
    end in
  match target with
  | Undefined => mret tt
  | Own object =>
      deserialize object record ;;
      (* to update transfer component *)
      match sharedId with
      | Some _ => serialize object ;; mret tt
      | None => mret tt
      end
  | Inherited _ => throw no_matrix
  end.

Definition handleSyncRequest (destId : string)
    (list : list TransferComponent) : JS unit :=
  objects ← gets (λ w, js_get (remoteObjectTable (this w)) destId);
  forEach list (handleSyncRecord objects).

Definition handleAddRequest (destId : string) (list : list AddRecord)
  : JS unit :=
  objects ← gets (λ w, js_get (remoteObjectTable (this w)) destId);
  forEach list (λ record,
    if defined (get_in objects (add_id record)) then mret tt
    else invokeAddListeners destId (add_id record) (add_info record)).

Definition removeRemoteObject (destId objectId : string) : JS unit :=
  self ← gets this;
  match js_get (remoteObjectTable self) destId with
  | Undefined => mret tt
  | Own objects =>
      match js_get objects objectId with
      | Undefined => mret tt
      | Own object =>
          modify_this (set_remoteObjectTable
                         <[destId := delete objectId objects]>) ;;
          invokeRemoteListeners destId objectId object
      | Inherited name =>
          modify_this (set_remoteObjectTable
                         <[destId := delete objectId objects]>) ;;
          invokeRemoteListeners_inherited destId objectId name
      end
  | Inherited _ =>
      match builtin_get (A := string) objectId with
      | Inherited name =>
          (* [delete] acts on the built-in, outside the instance *)
          invokeRemoteListeners_inherited destId objectId name
      | _ => mret tt
      end
  end.

(** Reading an identifier: the table-valued variables in scope are given
    by name; a name that no scope declares throws. *)
Definition resolve_identifier
    (scope : gmap string (Property (gmap string string)))
    (name : string) : JS (Property (gmap string string)) :=
  match scope !! name with
  | Some v => mret v
  | None => throw (ReferenceError name)
  end.

(** [this.name( destId, objectId, object )]: the methods of the prototype
    that take a peer id, an object id and an object; a name that is not a
    property of the prototype is undefined, and calling it throws. *)
Definition call_method (name : string) (destId objectId object : string)
  : JS unit :=
  if decide (name = "removeRemoteObject") then removeRemoteObject destId objectId
  else if decide (name = "addRemoteObject")
       then addRemoteObject destId objectId object
  else if decide (name = "invokeRemoteListeners")
       then invokeRemoteListeners destId objectId object
  else throw (TypeError ("this." +:+ name +:+ " is not a function")).

(** The body reads [objests] and calls [this.removeRemoveObject], as the
    source spells them; the only table in scope is [objects]. *)
Definition handleRemoveRequest (destId : string) (list : list string)
  : JS unit :=
  objects ← gets (λ w, js_get (remoteObjectTable (this w)) destId);
  if defined objects then
    forEach list (λ objectId,
      objests ← resolve_identifier {[ "objects" := objects ]} "objests";
      match get_in objests objectId with
      | Undefined => mret tt
      | Own object => call_method "removeRemoveObject" destId objectId object
      | Inherited _ =>
          (* the method is undefined, whatever it is handed *)
          throw (TypeError "this.removeRemoveObject is not a function")
      end)
  else mret tt.



(** ** Client event listeners, set up by initClientEventListener *)

Definition onClientOpen (id : string) : JS unit :=
  modify_this (set_rs_id id) ;;
  invokeOpenListeners id.

Definition onClientConnect (id : string) (fromRemote : bool) : JS unit :=
  invokeConnectListeners id ;;
  sendAddObjectsRequest id ;;
  sync true (negb fromRemote).

Definition onClientDisconnect
    (Object_keys : gmap string string → list string) (id : string) : JS unit :=
  invokeDisconnectListeners id ;;
  (* removes objects registered as remote object of disconnected peer *)
  self ← gets this;
  match remoteObjectTable self !! id with
  | None =>
      (* no table, or -- under an id that names an inherited property -- a
         built-in, of which [Object.keys] lists nothing and which the
         [delete] does not find in the table *)
      mret tt
  | Some objects =>
      forEach (Object_keys objects) (λ key, removeRemoteObject id key) ;;
      modify_this (set_remoteObjectTable (delete id))
  end.

Definition onClientReceive (component : Message) : JS unit :=
  self ← gets this;
  (* if this data is not for me then ignore. *)
  if from_option (λ did, bool_decide (rs_id self ≠ did)) false (msg_did component)
  then mret tt
  else
    (match msg_list component with
     | SyncList list => handleSyncRequest (msg_id component) list
     | AddList list => handleAddRequest (msg_id component) list
     | RemoveList list => handleRemoveRequest (msg_id component) list
     | UserDataList data => invokeReceiveUserDataListeners data
     | UnknownList type => emit (ConsoleLog ("THREE.RemoteSync: Unknown type " +:+ pretty type))
     end) ;;
    invokeReceiveListeners component.

(** ** Registry invariants and the vocabulary of the properties *)

(** Every object in the local or shared sequence has its transfer
    component, stored under the uuid the component carries. *)
Definition snapshots_present (self : RemoteSync) : Prop :=
  ∀ u, u ∈ localObjects self ++ sharedObjects self →
       ∃ c, transferComponents self !! u = Some c ∧ tc_id c = u.

(** The local sequence and the local table list the same objects, each
    once, each with its transfer component. *)
Definition local_registry_coherent (self : RemoteSync) : Prop :=
  NoDup (localObjects self) ∧
  (∀ u, u ∈ localObjects self ↔ is_Some (localObjectTable self !! u)) ∧
  (∀ u, u ∈ localObjects self → is_Some (transferComponents self !! u)).

(** Two values that are equal once both are seen as Float32. *)
Definition same_float32 (a b : number) : Prop :=
  SFeqb (ensureFloat32 a) (ensureFloat32 b) = true.

(** Every channel of the object equals, as Float32, the channel kept in
    its transfer component. *)
Definition channels_unchanged (c : TransferComponent) (o : Object3D) : Prop :=
  Forall2 same_float32 (tc_matrix c) (matrix_elements o) ∧
  Forall2 same_float32 (tc_morphTargetInfluences c)
          (default [] (morphTargetInfluences o)).

(** Some channel of the object differs, as Float32, from the one kept in
    its transfer component. *)
Definition channel_changed (c : TransferComponent) (o : Object3D) : Prop :=
  (∃ i a b, tc_matrix c !! i = Some a ∧ matrix_elements o !! i = Some b ∧
            ¬ same_float32 a b) ∨
  (∃ i a b array2, morphTargetInfluences o = Some array2 ∧
            tc_morphTargetInfluences c !! i = Some a ∧ array2 !! i = Some b ∧
            ¬ same_float32 a b).

(** The records of the SYNC messages broadcast in a stretch of the log. *)
Definition sync_records (events : list Event) : list TransferComponent :=
  flat_map (λ e, match e with
                 | ClientBroadcast m =>
                     match msg_list m with SyncList l => l | _ => [] end
                 | _ => []
                 end) events.

(** The target of a SYNC record sent by [destId] is not registered: its
    shared id is not in the shared registry, or the sender has no table,
    or the table has no entry for the object id. *)
Definition unregistered (self : RemoteSync) (destId : string)
    (record : TransferComponent) : Prop :=
  match tc_sid record with
  | Some sid => sharedObjectTable self !! sid = None
  | None =>
      match remoteObjectTable self !! destId with
      | None => True
      | Some objects => objects !! tc_id record = None
      end
  end.

(** The same, and the id that finds no entry -- the shared id, the id of
    a sender without a table, the object id otherwise -- names no property
    inherited from [Object.prototype]: the lookup yields [undefined]. *)
Definition unresolved (self : RemoteSync) (destId : string)
    (record : TransferComponent) : Prop :=
  match tc_sid record with
  | Some sid => sharedObjectTable self !! sid = None ∧ sid ∉ Object_prototype
  | None =>
      match remoteObjectTable self !! destId with
      | None => destId ∉ Object_prototype
      | Some objects =>
          objects !! tc_id record = None ∧ tc_id record ∉ Object_prototype
      end
  end.

(** Every record whose target is [missing] is skipped: handling it alone
    returns normally and leaves the world as it was, and a message handles
    the same with or without it. *)
Definition skips_records
    (missing : RemoteSync → string → TransferComponent → Prop) : Prop :=
  ∀ (w : World) (destId : string) (record : TransferComponent)
    (before after : list TransferComponent),
    missing (this w) destId record →
    handleSyncRequest destId [record] w = (Normal tt, w) ∧
    handleSyncRequest destId (before ++ record :: after) w =
      handleSyncRequest destId (before ++ after) w.

Definition nan_free (l : list number) : Prop :=
  Forall (λ v, is_nan v = false) l.

(** The SYNC broadcast for a list of records: none when it is empty. *)
Definition sync_broadcast (self : RemoteSync) (records : list TransferComponent)
  : list Event :=
  match records with
  | [] => []
  | _ => [ClientBroadcast {| msg_id := rs_id self;
                             msg_did := None;
                             msg_list := SyncList records |}]
  end.

(** The objects a forced sync on connect covers: the local ones, and the
    shared ones when the remote peer asked for the connection. *)
Definition connect_sync_scope (fromRemote : bool) (self : RemoteSync)
  : list string :=
  localObjects self ++ (if fromRemote then sharedObjects self else []).

(** The same with the two sides exchanged: shared objects when this side
    asked for the connection. *)
Definition initiator_sync_scope (fromRemote : bool) (self : RemoteSync)
  : list string :=
  localObjects self ++ (if fromRemote then [] else sharedObjects self).

(** What the 'connect' listener of the client does on a coherent local
    registry where every object in the sequences has its transfer
    component, for a given scope of the forced sync: the listeners are
    told, the peer is sent one ADD message listing the registered local
    objects, each once and with its info, and one SYNC message with a
    record per object in scope is broadcast, if there is any. *)
Definition catalog_exchange (scope : bool → RemoteSync → list string) : Prop :=
  ∀ (w : World) (id : string) (fromRemote : bool),
    local_registry_coherent (this w) →
    snapshots_present (this w) →
    ∃ w' adds records,
      onClientConnect id fromRemote w = (Normal tt, w') ∧
      map add_id adds = localObjects (this w) ∧
      NoDup (map add_id adds) ∧
      (∀ u, u ∈ map add_id adds ↔ is_Some (localObjectTable (this w) !! u)) ∧
      (∀ record, record ∈ adds →
                 add_info record = localObjectInfos (this w) !! add_id record) ∧
      Forall2 (λ u record, ∃ c, transferComponents (this w) !! u = Some c ∧
                                record = serialized c (scene w u))
              (scope fromRemote (this w)) records ∧
      emitted w w' =
        map (λ f, OnConnect f id) (onConnects (this w)) ++
        [ClientSend id {| msg_id := rs_id (this w);
                          msg_did := Some id;
                          msg_list := AddList adds |}] ++
        sync_broadcast (this w) records.

(** The lookup of the target of a record yields [undefined]; [objects] is
    the table of the sender as [handleSyncRequest] reads it before the
    loop. *)
Definition no_target (self : RemoteSync)
    (objects : Property (gmap string string)) (record : TransferComponent)
  : Prop :=
  match tc_sid record with
  | Some sid => js_get (sharedObjectTable self) sid = Undefined
  | None => get_in objects (tc_id record) = Undefined
  end.

(** The world after [deserialize( object, component )]. *)
Definition deserialized (w : World) (object : string)
    (component : TransferComponent) : World :=
  {| this := this w;
     scene :=
       <[object :=
          {| matrix_elements := Matrix4_fromArray (tc_matrix component);
             morphTargetInfluences :=
               match morphTargetInfluences (scene w object) with
               | Some array2 =>
                   if decide (0 < length (tc_morphTargetInfluences component))%nat
                   then Some (copy_into array2
                                (tc_morphTargetInfluences component))
                   else Some array2
               | None => None
               end |}]> (scene w);
     log := log w |}.

(** The world with other transfer components. *)
Definition with_components (w : World)
    (components : gmap string TransferComponent) : World :=
  {| this := set_transferComponents (λ _, components) (this w);
     scene := scene w;
     log := log w |}.

(** The world with another table of mirrors and more events logged. *)
Definition with_remote (w : World)
    (table : gmap string (gmap string string)) (events : list Event) : World :=
  {| this := set_remoteObjectTable (λ _, table) (this w);
     scene := scene w;
     log := log w ++ events |}.

(** The 'remove' calls for one mirrored object: one per listener. *)
Definition remove_calls (self : RemoteSync) (destId : string)
    (entry : string * string) : list Event :=
  map (λ f, OnRemove f destId entry.1 entry.2) (onRemoves self).

(** The ADD message for a single object, as [addLocalObject] broadcasts it
    when a connection exists. *)
Definition add_broadcast (self : RemoteSync) (object : string) (info : Info)
  : list Event :=
  if decide (0 < connectionNum (client self))%nat
  then [ClientBroadcast (buildObjectAdditionComponent (rs_id self) object
                           (Some info))]
  else [].

(** The world after [addLocalObject] has registered a new object. *)
Definition with_local (w : World) (object : string) (info : Info) : World :=
  {| this :=
       set_transferComponents
         <[object := createTransferComponent object (scene w object)]>
         (set_localObjectInfos <[object := info]>
            (set_localObjects (λ l, l ++ [object])
               (set_localObjectTable <[object := object]> (this w))));
     scene := scene w;
     log := log w ++ add_broadcast (this w) object info |}.

(** The objects [sync] scans: the local ones, then the shared ones unless
    [onlyLocal]. *)
Definition sync_scope (onlyLocal : bool) (self : RemoteSync) : list string :=
  localObjects self ++ (if onlyLocal then [] else sharedObjects self).

(** The scan of [sync] as a function of the transfer components: the
    records pushed, and the components afterwards.  An object without a
    component is passed over here; [sync_scan] throws on it. *)
Fixpoint scan (force : bool) (sc : string → Object3D)
    (components : gmap string TransferComponent) (array : list string)
  : list TransferComponent * gmap string TransferComponent :=
  match array with
  | [] => ([], components)
  | object :: array' =>
      match components !! object with
      | Some c =>
          if force || changed c (sc object)
          then
            let c' := serialized c (sc object) in
            let '(records, components') :=
              scan force sc (<[object := c']> components) array' in
            (c' :: records, components')
          else scan force sc components array'
      | None => scan force sc components array'
      end
  end.

(** The echo of a SYNC record is suppressed: after the record sent by
    [destId] has been handled, a sync that is not forced sends no record
    for [object]. *)
Definition echo_suppressed (w : World) (destId : string)
    (record : TransferComponent) (object : string) (onlyLocal : bool) : Prop :=
  ∃ w1 w2,
    handleSyncRequest destId [record] w = (Normal tt, w1) ∧
    sync false onlyLocal w1 = (Normal tt, w2) ∧
    object ∉ map tc_id (sync_records (emitted w1 w2)).

(** An object whose transfer component is what serializing it now would
    write -- nothing changed since the component was written -- gets no
    record from a sync that is not forced. *)
Definition no_record_when_unchanged (w : World) (u : string) : Prop :=
  ∀ c, transferComponents (this w) !! u = Some c →
       c = serialized c (scene w u) →
       ∃ w', sync false false w = (Normal tt, w') ∧
             u ∉ map tc_id (sync_records (emitted w w')).

(** ** A small scene, for running the engine *)

Module Example.

Definition identity16 : list number :=
  [num 1 0; num 0 0; num 0 0; num 0 0;
   num 0 0; num 1 0; num 0 0; num 0 0;
   num 0 0; num 0 0; num 1 0; num 0 0;
   num 0 0; num 0 0; num 0 0; num 1 0].

(** A mesh at the origin, without and with morph targets. *)
Definition mesh : Object3D :=
  {| matrix_elements := identity16; morphTargetInfluences := None |}.

Definition morph_mesh : Object3D :=
  {| matrix_elements := identity16;
     morphTargetInfluences := Some [num 0 0; num 1 (-1)] |}.

Definition the_scene : string → Object3D :=
  λ u, if decide (u = "s") then morph_mesh else mesh.

(** A client with one connection, to peer "P". *)
Definition the_client : NetworkClient :=
  {| client_id := "me";
     connections := [ {| peer := "P" |} ];
     connectionTable := {[ "P" := {| peer := "P" |} ]} |}.

Definition with_listeners (r : RemoteSync) : RemoteSync :=
  {| client := client r; rs_id := rs_id r;
     localObjects := localObjects r; localObjectTable := localObjectTable r;
     localObjectInfos := localObjectInfos r;
     remoteObjectTable := remoteObjectTable r;
     sharedObjects := sharedObjects r;
     sharedObjectTable := sharedObjectTable r;
     transferComponents := transferComponents r;
     onOpens := []; onConnects := [0%nat]; onDisconnects := [0%nat];
     onReceives := [0%nat]; onAdds := [0%nat];
     onRemoves := [0%nat; 1%nat]; onReceiveUserDatas := [] |}.

Definition fresh : World :=
  {| this := with_listeners (RemoteSync_new the_client);
     scene := the_scene; log := [] |}.

(** Three local objects, one shared object and two mirrors of objects
    of peer "P". *)
Definition registered : World :=
  Eval vm_compute in
  snd ((addLocalObject "a" None ;;
        addLocalObject "o" (Some (InfoObject [("type", "mesh")])) ;;
        addLocalObject "b" None ;;
        addSharedObject "s" "S" ;;
        addRemoteObject "P" "x" "m1" ;;
        addRemoteObject "P" "y" "m2") fresh).

(** The shared object moved along x. *)
Definition moved : list number :=
  [num 1 0; num 0 0; num 0 0; num 0 0;
   num 0 0; num 1 0; num 0 0; num 0 0;
   num 0 0; num 0 0; num 1 0; num 0 0;
   num 5 0; num 0 0; num 0 0; num 1 0].

Definition sync_record (matrix : list number) : TransferComponent :=
  {| tc_id := "remote-uuid"; tc_sid := Some "S";
     tc_matrix := matrix; tc_morphTargetInfluences := [] |}.

(** A matrix with a NaN in its first channel. *)
Definition nan_matrix : list number := NaN :: tail identity16.

(** Records for the shared object, and a record for an object of the
    sender that is not mirrored here. *)
Definition moved_record : TransferComponent := sync_record moved.
Definition nan_record : TransferComponent := sync_record nan_matrix.
Definition unknown_record : TransferComponent :=
  {| tc_id := "z"; tc_sid := None;
     tc_matrix := moved; tc_morphTargetInfluences := [] |}.

(** A record addressed to the shared id "constructor", under which
    nothing is registered. *)
Definition constructor_record : TransferComponent :=
  {| tc_id := "remote-uuid"; tc_sid := Some "constructor";
     tc_matrix := moved; tc_morphTargetInfluences := [] |}.

Definition message (l : TransferList) : Message :=
  {| msg_id := "P"; msg_did := None; msg_list := l |}.

(** The registered world with one more local object, "n", whose matrix
    holds a NaN when it is registered. *)
Definition nan_registered : World :=
  Eval vm_compute in
  snd (addLocalObject "n" None
         {| this := this registered;
            scene := <["n" := {| matrix_elements := nan_matrix;
                                 morphTargetInfluences := None |}]> the_scene;
            log := log registered |}).

(** The registered world after the application has moved the local
    object "a". *)
Definition a_moved : World :=
  {| this := this registered;
     scene := <["a" := {| matrix_elements := moved;
                          morphTargetInfluences := None |}]> the_scene;
     log := log registered |}.

End Example.

(** ** A second peer *)

Module Peer.

(** The peer "P" of the small scene: connected to "me", with one 'add',
    one 'receive' and one 'receive_user_data' listener, and nothing
    registered. *)
Definition the_client : NetworkClient :=
  {| client_id := "P";
     connections := [ {| peer := "me" |} ];
     connectionTable := {[ "me" := {| peer := "me" |} ]} |}.

Definition fresh : World :=
  {| this :=
       {| client := the_client; rs_id := "P";
          localObjects := []; localObjectTable := ∅; localObjectInfos := ∅;
          remoteObjectTable := ∅;
          sharedObjects := []; sharedObjectTable := ∅;
          transferComponents := ∅;
          onOpens := []; onConnects := []; onDisconnects := [];
          onReceives := [0%nat]; onAdds := [0%nat]; onRemoves := [];
          onReceiveUserDatas := [0%nat; 1%nat] |};
     scene := Example.the_scene; log := [] |}.

(** The same after it has mirrored the object "a" of "me" as "ma". *)
Definition mirroring : World :=
  Eval vm_compute in snd (addRemoteObject "me" "a" "ma" fresh).

(** The same peer after it has registered its object "t" under the
    shared id "S". *)
Definition sharing : World :=
  Eval vm_compute in snd (addSharedObject "t" "S" fresh).

End Peer.

(** ** User data *)

(** [buildUserDataComponent( sourceId, data )] writes the id, the type and
    the one-element list into the buffer TRANSFER_COMPONENT and leaves
    [did] as the previous message set it; [component] is the buffer as the
    function finds it. *)
Definition buildUserDataComponent (component : Message) (sourceId : string)
    (data : Info) : Message :=
  {| msg_id := sourceId;
     msg_did := msg_did component;
     msg_list := UserDataList data |}.

Definition sendUserData (buffer : Message) (destId : string) (data : Info)
  : JS unit :=
  self ← gets this;
  let component := buildUserDataComponent buffer (rs_id self) data in
  emit (ClientSend destId {| msg_id := msg_id component;
                             msg_did := Some destId;
                             msg_list := msg_list component |}).

Definition broadcastUserData (buffer : Message) (data : Info) : JS unit :=
  self ← gets this;
  let component := buildUserDataComponent buffer (rs_id self) data in
  emit (ClientBroadcast {| msg_id := msg_id component;
                           msg_did := None;
                           msg_list := msg_list component |}).

(** ** SignalingServer *)

Module SignalingServer.

(** The fields set by the constructor. *)
Record t := {
  id : string;
  roomId : string;
  onOpens : list Listener;
  onCloses : list Listener;
  onErrors : list Listener;
  onRemoteJoins : list Listener;
  onReceives : list Listener
}.

(** What a signaling server does to the outside: the calls of its
    listeners, and the console. *)
Inductive Call :=
| Open (f : Listener) (id : string)
| Close (f : Listener) (id : string)
| Error (f : Listener) (error : string)
| RemoteJoin (f : Listener) (id : string) (localTimestamp remoteTimestamp : number)
| Receive (f : Listener) (signal : Info)
| Log (text : string).

(** [new THREE.SignalingServer()] *)
Definition new : t :=
  {| id := ""; roomId := "";
     onOpens := []; onCloses := []; onErrors := []; onRemoteJoins := [];
     onReceives := [] |}.

(** The server afterwards, and what was written to the console. *)
Definition addEventListener (type : string) (func : Listener) (s : t)
  : t * list Call :=
  if decide (type = "open") then
    ({| id := id s; roomId := roomId s;
        onOpens := onOpens s ++ [func]; onCloses := onCloses s;
        onErrors := onErrors s; onRemoteJoins := onRemoteJoins s;
        onReceives := onReceives s |}, [])
  else if decide (type = "close") then
    ({| id := id s; roomId := roomId s;
        onOpens := onOpens s; onCloses := onCloses s ++ [func];
        onErrors := onErrors s; onRemoteJoins := onRemoteJoins s;
        onReceives := onReceives s |}, [])
  else if decide (type = "error") then
    ({| id := id s; roomId := roomId s;
        onOpens := onOpens s; onCloses := onCloses s;
        onErrors := onErrors s ++ [func]; onRemoteJoins := onRemoteJoins s;
        onReceives := onReceives s |}, [])
  else if decide (type = "receive") then
    ({| id := id s; roomId := roomId s;
        onOpens := onOpens s; onCloses := onCloses s;
        onErrors := onErrors s; onRemoteJoins := onRemoteJoins s;
        onReceives := onReceives s ++ [func] |}, [])
  else if decide (type = "remote_join") then
    ({| id := id s; roomId := roomId s;
        onOpens := onOpens s; onCloses := onCloses s;
        onErrors := onErrors s; onRemoteJoins := onRemoteJoins s ++ [func];
        onReceives := onReceives s |}, [])
  else
    (s, [Log ("THREE.SignalingServer.addEventListener: Unknown type " +:+ type)]).

Definition invokeOpenListeners (id : string) (s : t) : list Call :=
  map (λ f, Open f id) (onOpens s).

Definition invokeCloseListeners (id : string) (s : t) : list Call :=
  map (λ f, Close f id) (onCloses s).

Definition invokeErrorListeners (error : string) (s : t) : list Call :=
  map (λ f, Error f error) (onErrors s).

Definition invokeRemoteJoinListeners (id : string)
    (localTimestamp remoteTimestamp : number) (s : t) : list Call :=
  map (λ f, RemoteJoin f id localTimestamp remoteTimestamp) (onRemoteJoins s).

Definition invokeReceiveListeners (signal : Info) (s : t) : list Call :=
  map (λ f, Receive f signal) (onReceives s).

(** A series of [addEventListener] calls: the server afterwards, and the
    console. *)
Definition register (s : t) (calls : list (string * Listener)) : t * list Call :=
  foldl (λ acc call,
           let '(s', out) := addEventListener call.1 call.2 acc.1 in
           (s', acc.2 ++ out))
        (s, []) calls.

(** The functions registered under [type], in the order of the calls. *)
Definition registered (type : string) (calls : list (string * Listener))
  : list Listener :=
  map snd (filter (λ call, call.1 = type) calls).

Definition event_types : list string :=
  ["open"; "close"; "error"; "receive"; "remote_join"].

End SignalingServer.

(** ** More vocabulary of the properties *)

(** The connection sequence and the connection table of a client list the
    same peers, each once. *)
Definition client_coherent (c : NetworkClient) : Prop :=
  NoDup (map peer (connections c)) ∧
  ∀ p, p ∈ map peer (connections c) ↔ is_Some (connectionTable c !! p).

(** The mirror registered for the object [objectId] of peer [destId]. *)
Definition mirror_of (self : RemoteSync) (destId objectId : string)
  : option string :=
  remoteObjectTable self !! destId ≫=
    (λ objects : gmap string string, objects !! objectId).

(** What the engine finds when it looks the mirror up:
    [this.remoteObjectTable[ destId ][ objectId ]], or [undefined] when
    the peer has no table. *)
Definition mirror_lookup (self : RemoteSync) (destId objectId : string)
  : Property string :=
  get_in (js_get (remoteObjectTable self) destId) objectId.

(** The peer has a table of its own, or its id names no property
    inherited from [Object.prototype]: reading its table does not yield a
    built-in of the host. *)
Definition plain_peer (self : RemoteSync) (destId : string) : Prop :=
  is_Some (remoteObjectTable self !! destId) ∨ destId ∉ Object_prototype.

(** The 'add' calls for the records of an ADD message of [destId]: one per
    listener for each record whose lookup yields [undefined]. *)
Definition add_calls (self : RemoteSync) (destId : string)
    (records : list AddRecord) : list Event :=
  flat_map (λ record,
    if defined (mirror_lookup self destId (add_id record)) then []
    else map (λ f, OnAdd f destId (add_id record) (add_info record))
             (onAdds self)) records.

(** The 'receive' calls for a message. *)
Definition receive_calls (self : RemoteSync) (component : Message)
  : list Event :=
  map (λ f, OnReceive f component) (onReceives self).



(** The same registries and listeners, whatever the transfer components. *)
Definition same_registries (self self' : RemoteSync) : Prop :=
  set_transferComponents (λ _, transferComponents self) self' = self.

(** The sequences of local and shared objects are the same, and every
    transfer component is still there, under the same uuid. *)
Definition components_kept (self self' : RemoteSync) : Prop :=
  localObjects self' = localObjects self ∧
  sharedObjects self' = sharedObjects self ∧
  ∀ u c, transferComponents self !! u = Some c →
         ∃ c', transferComponents self' !! u = Some c' ∧ tc_id c' = tc_id c.

(** An operation that keeps them, however it ends. *)
Definition keeps_components {A} (m : JS A) : Prop :=
  ∀ w res w', m w = (res, w') → components_kept (this w) (this w').

(** * Properties *)

(** ** Float32 rounding *)

Section Float32_facts.

Lemma digits2_pos_size p : digits2_pos p = Pos.size p.
Proof. induction p; simpl; congruence. Qed.

Lemma Zdigits2_log2 m : 0 < m → Zdigits2 m = Z.log2 m + 1.
Proof.
  destruct m as [|p|p]; try lia. intros _. simpl.
  destruct p; simpl; rewrite ?digits2_pos_size; lia.
Qed.

Lemma Zdigits2_nonneg m : 0 ≤ Zdigits2 m.
Proof. destruct m; simpl; lia. Qed.

Lemma Zdigits2_mono a b : 0 ≤ a ≤ b → Zdigits2 a ≤ Zdigits2 b.
Proof.
  intros [Ha Hab]. destruct (Z.eq_dec a 0) as [->|Hn].
  - apply Zdigits2_nonneg.
  - rewrite !Zdigits2_log2 by lia.
    pose proof (Z.log2_le_mono a b Hab). lia.
Qed.

Lemma shr_1_m r : 0 ≤ shr_m r → shr_m (shr_1 r) = Z.div2 (shr_m r).
Proof.
  destruct r as [m rb sb]; simpl. destruct m as [|p|p]; try lia; intros _.
  - reflexivity.
  - destruct p; reflexivity.
Qed.

Lemma iter_shr_1_m p r :
  0 ≤ shr_m r → shr_m (SpecFloat.iter_pos shr_1 p r) = Z.shiftr (shr_m r) (Zpos p).
Proof.
  revert r. induction p as [p IH|p IH|]; intros r Hr; simpl SpecFloat.iter_pos.
  - assert (H1 : 0 ≤ shr_m (shr_1 r)).
    { rewrite shr_1_m by assumption. apply Z.div2_nonneg. assumption. }
    assert (H2 : 0 ≤ shr_m (SpecFloat.iter_pos shr_1 p (shr_1 r))).
    { rewrite IH by assumption. apply Z.shiftr_nonneg. assumption. }
    rewrite IH, IH, shr_1_m by assumption.
    rewrite Z.div2_spec, !Z.shiftr_shiftr by lia. f_equal. lia.
  - assert (H2 : 0 ≤ shr_m (SpecFloat.iter_pos shr_1 p r)).
    { rewrite IH by assumption. apply Z.shiftr_nonneg. assumption. }
    rewrite IH, IH by assumption.
    rewrite Z.shiftr_shiftr by lia. f_equal. lia.
  - rewrite shr_1_m by assumption. apply Z.div2_spec.
Qed.

Lemma shr_record_of_loc_m m l : shr_m (shr_record_of_loc m l) = m.
Proof. destruct l as [|[]]; reflexivity. Qed.

(** The shift of [shr_fexp] brings the exponent to [fexp] of the
    magnitude and divides the mantissa accordingly. *)
Lemma shr_fexp_spec m e l :
  0 ≤ m → e ≤ fexp prec emax (Zdigits2 m + e) →
  snd (shr_fexp prec emax m e l) = fexp prec emax (Zdigits2 m + e) ∧
  shr_m (fst (shr_fexp prec emax m e l)) =
    Z.shiftr m (fexp prec emax (Zdigits2 m + e) - e).
Proof.
  intros Hm He. unfold shr_fexp, shr.
  destruct (fexp prec emax (Zdigits2 m + e) - e) as [|p|p] eqn:E; simpl.
  - rewrite shr_record_of_loc_m, Z.shiftr_0_r. split; lia.
  - rewrite iter_shr_1_m by (rewrite shr_record_of_loc_m; assumption).
    rewrite shr_record_of_loc_m. split; lia.
  - lia.
Qed.

Lemma Zdigits2_shiftr m n :
  0 < m → 0 ≤ n →
  (Z.shiftr m n = 0 ∧ Zdigits2 m ≤ n) ∨
  (0 < Z.shiftr m n ∧ Zdigits2 (Z.shiftr m n) = Zdigits2 m - n).
Proof.
  intros Hm Hn.
  assert (H0 : 0 ≤ Z.shiftr m n) by (apply Z.shiftr_nonneg; lia).
  destruct (Z.eq_dec (Z.shiftr m n) 0) as [Hz|Hz].
  - left. split; [assumption|].
    apply Z.shiftr_eq_0_iff in Hz. rewrite Zdigits2_log2 by assumption. lia.
  - right. split; [lia|].
    rewrite !Zdigits2_log2 by lia.
    rewrite Z.log2_shiftr by assumption.
    assert (¬ Z.log2 m < n).
    { intros Hlt. apply Hz. apply Z.shiftr_eq_0_iff. right. lia. }
    lia.
Qed.

Lemma round_nearest_even_cases m l :
  round_nearest_even m l = m ∨ round_nearest_even m l = m + 1.
Proof.
  destruct l as [|[]]; simpl; auto. destruct (Z.even m); auto.
Qed.

Lemma binary_round_aux_rounded s mz ez :
  ez ≤ fexp prec emax (Zdigits2 (Zpos mz) + ez) →
  rounded (binary_round_aux prec emax s (Zpos mz) ez loc_Exact).
Proof.
  intros He. unfold binary_round_aux.
  destruct (shr_fexp_spec (Zpos mz) ez loc_Exact ltac:(lia) He) as [He1 Hm1].
  destruct (shr_fexp prec emax (Z.pos mz) ez loc_Exact) as [r1 e1];
    cbn [fst snd] in He1, Hm1.
  set (m1 := round_nearest_even (shr_m r1) (loc_of_shr_record r1)).
  assert (Hr1 : 0 ≤ shr_m r1) by (rewrite Hm1; apply Z.shiftr_nonneg; lia).
  assert (Hm1' : 0 ≤ m1 ∧ shr_m r1 ≤ m1 ≤ shr_m r1 + 1).
  { subst m1.
    destruct (round_nearest_even_cases (shr_m r1) (loc_of_shr_record r1)); lia. }
  assert (Hpre : e1 ≤ fexp prec emax (Zdigits2 m1 + e1)).
  { destruct (Zdigits2_shiftr (Zpos mz) (e1 - ez) ltac:(lia) ltac:(lia))
      as [[Hz Hd]|[Hp Hd]].
    - rewrite <- He1 in Hm1. rewrite Hz in Hm1.
      pose proof (Zdigits2_nonneg m1).
      assert (Zdigits2 m1 ≤ 1).
      { change 1 with (Zdigits2 1). apply Zdigits2_mono. lia. }
      revert He1 Hd. unfold fexp, emin, prec, emax in *. lia.
    - rewrite <- He1 in Hm1. rewrite <- Hm1 in Hd, Hp.
      pose proof (Zdigits2_mono (shr_m r1) m1 ltac:(lia)).
      revert He1 Hd H. unfold fexp, emin, prec, emax in *. lia. }
  destruct (shr_fexp_spec m1 e1 loc_Exact ltac:(lia) Hpre) as [He2 Hm2].
  destruct (shr_fexp prec emax m1 e1 loc_Exact) as [r2 e2];
    cbn [fst snd] in He2, Hm2.
  destruct (shr_m r2) as [|p|p] eqn:Ep; [exact I| |].
  - destruct (e2 <=? emax - prec) eqn:Ele; [|exact I].
    unfold rounded, bounded, canonical_mantissa. rewrite Ele, andb_true_r.
    apply Z.eqb_eq.
    assert (0 < m1).
    { destruct (Z.eq_dec m1 0) as [Hz|]; [|lia].
      rewrite Hz, Z.shiftr_0_l in Hm2. lia. }
    destruct (Zdigits2_shiftr m1 (e2 - e1) ltac:(lia) ltac:(lia))
      as [[Hz Hd]|[Hp Hd]].
    + rewrite <- He2 in Hm2. lia.
    + rewrite <- He2 in Hm2. rewrite <- Hm2 in Hd.
      change (Z.pos (digits2_pos p)) with (Zdigits2 (Zpos p)).
      replace (Zdigits2 (Z.pos p) + e2) with (Zdigits2 m1 + e1) by lia.
      lia.
  - assert (0 ≤ Z.shiftr m1 (fexp prec emax (Zdigits2 m1 + e1) - e1))
      by (apply Z.shiftr_nonneg; lia).
    lia.
Qed.

Lemma digits2_pos_iter_xO m d :
  Zpos (digits2_pos (Pos.iter xO m d)) = Zpos (digits2_pos m) + Zpos d.
Proof.
  induction d as [|d IH] using Pos.peano_ind.
  - simpl. lia.
  - rewrite Pos.iter_succ. simpl digits2_pos. lia.
Qed.

Lemma binary_round_rounded s m e : rounded (binary_round prec emax s m e).
Proof.
  unfold binary_round, shl_align.
  destruct (fexp prec emax (Z.pos (digits2_pos m) + e) - e) as [|p|p] eqn:E.
  - apply binary_round_aux_rounded. cbn [Zdigits2]. lia.
  - apply binary_round_aux_rounded. cbn [Zdigits2]. lia.
  - apply binary_round_aux_rounded. cbn [Zdigits2].
    rewrite digits2_pos_iter_xO.
    replace (Z.pos (digits2_pos m) + Z.pos p +
             fexp prec emax (Z.pos (digits2_pos m) + e))
      with (Z.pos (digits2_pos m) + e) by lia.
    lia.
Qed.

Lemma shr_fexp_canonical m e :
  fexp prec emax (Z.pos (digits2_pos m) + e) = e →
  shr_fexp prec emax (Zpos m) e loc_Exact =
    (Build_shr_record (Zpos m) false false, e).
Proof.
  intros Hc. unfold shr_fexp. cbn [Zdigits2].
  rewrite Hc, Z.sub_diag. reflexivity.
Qed.

(** A binary32 value is stored as it is. *)
Lemma binary_round_bounded s m e :
  bounded prec emax m e = true →
  binary_round prec emax s m e = S754_finite s m e.
Proof.
  unfold bounded, canonical_mantissa. intros H.
  apply andb_true_iff in H as [Hc Hb]. apply Z.eqb_eq in Hc.
  unfold binary_round, shl_align. rewrite Hc, Z.sub_diag.
  unfold binary_round_aux. rewrite (shr_fexp_canonical m e Hc).
  cbn [shr_m loc_of_shr_record round_nearest_even].
  rewrite (shr_fexp_canonical m e Hc). cbn [shr_m]. rewrite Hb. reflexivity.
Qed.

(** Storing twice is storing once. *)
Lemma ensureFloat32_idempotent x :
  ensureFloat32 (ensureFloat32 x) = ensureFloat32 x.
Proof.
  destruct x as [s|s| |s m e]; try reflexivity. simpl.
  pose proof (binary_round_rounded s m e) as H.
  destruct (binary_round prec emax s m e) as [s'|s'| |s' m' e'] eqn:E;
    try reflexivity.
  cbn [rounded] in H. cbn [ensureFloat32]. apply binary_round_bounded, H.
Qed.

Lemma ensureFloat32_is_nan x : is_nan (ensureFloat32 x) = is_nan x.
Proof.
  destruct x as [s|s| |s m e]; try reflexivity. simpl.
  pose proof (binary_round_rounded s m e) as H.
  destruct (binary_round prec emax s m e); simpl; try reflexivity.
  contradiction.
Qed.

Lemma SFeqb_refl x : is_nan x = false → SFeqb x x = true.
Proof.
  unfold SFeqb. destruct x as [s|s| |s m e]; try easy; intros _; simpl.
  - destruct s; reflexivity.
  - rewrite Z.compare_refl, Pos.compare_cont_refl. destruct s; reflexivity.
Qed.

(** A value just stored as Float32 compares equal to its source, unless
    it is NaN. *)
Lemma stored_same_float32 x :
  is_nan x = false → same_float32 (ensureFloat32 x) x.
Proof.
  intros Hx. unfold same_float32. rewrite ensureFloat32_idempotent.
  apply SFeqb_refl. rewrite ensureFloat32_is_nan. exact Hx.
Qed.

End Float32_facts.

(** ** Loops over arrays of numbers *)

Section Array_loops.

Lemma foldl_insert_seq (g : nat → number) (n : nat) (l : list number) :
  (n ≤ length l)%nat →
  foldl (λ arr i, <[i := g i]> arr) l (seq 0 n) = map g (seq 0 n) ++ drop n l.
Proof.
  induction n as [|n IH]; intros Hn.
  - simpl. by rewrite drop_0.
  - rewrite seq_S, foldl_app, IH by lia. simpl.
    rewrite map_app. simpl. rewrite <- app_assoc. simpl.
    rewrite insert_app_r_alt by (rewrite length_map, length_seq; lia).
    rewrite length_map, length_seq, Nat.sub_diag.
    destruct (lookup_lt_is_Some_2 l n ltac:(lia)) as [x Hx].
    by rewrite (drop_S _ _ _ Hx).
Qed.

Lemma copy_float32_map array array2 :
  copy_float32 array array2 = map (elem_f32 array2) (seq 0 (length array)).
Proof.
  unfold copy_float32. rewrite foldl_insert_seq by lia.
  rewrite drop_all. apply app_nil_r.
Qed.

Lemma length_copy_float32 array array2 :
  length (copy_float32 array array2) = length array.
Proof. by rewrite copy_float32_map, length_map, length_seq. Qed.

Lemma copy_float32_lookup array array2 i :
  (i < length array)%nat →
  copy_float32 array array2 !! i = Some (elem_f32 array2 i).
Proof.
  intros Hi. rewrite copy_float32_map, list_lookup_fmap.
  rewrite lookup_seq_lt by lia. reflexivity.
Qed.

(** Serializing again from the same array changes nothing. *)
Lemma copy_float32_again array array2 :
  copy_float32 (copy_float32 array array2) array2 = copy_float32 array array2.
Proof. by rewrite !copy_float32_map, length_map, length_seq. Qed.

Lemma foldl_array_set_seq (g : nat → number) (n : nat) (l : list number) :
  foldl (λ arr i, array_set arr i (g i)) l (seq 0 n) =
    map g (seq 0 n) ++ drop n l.
Proof.
  induction n as [|n IH].
  - simpl. by rewrite drop_0.
  - rewrite seq_S, foldl_app, IH. simpl.
    rewrite map_app. simpl. rewrite <- app_assoc. simpl.
    unfold array_set.
    destruct (decide (n < length l)%nat) as [Hlt|Hge].
    + destruct (lookup_lt_is_Some_2 l n Hlt) as [x Hx].
      rewrite (drop_S _ _ _ Hx).
      rewrite decide_True
        by (rewrite length_app, length_map, length_seq; simpl; lia).
      rewrite insert_app_r_alt by (rewrite length_map, length_seq; lia).
      by rewrite length_map, length_seq, Nat.sub_diag.
    + rewrite !drop_ge by lia. rewrite app_nil_r.
      rewrite decide_False by (rewrite length_map, length_seq; lia).
      by rewrite length_map, length_seq, Nat.sub_diag.
Qed.

Lemma fill_float32_map source : fill_float32 source = map ensureFloat32 source.
Proof.
  unfold fill_float32. rewrite foldl_array_set_seq. simpl.
  rewrite drop_nil, app_nil_r.
  apply list_eq. intros i. rewrite !list_lookup_fmap.
  destruct (decide (i < length source)%nat) as [Hi|Hi].
  - rewrite lookup_seq_lt by lia. simpl. unfold elem_f32.
    destruct (lookup_lt_is_Some_2 source i Hi) as [x ->]. reflexivity.
  - rewrite lookup_seq_ge by lia. rewrite lookup_ge_None_2 by lia. reflexivity.
Qed.

Lemma copy_into_app array2 array :
  copy_into array2 array = array ++ drop (length array) array2.
Proof.
  unfold copy_into. rewrite foldl_array_set_seq. f_equal.
  apply list_eq. intros i. rewrite list_lookup_fmap.
  destruct (decide (i < length array)%nat) as [Hi|Hi].
  - rewrite lookup_seq_lt by lia. simpl.
    destruct (lookup_lt_is_Some_2 array i Hi) as [x ->]. reflexivity.
  - rewrite lookup_seq_ge by lia. rewrite lookup_ge_None_2 by lia. reflexivity.
Qed.

Lemma differs_false array array2 :
  differs array array2 = false ↔
  ∀ i, (i < length array)%nat →
       SFeqb (elem_f32 array i) (elem_f32 array2 i) = true.
Proof.
  unfold differs. rewrite <- not_true_iff_false, existsb_exists. split.
  - intros H i Hi.
    destruct (SFeqb (elem_f32 array i) (elem_f32 array2 i)) eqn:E; [done|].
    exfalso. apply H. exists i. split.
    + apply in_seq. lia.
    + unfold strict_neq. by rewrite E.
  - intros H (i & Hi%in_seq & Hne). unfold strict_neq in Hne.
    rewrite H in Hne by lia. done.
Qed.

Lemma differs_true array array2 i a b :
  array !! i = Some a → array2 !! i = Some b → ¬ same_float32 a b →
  differs array array2 = true.
Proof.
  intros Ha Hb Hne. unfold differs. apply existsb_exists. exists i. split.
  - apply in_seq. apply lookup_lt_Some in Ha. lia.
  - unfold strict_neq, elem_f32. rewrite Ha, Hb. simpl.
    unfold same_float32 in Hne. by destruct (SFeqb _ _).
Qed.

Lemma Forall2_same_float32_differs array array2 :
  Forall2 same_float32 array array2 → differs array array2 = false.
Proof.
  intros H. apply differs_false. intros i Hi.
  destruct (lookup_lt_is_Some_2 array i Hi) as [a Ha].
  destruct (Forall2_lookup_l _ _ _ _ _ H Ha) as (b & Hb & Hab).
  unfold elem_f32. rewrite Ha, Hb. exact Hab.
Qed.

(** Right after the copy loop, no channel differs, provided the source
    has a value that is not NaN for every channel of the component. *)
Lemma differs_copy_float32 array array2 :
  (length array ≤ length array2)%nat → nan_free array2 →
  differs (copy_float32 array array2) array2 = false.
Proof.
  intros Hlen Hnan. apply differs_false. intros i Hi.
  rewrite length_copy_float32 in Hi.
  destruct (lookup_lt_is_Some_2 array2 i ltac:(lia)) as [b Hb].
  unfold elem_f32 at 1. rewrite copy_float32_lookup by lia. simpl.
  unfold elem_f32. rewrite Hb. simpl.
  apply stored_same_float32.
  unfold nan_free in Hnan. rewrite Forall_lookup in Hnan. by eapply Hnan.
Qed.

End Array_loops.

Local Open Scope nat_scope.

(** ** The compaction loops *)

Section Compaction.
Context {A : Type} (P : A → Prop) `{!∀ x, Decision (P x)}.

(** A loop body that, reading at [i = readIndex], writes the element at
    [writeIndex] when it satisfies [P]. *)
Variable step : list A * nat * nat → nat → list A * nat * nat.
Hypothesis step_spec : ∀ array w i x,
  array !! i = Some x →
  step (array, i, w) i =
    if decide (P x) then (<[w := x]> array, S i, S w) else (array, S i, w).

Lemma compaction_invariant (l : list A) (n : nat) :
  n ≤ length l →
  ∃ array,
    foldl step (l, 0, 0) (seq 0 n) =
      (array, n, length (filter P (take n l))) ∧
    take (length (filter P (take n l))) array = filter P (take n l) ∧
    drop n array = drop n l ∧
    length array = length l.
Proof.
  induction n as [|n IH]; intros Hn.
  - exists l. simpl. rewrite take_0, drop_0. done.
  - destruct IH as (array & Hloop & Htake & Hdrop & Hlen); [lia|].
    destruct (lookup_lt_is_Some_2 l n ltac:(lia)) as [x Hx].
    assert (Hax : array !! n = Some x).
    { rewrite <- (Nat.add_0_r n), <- lookup_drop, Hdrop, lookup_drop.
      by rewrite Nat.add_0_r. }
    pose proof (length_filter P (take n l)) as Hw.
    rewrite length_take in Hw.
    assert (Hdrop' : drop (S n) array = drop (S n) l).
    { rewrite (drop_S _ _ _ Hx), (drop_S _ _ _ Hax) in Hdrop. congruence. }
    rewrite seq_S, foldl_app, Hloop. simpl.
    rewrite (step_spec _ _ _ _ Hax), (take_S_r _ _ _ Hx), filter_app.
    destruct (decide (P x)) as [HP|HP].
    + rewrite (filter_cons_True P x []) by done. rewrite filter_nil.
      exists (<[length (filter P (take n l)) := x]> array).
      rewrite length_app, length_insert. simpl. rewrite Nat.add_1_r.
      split_and!; [done| |by rewrite drop_insert_lt by lia|done].
      destruct (lookup_lt_is_Some_2 array (length (filter P (take n l)))
                  ltac:(lia)) as [y Hy].
      rewrite take_insert_lt by lia. rewrite (take_S_r _ _ _ Hy).
      rewrite insert_app_r_alt by (rewrite length_take; lia).
      rewrite length_take.
      replace (length (filter P (take n l)) -
               length (filter P (take n l)) `min` length array)
        with 0 by lia.
      simpl. by rewrite Htake.
    + rewrite (filter_cons_False P x []) by done.
      rewrite filter_nil, app_nil_r.
      by exists array.
Qed.

Lemma compaction_filter (l : list A) :
  (let '(array, _, writeIndex) := foldl step (l, 0, 0) (seq 0 (length l)) in
   take writeIndex array) = filter P l.
Proof.
  destruct (compaction_invariant l (length l) ltac:(lia))
    as (array & -> & Htake & _).
  rewrite Htake. by rewrite take_ge.
Qed.

End Compaction.

(** The loop of [removeObjectFromArray] keeps the elements that are the
    object and drops the others. *)
Lemma removeObjectFromArray_filter (array : list string) (object : string) :
  removeObjectFromArray array object = filter (λ x, x = object) array.
Proof.
  unfold removeObjectFromArray.
  apply (compaction_filter (λ x, x = object)).
  intros arr w i x Hx. unfold removeObjectFromArray_body. by rewrite Hx.
Qed.

(** Reading a table at a key it has, or at a key that names nothing. *)
Lemma js_get_Some {A} (table : gmap string A) (key : string) (a : A) :
  table !! key = Some a → js_get table key = Own a.
Proof. unfold js_get. by intros ->. Qed.

Lemma js_get_Undefined {A} (table : gmap string A) (key : string) :
  js_get table key = Undefined ↔ table !! key = None ∧ key ∉ Object_prototype.
Proof.
  unfold js_get. destruct (table !! key); [by split; [|intros [? _]]|].
  destruct (decide (key ∈ Object_prototype)); split; try done.
  by intros [_ ?].
Qed.

Lemma js_get_Inherited {A} (table : gmap string A) (key name : string) :
  js_get table key = Inherited name ↔
  table !! key = None ∧ key ∈ Object_prototype ∧ name = key.
Proof.
  unfold js_get. destruct (table !! key); [by split; [|intros [? _]]|].
  destruct (decide (key ∈ Object_prototype)); split; try done.
  - by intros [= <-].
  - by intros (_ & _ & ->).
  - by intros (_ & ? & _).
Qed.

Lemma js_get_Own {A} (table : gmap string A) (key : string) (a : A) :
  js_get table key = Own a ↔ table !! key = Some a.
Proof.
  unfold js_get. destruct (table !! key); [split; congruence|].
  by destruct (decide (key ∈ Object_prototype)).
Qed.

(** The loop of [removeConnection] keeps the connections of the other
    peers, in order. *)
Lemma removeConnection_filter (c : NetworkClient) (id : string) :
  id ≠ client_id c → hasConnection c id = true →
  removeConnection c id =
    (true, {| client_id := client_id c;
              connections := filter (λ x, peer x ≠ id) (connections c);
              connectionTable := delete id (connectionTable c) |}).
Proof.
  intros Hid Hx. unfold removeConnection, hasConnection in *.
  rewrite decide_False by (intros [?|?]; congruence).
  pose proof (compaction_filter (λ x, peer x ≠ id) (removeConnection_body id))
    as Hloop.
  specialize (Hloop ltac:(intros arr w i y Hy; unfold removeConnection_body;
                          by rewrite Hy) (connections c)).
  destruct (foldl _ _ _) as [[array r] writeIndex]. by rewrite Hloop.
Qed.

(** ** Running the monad *)

Ltac js_run :=
  unfold mbind, JS_bind, mret, JS_ret, gets, throw, modify_this, modify_scene,
    emit; cbn [fst snd this scene log].

Lemma bind_run {A B} (m : JS A) (f : A → JS B) (w : World) :
  (m ≫= f) w =
    match m w with
    | (Normal a, w') => f a w'
    | (Throw e, w') => (Throw e, w')
    end.
Proof. reflexivity. Qed.

Lemma emitted_app (w w' : World) (events : list Event) :
  log w' = log w ++ events → emitted w w' = events.
Proof. unfold emitted. intros ->. by rewrite drop_app_length. Qed.

Lemma emitted_refl (w : World) : emitted w w = [].
Proof. unfold emitted. by rewrite drop_all. Qed.

(** Calling each listener of a list appends one event per listener. *)
Lemma forEach_emit {A} (l : list A) (g : A → Event) (w : World) :
  forEach l (λ x, emit (g x)) w =
    (Normal tt, {| this := this w; scene := scene w;
                   log := log w ++ map g l |}).
Proof.
  revert w. induction l as [|x l IH]; intros [self sc lg]; simpl.
  - js_run. by rewrite app_nil_r.
  - rewrite bind_run. unfold emit at 1. cbn [this scene log].
    rewrite IH. cbn [this scene log]. by rewrite <- app_assoc.
Qed.

(** ** Registration conflicts *)

(** C7. A shared id that is already bound rejects a second registration:
    [addSharedObject] warns on the console and changes nothing -- the id
    stays bound to the first object, the sequence of shared objects is the
    same, and no transfer component is created. *)
Theorem addSharedObject_rejects_bound_id
    (w : World) (id object1 object2 : string) :
  sharedObjectTable (this w) !! id = Some object1 →
  ∃ w',
    addSharedObject object2 id w = (Normal tt, w') ∧
    emitted w w' =
      [ConsoleWarn ("THREE.RemoteSystem.addSharedObject: Shared id "
                      +:+ id +:+ " is already used.")] ∧
    this w' = this w ∧
    scene w' = scene w ∧
    sharedObjectTable (this w') !! id = Some object1 ∧
    sharedObjects (this w') = sharedObjects (this w) ∧
    transferComponents (this w') = transferComponents (this w).
Proof.
  intros Hbound. unfold addSharedObject. js_run.
  rewrite (js_get_Some _ _ _ Hbound). cbn [defined].
  eexists. split; [reflexivity|]. cbn [this scene log].
  split_and!; try done. by apply emitted_app.
Qed.

Lemma addSharedObject_rejects_bound_id_witness :
  sharedObjectTable (this Example.registered) !! "S" = Some "s" ∧
  ∃ w',
    addSharedObject "t" "S" Example.registered = (Normal tt, w') ∧
    emitted Example.registered w' =
      [ConsoleWarn ("THREE.RemoteSystem.addSharedObject: Shared id "
                      +:+ "S" +:+ " is already used.")] ∧
    this w' = this Example.registered ∧
    scene w' = scene Example.registered ∧
    sharedObjectTable (this w') !! "S" = Some "s" ∧
    sharedObjects (this w') = sharedObjects (this Example.registered) ∧
    transferComponents (this w') = transferComponents (this Example.registered).
Proof.
  assert (H : sharedObjectTable (this Example.registered) !! "S" = Some "s")
    by (vm_compute; reflexivity).
  split; [exact H|].
  exact (addSharedObject_rejects_bound_id Example.registered "S" "s" "t" H).
Defined.

(** C10. Registering a mirror under a (peer id, object id) that already
    has one is a no-op: the first mirror stays and the second is not
    stored. *)
Theorem addRemoteObject_keeps_first_mirror
    (w : World) (destId objectId mirror1 mirror2 : string)
    (objects : gmap string string) :
  remoteObjectTable (this w) !! destId = Some objects →
  objects !! objectId = Some mirror1 →
  addRemoteObject destId objectId mirror2 w = (Normal tt, w).
Proof.
  intros Hpeer Hobject. unfold addRemoteObject. js_run.
  rewrite (js_get_Some _ _ _ Hpeer). cbn [this].
  rewrite (js_get_Some _ _ _ Hpeer). by rewrite (js_get_Some _ _ _ Hobject).
Qed.

Lemma addRemoteObject_keeps_first_mirror_witness :
  remoteObjectTable (this Example.registered) !! "P"
    = Some {[ "x" := "m1"; "y" := "m2" ]} ∧
  ({[ "x" := "m1"; "y" := "m2" ]} : gmap string string) !! "x" = Some "m1" ∧
  addRemoteObject "P" "x" "m3" Example.registered
    = (Normal tt, Example.registered).
Proof.
  assert (H1 : remoteObjectTable (this Example.registered) !! "P"
                 = Some {[ "x" := "m1"; "y" := "m2" ]})
    by (vm_compute; reflexivity).
  assert (H2 : ({[ "x" := "m1"; "y" := "m2" ]} : gmap string string) !! "x"
                 = Some "m1")
    by (vm_compute; reflexivity).
  split_and!; [exact H1|exact H2|].
  exact (addRemoteObject_keeps_first_mirror Example.registered
           "P" "x" "m1" "m3" _ H1 H2).
Defined.

(** ** What the primitive operations do to the world *)

Lemma deserialize_run object component w :
  deserialize object component w = (Normal tt, deserialized w object component).
Proof. reflexivity. Qed.

Lemma serialize_run object w :
  serialize object w =
    match transferComponents (this w) !! object with
    | Some c =>
        (Normal (serialized c (scene w object)),
         with_components w (<[object := serialized c (scene w object)]>
                              (transferComponents (this w))))
    | None => (Throw no_component, w)
    end.
Proof.
  unfold serialize. js_run. by destruct (transferComponents (this w) !! object).
Qed.

Lemma checkUpdate_run object w :
  checkUpdate object w =
    match transferComponents (this w) !! object with
    | Some c => (Normal (changed c (scene w object)), w)
    | None => (Throw no_component, w)
    end.
Proof.
  unfold checkUpdate. js_run. by destruct (transferComponents (this w) !! object).
Qed.

(** ** Incoming SYNC records without a target *)

Ltac by_compute := refine (bool_decide_unpack _ _); vm_compute; exact I.

Section Unresolved_records.

Lemma handleSyncRecord_skip w objects record :
  no_target (this w) objects record →
  handleSyncRecord objects record w = (Normal tt, w).
Proof.
  unfold no_target, handleSyncRecord. js_run.
  destruct (tc_sid record) as [sid|]; by intros ->.
Qed.

(** Applying a record touches the scene and the transfer components,
    never the tables the targets are looked up in. *)
Lemma handleSyncRecord_tables w objects record res w' :
  handleSyncRecord objects record w = (res, w') →
  sharedObjectTable (this w') = sharedObjectTable (this w).
Proof.
  unfold handleSyncRecord. rewrite bind_run. unfold gets.
  destruct (match tc_sid record with
            | Some sid => js_get (sharedObjectTable (this w)) sid
            | None => _
            end) as [object|name|]; [|by intros [= _ <-]..].
  rewrite bind_run, deserialize_run.
  destruct (tc_sid record) as [sid|]; [|by intros [= _ <-]].
  rewrite bind_run, serialize_run. cbn [this deserialized].
  destruct (transferComponents (this w) !! object); by intros [= _ <-].
Qed.

Lemma forEach_handleSyncRecord_skip objects record before after : ∀ w,
  no_target (this w) objects record →
  forEach (before ++ record :: after) (handleSyncRecord objects) w =
  forEach (before ++ after) (handleSyncRecord objects) w.
Proof.
  induction before as [|r before IH]; intros w Hno; simpl.
  - rewrite bind_run, handleSyncRecord_skip by done. reflexivity.
  - rewrite !bind_run.
    destruct (handleSyncRecord objects r w) as [[[]|e] w1] eqn:E; [|done].
    apply IH. unfold no_target in *.
    by rewrite (handleSyncRecord_tables _ _ _ _ _ E).
Qed.

Lemma unresolved_no_target self destId record :
  unresolved self destId record →
  no_target self (js_get (remoteObjectTable self) destId) record.
Proof.
  unfold unresolved, no_target. destruct (tc_sid record) as [sid|].
  - intros [Hnone Hname]. by apply js_get_Undefined.
  - destruct (remoteObjectTable self !! destId) as [objects|] eqn:Hpeer.
    + intros [Hnone Hname]. rewrite (js_get_Some _ _ _ Hpeer).
      by apply js_get_Undefined.
    + intros Hname.
      assert (js_get (remoteObjectTable self) destId = Undefined) as ->
        by by apply js_get_Undefined.
      done.
Qed.

End Unresolved_records.

(** X27. A SYNC record whose target is not registered -- its shared id
    is unknown, or the sender has no table of mirrors, or the table has no
    entry for the object id -- and whose id that finds no entry (the
    shared id, the id of the sender, the object id) names no property
    inherited from [Object.prototype] is skipped: handling it alone
    returns normally and leaves the world as it was, and a message handles
    the same with or without it. *)
Theorem handleSyncRequest_skips_unresolved
    (w : World) (destId : string) (record : TransferComponent)
    (before after : list TransferComponent) :
  unresolved (this w) destId record →
  handleSyncRequest destId [record] w = (Normal tt, w) ∧
  handleSyncRequest destId (before ++ record :: after) w =
    handleSyncRequest destId (before ++ after) w.
Proof.
  intros Hno%unresolved_no_target.
  unfold handleSyncRequest. rewrite !bind_run. unfold gets. split.
  - simpl. rewrite bind_run, handleSyncRecord_skip by done. reflexivity.
  - by apply forEach_handleSyncRecord_skip.
Qed.

Lemma handleSyncRequest_skips_unresolved_witness :
  unresolved (this Example.registered) "P" Example.unknown_record ∧
  handleSyncRequest "P" [Example.unknown_record] Example.registered
    = (Normal tt, Example.registered) ∧
  handleSyncRequest "P"
      ([Example.moved_record] ++ Example.unknown_record :: [Example.moved_record])
      Example.registered =
    handleSyncRequest "P" ([Example.moved_record] ++ [Example.moved_record])
      Example.registered.
Proof.
  assert (H : unresolved (this Example.registered) "P" Example.unknown_record).
  { assert (Hpeer : remoteObjectTable (this Example.registered) !! "P"
                      = Some {[ "x" := "m1"; "y" := "m2" ]})
      by (vm_compute; reflexivity).
    unfold unresolved. cbn [tc_sid tc_id Example.unknown_record].
    rewrite Hpeer. split; [by vm_compute|by_compute]. }
  split; [exact H|].
  exact (handleSyncRequest_skips_unresolved Example.registered "P"
           Example.unknown_record [Example.moved_record] [Example.moved_record]
           H).
Defined.

(** C9. A SYNC record whose shared id names a property that every object
    inherits: no shared object is registered under "constructor", yet the
    lookup in the table finds the inherited value, the test against
    [undefined] lets it pass, [deserialize] reads its [matrix], which is
    undefined, and the handler stops with a TypeError.  The record that
    follows in the message, for the shared object "s", is not applied, and
    the 'receive' listeners are not called; without the first record it
    is applied.  So the record without a target is not skipped. *)
Theorem unregistered_record_throws :
  unregistered (this Example.registered) "P" Example.constructor_record ∧
  handleSyncRequest "P" [Example.constructor_record] Example.registered
    = (Throw no_matrix, Example.registered) ∧
  onClientReceive
    (Example.message
       (SyncList [Example.constructor_record; Example.moved_record]))
    Example.registered
    = (Throw no_matrix, Example.registered) ∧
  (∃ w',
     onClientReceive (Example.message (SyncList [Example.moved_record]))
       Example.registered = (Normal tt, w') ∧
     matrix_elements (scene w' "s") = Example.moved ∧
     matrix_elements (scene Example.registered "s") = Example.identity16 ∧
     emitted Example.registered w'
       = [OnReceive 0 (Example.message (SyncList [Example.moved_record]))]) ∧
  ¬ skips_records unregistered.
Proof.
  assert (Hun : unregistered (this Example.registered) "P"
                  Example.constructor_record) by (vm_compute; reflexivity).
  assert (Hrun : handleSyncRequest "P" [Example.constructor_record]
                   Example.registered
                 = (Throw no_matrix, Example.registered))
    by (vm_compute; reflexivity).
  split_and!; [exact Hun|exact Hrun|by vm_compute| |].
  - exists (onClientReceive (Example.message (SyncList [Example.moved_record]))
              Example.registered).2.
    split_and!; vm_compute; reflexivity.
  - intros Hskips.
    destruct (Hskips Example.registered "P" Example.constructor_record [] [] Hun)
      as [Hnormal _].
    rewrite Hrun in Hnormal. discriminate.
Qed.

(** ** Incoming REMOVE messages *)

(** With a table of mirrors for the sender, the first record of a REMOVE
    message stops the handler: [objests] is not declared anywhere. *)
Lemma handleRemoveRequest_ReferenceError
    (w : World) (destId objectId : string) (list : list string)
    (objects : gmap string string) :
  remoteObjectTable (this w) !! destId = Some objects →
  handleRemoveRequest destId (objectId :: list) w
    = (Throw (ReferenceError "objests"), w).
Proof.
  intros Hpeer. unfold handleRemoveRequest. js_run.
  rewrite (js_get_Some _ _ _ Hpeer). simpl.
  unfold resolve_identifier. js_run.
  by rewrite lookup_singleton_ne.
Qed.

(** C2. A REMOVE message from peer "P" for the mirrored object "x": the
    handler throws a ReferenceError at the first record; the entry is
    still in the table of "P", and neither the 'remove' nor the 'receive'
    listeners have been called. *)
Theorem handleRemoveRequest_throws :
  remoteObjectTable (this Example.registered) !! "P"
    = Some {[ "x" := "m1"; "y" := "m2" ]} ∧
  onRemoves (this Example.registered) = [0; 1] ∧
  onClientReceive (Example.message (RemoveList ["x"])) Example.registered
    = (Throw (ReferenceError "objests"), Example.registered).
Proof.
  assert (H : remoteObjectTable (this Example.registered) !! "P"
                = Some {[ "x" := "m1"; "y" := "m2" ]})
    by (vm_compute; reflexivity).
  split_and!; [exact H|reflexivity|].
  unfold onClientReceive. rewrite bind_run. unfold gets.
  change (from_option _ _ _) with false. cbn iota.
  rewrite bind_run. cbn [msg_list msg_id Example.message].
  by rewrite (handleRemoveRequest_ReferenceError Example.registered
                "P" "x" [] _ H).
Qed.

(** ** Removing a local object *)

(** C3. Removing the local object "o" registered between "a" and "b",
    with one connection open: the table entry, the info and the transfer
    component of "o" are deleted and one REMOVE message is broadcast, but
    the sequence of local objects is left holding "o" alone, where the
    sequence without "o" is "a", "b". *)
Theorem removeLocalObject_keeps_only_removed :
  localObjects (this Example.registered) = ["a"; "o"; "b"] ∧
  connectionNum (client (this Example.registered)) = 1 ∧
  ∃ w',
    removeLocalObject "o" Example.registered = (Normal tt, w') ∧
    localObjectTable (this w')
      = delete "o" (localObjectTable (this Example.registered)) ∧
    transferComponents (this w')
      = delete "o" (transferComponents (this Example.registered)) ∧
    emitted Example.registered w'
      = [ClientBroadcast (buildObjectRemovalComponent "me" "o")] ∧
    localObjects (this w') = ["o"] ∧
    filter (λ x, x ≠ "o") (localObjects (this Example.registered)) = ["a"; "b"].
Proof.
  split_and!; [by vm_compute|reflexivity|].
  eexists. split; [by vm_compute|].
  split_and!; by vm_compute.
Qed.

(** ** Disconnecting a peer *)

Section Disconnect.

Lemma removeRemoteObject_run destId objectId w :
  removeRemoteObject destId objectId w =
    match js_get (remoteObjectTable (this w)) destId with
    | Undefined => (Normal tt, w)
    | Own objects =>
        match js_get objects objectId with
        | Undefined => (Normal tt, w)
        | Own object =>
            (Normal tt,
             with_remote w (<[destId := delete objectId objects]>
                              (remoteObjectTable (this w)))
                         (remove_calls (this w) destId (objectId, object)))
        | Inherited name =>
            (Normal tt,
             with_remote w (<[destId := delete objectId objects]>
                              (remoteObjectTable (this w)))
                         (map (λ f, OnRemoveInherited f destId objectId name)
                              (onRemoves (this w))))
        end
    | Inherited _ =>
        match builtin_get (A := string) objectId with
        | Inherited name =>
            (Normal tt,
             {| this := this w; scene := scene w;
                log := log w ++
                  map (λ f, OnRemoveInherited f destId objectId name)
                      (onRemoves (this w)) |})
        | _ => (Normal tt, w)
        end
    end.
Proof.
  unfold removeRemoteObject. rewrite bind_run. unfold gets.
  destruct (js_get (remoteObjectTable (this w)) destId) as [objects|name|];
    [| |done].
  - destruct (js_get objects objectId) as [object|name|]; [| |done].
    + rewrite bind_run. unfold modify_this, invokeRemoteListeners.
      rewrite bind_run. unfold gets. by rewrite forEach_emit.
    + rewrite bind_run. unfold modify_this, invokeRemoteListeners_inherited.
      rewrite bind_run. unfold gets. by rewrite forEach_emit.
  - destruct (builtin_get objectId) as [object|name'|]; [done| |done].
    unfold invokeRemoteListeners_inherited.
    rewrite bind_run. unfold gets. by rewrite forEach_emit.
Qed.

(** Retracting an object that is mirrored. *)
Lemma removeRemoteObject_mirrored destId objectId objects object w :
  remoteObjectTable (this w) !! destId = Some objects →
  objects !! objectId = Some object →
  removeRemoteObject destId objectId w =
    (Normal tt,
     with_remote w (<[destId := delete objectId objects]>
                      (remoteObjectTable (this w)))
                 (remove_calls (this w) destId (objectId, object))).
Proof.
  intros Hpeer Hobject. rewrite removeRemoteObject_run.
  by rewrite (js_get_Some _ _ _ Hpeer), (js_get_Some _ _ _ Hobject).
Qed.



End Disconnect.




(** ** Registering a local object *)

Section Local_registration.

Lemma addLocalObject_run object info w :
  addLocalObject object info w =
    match localObjectTable (this w) !! object with
    | Some _ => (Normal tt, w)
    | None => (Normal tt, with_local w object (default (InfoObject []) info))
    end.
Proof.
  unfold addLocalObject. rewrite bind_run. unfold gets at 1.
  destruct (localObjectTable (this w) !! object); [done|].
  unfold broadcastAddObjectRequest, with_local, add_broadcast. js_run.
  cbn [client set_transferComponents set_localObjectInfos set_localObjects
       set_localObjectTable].
  destruct (decide (0 < connectionNum (client (this w))));
    cbn [this scene log client rs_id localObjectInfos set_transferComponents
         set_localObjectInfos set_localObjects set_localObjectTable].
  - by rewrite lookup_insert_eq.
  - by rewrite app_nil_r.
Qed.

Lemma filter_eq_not_in (l : list string) (x : string) :
  x ∉ l → filter (λ y, y = x) l = [].
Proof.
  induction l as [|y l IH]; [done|]. intros Hx.
  apply not_elem_of_cons in Hx as [Hne Hx].
  rewrite filter_cons_False by done. by apply IH.
Qed.

Lemma filter_eq_NoDup (l : list string) (x : string) :
  NoDup l → x ∈ l → length (filter (λ y, y = x) l) = 1.
Proof.
  induction l as [|y l IH]; intros Hnd Hx.
  - by apply elem_of_nil in Hx.
  - apply NoDup_cons in Hnd as [Hy Hnd].
    destruct (decide (y = x)) as [->|Hne].
    + rewrite filter_cons_True by done. by rewrite filter_eq_not_in.
    + rewrite filter_cons_False by done. apply IH; [done|].
      apply elem_of_cons in Hx as [->|Hx]; done.
Qed.

Lemma with_local_coherent w object info :
  localObjectTable (this w) !! object = None →
  local_registry_coherent (this w) →
  local_registry_coherent (this (with_local w object info)).
Proof.
  intros Hnew (Hnd & Htable & Hsnap).
  unfold local_registry_coherent, with_local.
  cbn [this localObjects localObjectTable transferComponents
       set_transferComponents set_localObjectInfos set_localObjects
       set_localObjectTable].
  assert (Hout : object ∉ localObjects (this w)).
  { rewrite Htable, Hnew. by intros [? ?]. }
  split_and!.
  - apply NoDup_app. split_and!; [done| |apply NoDup_singleton].
    intros x Hx ->%list_elem_of_singleton. done.
  - intros u. rewrite elem_of_app, list_elem_of_singleton, Htable.
    destruct (decide (u = object)) as [->|Hne].
    + rewrite lookup_insert_eq. split; [by eexists|by right].
    + rewrite lookup_insert_ne by done. split; [by intros [?|?]|by left].
  - intros u. rewrite elem_of_app, list_elem_of_singleton.
    destruct (decide (u = object)) as [->|Hne].
    + rewrite lookup_insert_eq. by eexists.
    + rewrite lookup_insert_ne by done. intros [?|?]; [by apply Hsnap|done].
Qed.

End Local_registration.

(** X24. On a coherent local registry -- the sequence and the table of
    local objects list the same objects, each once in the sequence, each
    with its transfer component -- registering the same local object
    twice is registering it once: the second call returns without
    changing the world or logging anything; afterwards the object has its
    transfer component and occurs once in the sequence of local objects;
    the only message is the ADD broadcast of the first call, sent when the
    object was new and a connection existed; and the registry is coherent
    again. *)
Theorem addLocalObject_idempotent
    (w : World) (object : string) (info info' : option Info) :
  local_registry_coherent (this w) →
  ∃ w1,
    addLocalObject object info w = (Normal tt, w1) ∧
    addLocalObject object info' w1 = (Normal tt, w1) ∧
    is_Some (transferComponents (this w1) !! object) ∧
    length (filter (λ x, x = object) (localObjects (this w1))) = 1 ∧
    emitted w w1 =
      match localObjectTable (this w) !! object with
      | Some _ => []
      | None =>
          if decide (0 < connectionNum (client (this w)))
          then [ClientBroadcast
                  {| msg_id := rs_id (this w);
                     msg_did := None;
                     msg_list := AddList
                       [ {| add_id := object;
                            add_info := Some (default (InfoObject []) info) |} ]
                  |}]
          else []
      end ∧
    local_registry_coherent (this w1).
Proof.
  intros Hco. pose proof Hco as (Hnd & Htable & Hsnap).
  rewrite addLocalObject_run.
  destruct (localObjectTable (this w) !! object) as [o|] eqn:Hreg.
  - exists w. rewrite addLocalObject_run, Hreg.
    assert (Hin : object ∈ localObjects (this w)).
    { apply Htable. rewrite Hreg. by eexists. }
    split_and!; try done.
    + by apply Hsnap.
    + by apply filter_eq_NoDup.
    + apply emitted_refl.
  - eexists. split; [reflexivity|].
    assert (Hout : object ∉ localObjects (this w)).
    { rewrite Htable, Hreg. by intros [? ?]. }
    split_and!.
    + rewrite addLocalObject_run. unfold with_local at 1.
      cbn [this localObjectTable set_transferComponents set_localObjectInfos
           set_localObjects set_localObjectTable].
      by rewrite lookup_insert_eq.
    + unfold with_local. cbn [this transferComponents set_transferComponents].
      rewrite lookup_insert_eq. by eexists.
    + unfold with_local.
      cbn [this localObjects set_transferComponents set_localObjectInfos
           set_localObjects set_localObjectTable].
      rewrite filter_app, filter_eq_not_in by done.
      by rewrite filter_cons_True.
    + apply emitted_app. unfold with_local, add_broadcast. cbn [log].
      by destruct (decide (0 < connectionNum (client (this w)))).
    + by apply with_local_coherent.
Qed.

Lemma addLocalObject_idempotent_witness :
  local_registry_coherent (this Example.fresh) ∧
  ∃ w1,
    addLocalObject "a" None Example.fresh = (Normal tt, w1) ∧
    addLocalObject "a" (Some (InfoObject [("type", "mesh")])) w1
      = (Normal tt, w1) ∧
    is_Some (transferComponents (this w1) !! "a") ∧
    length (filter (λ x, x = "a") (localObjects (this w1))) = 1 ∧
    emitted Example.fresh w1 =
      [ClientBroadcast
         {| msg_id := "me"; msg_did := None;
            msg_list := AddList
              [ {| add_id := "a"; add_info := Some (InfoObject []) |} ] |}] ∧
    local_registry_coherent (this w1).
Proof.
  assert (H : local_registry_coherent (this Example.fresh)).
  { split_and!.
    - apply NoDup_nil_2.
    - intros u. cbn. rewrite lookup_empty, elem_of_nil. split; [done|].
      by intros [? ?].
    - intros u Hu. by apply elem_of_nil in Hu. }
  split; [exact H|].
  exact (addLocalObject_idempotent Example.fresh "a" None
           (Some (InfoObject [("type", "mesh")])) H).
Defined.

(** C8. The registry of three local objects "a", "o", "b", with one
    connection open: after [removeLocalObject] of "o", which is then not
    registered, [addLocalObject] of "o" registers it, broadcasting one ADD
    message, and a second [addLocalObject] of "o" returns without changing
    the world; "o" has its transfer component, but the sequence of local
    objects holds it twice, since the removal left it there. *)
Theorem addLocalObject_twice_after_removal :
  ∃ w0 w1,
    localObjects (this Example.registered) = ["a"; "o"; "b"] ∧
    removeLocalObject "o" Example.registered = (Normal tt, w0) ∧
    localObjectTable (this w0) !! "o" = None ∧
    transferComponents (this w0) !! "o" = None ∧
    localObjects (this w0) = ["o"] ∧
    addLocalObject "o" None w0 = (Normal tt, w1) ∧
    emitted w0 w1 =
      [ClientBroadcast
         {| msg_id := "me"; msg_did := None;
            msg_list := AddList
              [ {| add_id := "o"; add_info := Some (InfoObject []) |} ] |}] ∧
    addLocalObject "o" None w1 = (Normal tt, w1) ∧
    is_Some (transferComponents (this w1) !! "o") ∧
    localObjects (this w1) = ["o"; "o"] ∧
    length (filter (λ x, x = "o") (localObjects (this w1))) = 2%nat.
Proof.
  exists (removeLocalObject "o" Example.registered).2.
  exists (addLocalObject "o" None
            (removeLocalObject "o" Example.registered).2).2.
  split_and!; try (vm_compute; reflexivity).
  destruct (transferComponents _ !! "o") eqn:E;
    [by eexists|vm_compute in E; discriminate].
Qed.

(** ** The scan of sync *)

Section Scan.

Lemma with_components_id w : with_components w (transferComponents (this w)) = w.
Proof. by destruct w as [[] ? ?]. Qed.

Lemma serialized_again c o : serialized (serialized c o) o = serialized c o.
Proof.
  unfold serialized. cbn [tc_id tc_sid tc_matrix tc_morphTargetInfluences].
  rewrite copy_float32_again.
  destruct (morphTargetInfluences o); by rewrite ?copy_float32_again.
Qed.

Lemma scan_is_Some force sc l : ∀ tc u,
  is_Some ((scan force sc tc l).2 !! u) ↔ is_Some (tc !! u).
Proof.
  induction l as [|x l IH]; intros tc u; simpl; [done|].
  destruct (tc !! x) as [c|] eqn:Hx; [|apply IH].
  destruct (force || changed c (sc x)); [|apply IH].
  specialize (IH (<[x := serialized c (sc x)]> tc) u).
  destruct (scan force sc _ l) as [records tc']. simpl in *.
  rewrite IH. destruct (decide (x = u)) as [->|Hne].
  - rewrite lookup_insert_eq, Hx. split; by eexists.
  - by rewrite lookup_insert_ne.
Qed.

(** [sync_scan] runs the scan when every object has its component. *)
Lemma sync_scan_run force w l : ∀ tc,
  (∀ u, u ∈ l → is_Some (tc !! u)) →
  sync_scan force l (with_components w tc) =
    (Normal (scan force (scene w) tc l).1,
     with_components w (scan force (scene w) tc l).2).
Proof.
  unfold sync_scan. induction l as [|x l IH]; intros tc Hall; simpl.
  - reflexivity.
  - destruct (Hall x ltac:(left)) as [c Hc]. rewrite Hc.
    rewrite bind_run.
    assert (Hvisit :
      (update ← (if force then mret true else checkUpdate x);
       if update : bool then c0 ← serialize x; mret (Some c0) else mret None)
        (with_components w tc) =
      if force || changed c (scene w x)
      then (Normal (Some (serialized c (scene w x))),
            with_components w (<[x := serialized c (scene w x)]> tc))
      else (Normal None, with_components w tc)).
    { assert (Hser :
        (c0 ← serialize x; mret (Some c0)) (with_components w tc) =
        (Normal (Some (serialized c (scene w x))),
         with_components w (<[x := serialized c (scene w x)]> tc))).
      { rewrite bind_run, serialize_run.
        cbn [this with_components set_transferComponents transferComponents
             scene].
        by rewrite Hc. }
      rewrite bind_run. destruct force.
      - unfold mret at 1, JS_ret at 1. by rewrite Hser.
      - rewrite checkUpdate_run.
        cbn [this with_components set_transferComponents transferComponents
             scene].
        rewrite Hc. cbn [orb].
        destruct (changed c (scene w x)); [|done]. by rewrite Hser. }
    rewrite Hvisit.
    destruct (force || changed c (scene w x)).
    + rewrite bind_run, IH.
      * by destruct (scan force (scene w) _ l).
      * intros u Hu. destruct (decide (x = u)) as [->|Hne].
        -- rewrite lookup_insert_eq. by eexists.
        -- rewrite lookup_insert_ne by done. apply Hall. by right.
    + rewrite bind_run, IH; [done|].
      intros u Hu. apply Hall. by right.
Qed.

Lemma scan_app force sc l k tc :
  scan force sc tc (l ++ k) =
    let '(r1, tc1) := scan force sc tc l in
    let '(r2, tc2) := scan force sc tc1 k in
    (r1 ++ r2, tc2).
Proof.
  revert tc. induction l as [|x l IH]; intros tc; simpl.
  - by destruct (scan force sc tc k).
  - destruct (tc !! x) as [c|]; [|apply IH].
    destruct (force || changed c (sc x)); [|apply IH].
    rewrite IH. destruct (scan force sc _ l) as [r1 tc1].
    by destruct (scan force sc tc1 k).
Qed.

(** [sync], for a registry whose objects all have their component. *)
Lemma sync_run force onlyLocal w :
  snapshots_present (this w) →
  sync force onlyLocal w =
    let '(records, components) :=
      scan force (scene w) (transferComponents (this w))
           (sync_scope onlyLocal (this w)) in
    (Normal tt,
     {| this := set_transferComponents (λ _, components) (this w);
        scene := scene w;
        log := log w ++ sync_broadcast (this w) records |}).
Proof.
  intros Hsnap.
  assert (Hlocal : ∀ u, u ∈ localObjects (this w) →
                        is_Some (transferComponents (this w) !! u)).
  { intros u Hu. destruct (Hsnap u) as (c & -> & _); [|by eexists].
    apply elem_of_app. by left. }
  assert (Hshared : ∀ u, u ∈ sharedObjects (this w) →
                         is_Some (transferComponents (this w) !! u)).
  { intros u Hu. destruct (Hsnap u) as (c & -> & _); [|by eexists].
    apply elem_of_app. by right. }
  unfold sync, sync_scope. rewrite bind_run. unfold gets at 1.
  rewrite bind_run, scan_app.
  pose proof (sync_scan_run force w (localObjects (this w))
                (transferComponents (this w)) Hlocal) as Hscan.
  rewrite with_components_id in Hscan. rewrite Hscan. clear Hscan.
  destruct (scan force (scene w) (transferComponents (this w))
              (localObjects (this w))) as [r1 tc1] eqn:E1.
  cbn [fst snd]. rewrite bind_run.
  assert (Hrest :
    (if onlyLocal then mret [] else sync_scan force (sharedObjects (this w)))
      (with_components w tc1) =
    (Normal (scan force (scene w) tc1
               (if onlyLocal then [] else sharedObjects (this w))).1,
     with_components w (scan force (scene w) tc1
               (if onlyLocal then [] else sharedObjects (this w))).2)).
  { destruct onlyLocal; [done|]. apply sync_scan_run.
    intros u Hu. replace tc1 with (scan force (scene w)
      (transferComponents (this w)) (localObjects (this w))).2 by by rewrite E1.
    apply scan_is_Some. by apply Hshared. }
  rewrite Hrest.
  destruct (scan force (scene w) tc1 _) as [r2 tc2]. cbn [fst snd].
  unfold sync_broadcast.
  destruct (r1 ++ r2) as [|r l] eqn:El.
  - rewrite decide_False by (simpl; lia). js_run.
    unfold with_components. by rewrite app_nil_r.
  - rewrite decide_True by (simpl; lia). by js_run.
Qed.

(** A forced scan yields, for each object in turn, its component
    serialized from the live state. *)
Lemma scan_forced sc l : ∀ tc,
  (∀ u, u ∈ l → is_Some (tc !! u)) →
  Forall2 (λ u record, ∃ c, tc !! u = Some c ∧ record = serialized c (sc u))
          l (scan true sc tc l).1.
Proof.
  induction l as [|x l IH]; intros tc Hall; simpl; [constructor|].
  destruct (Hall x ltac:(left)) as [c Hc]. rewrite Hc.
  specialize (IH (<[x := serialized c (sc x)]> tc)).
  destruct (scan true sc _ l) as [records tc']. cbn [fst] in *.
  constructor; [by exists c|].
  eapply Forall2_impl; [apply IH|].
  - intros u Hu. destruct (decide (x = u)) as [->|Hne].
    + rewrite lookup_insert_eq. by eexists.
    + rewrite lookup_insert_ne by done. apply Hall. by right.
  - intros u record (c' & Hc' & ->). destruct (decide (x = u)) as [->|Hne].
    + rewrite lookup_insert_eq in Hc'. injection Hc' as <-.
      exists c. by rewrite serialized_again.
    + rewrite lookup_insert_ne in Hc' by done. by exists c'.
Qed.

(** A scan that is not forced passes over the objects that did not
    change. *)
Lemma scan_unchanged sc l : ∀ tc,
  (∀ u, u ∈ l → ∃ c, tc !! u = Some c ∧ changed c (sc u) = false) →
  scan false sc tc l = ([], tc).
Proof.
  induction l as [|x l IH]; intros tc Hall; simpl; [done|].
  destruct (Hall x ltac:(left)) as (c & -> & ->). cbn [orb].
  apply IH. intros u Hu. apply Hall. by right.
Qed.

Lemma scan_skips sc (u0 : string) (c0 : TransferComponent) l : ∀ tc,
  tc !! u0 = Some c0 → changed c0 (sc u0) = false →
  (∀ u, u ∈ l → ∃ c, tc !! u = Some c ∧ tc_id c = u) →
  u0 ∉ map tc_id (scan false sc tc l).1.
Proof.
  induction l as [|x l IH]; intros tc H0 Hsame Hall; simpl.
  - apply not_elem_of_nil.
  - destruct (Hall x ltac:(left)) as (c & Hc & Hid). rewrite Hc. cbn [orb].
    destruct (changed c (sc x)) eqn:Hch.
    + assert (Hne : x ≠ u0) by (intros ->; congruence).
      specialize (IH (<[x := serialized c (sc x)]> tc)).
      destruct (scan false sc _ l) as [records tc']. cbn [fst map] in *.
      apply not_elem_of_cons.
      split; [unfold serialized; cbn [tc_id]; by rewrite Hid|].
      apply IH; [by rewrite lookup_insert_ne|done|].
      intros u Hu. destruct (decide (x = u)) as [->|Hne'].
      * rewrite lookup_insert_eq. by eexists.
      * rewrite lookup_insert_ne by done. apply Hall. by right.
    + apply IH; [done|done|]. intros u Hu. apply Hall. by right.
Qed.

(** With each object scanned once, a single changed object gives a single
    record: its component serialized from the live state. *)
Lemma scan_single sc (u0 : string) (c0 : TransferComponent) l : ∀ tc,
  NoDup l → u0 ∈ l →
  tc !! u0 = Some c0 → changed c0 (sc u0) = true →
  (∀ u, u ∈ l → u ≠ u0 → ∃ c, tc !! u = Some c ∧ changed c (sc u) = false) →
  (scan false sc tc l).1 = [serialized c0 (sc u0)].
Proof.
  induction l as [|x l IH]; intros tc Hnd Hin H0 Hch Hall; simpl.
  - by apply elem_of_nil in Hin.
  - apply NoDup_cons in Hnd as [Hx Hnd].
    destruct (decide (x = u0)) as [->|Hne].
    + rewrite H0, Hch. cbn [orb]. rewrite scan_unchanged; [done|].
      intros u Hu. assert (u ≠ u0) by (intros ->; done).
      rewrite lookup_insert_ne by done. apply Hall; [by right|done].
    + destruct (Hall x ltac:(left) Hne) as (c & -> & ->). cbn [orb].
      apply IH; try done.
      * apply elem_of_cons in Hin as [->|Hin]; done.
      * intros u Hu. apply Hall. by right.
Qed.

End Scan.

(** ** Catalog exchange on connect *)

Lemma onClientConnect_run id fromRemote w :
  snapshots_present (this w) →
  onClientConnect id fromRemote w =
    (Normal tt,
     {| this := set_transferComponents
                  (λ _, (scan true (scene w) (transferComponents (this w))
                           (connect_sync_scope fromRemote (this w))).2)
                  (this w);
        scene := scene w;
        log := log w ++
          map (λ f, OnConnect f id) (onConnects (this w)) ++
          [ClientSend id
             {| msg_id := rs_id (this w);
                msg_did := Some id;
                msg_list := AddList (map (λ u,
                  {| add_id := u; add_info := localObjectInfos (this w) !! u |})
                  (localObjects (this w))) |}] ++
          sync_broadcast (this w)
            (scan true (scene w) (transferComponents (this w))
               (connect_sync_scope fromRemote (this w))).1 |}).
Proof.
  intros Hsnap.
  unfold onClientConnect, invokeConnectListeners, sendAddObjectsRequest.
  rewrite !bind_run. unfold gets at 1. rewrite forEach_emit.
  rewrite !bind_run. unfold gets at 1. unfold emit at 1.
  cbn [this scene log buildObjectsAdditionComponent msg_id msg_list].
  rewrite sync_run by done. cbn [this scene log].
  assert (Hscope : sync_scope (negb fromRemote) (this w)
                     = connect_sync_scope fromRemote (this w))
    by by destruct fromRemote.
  rewrite Hscope.
  destruct (scan true (scene w) (transferComponents (this w)) _)
    as [records tc'].
  cbn [fst snd]. by rewrite <- !app_assoc.
Qed.

Lemma catalog_ids (self : RemoteSync) :
  map add_id (map (λ u, {| add_id := u;
                           add_info := localObjectInfos self !! u |})
                  (localObjects self))
    = localObjects self.
Proof. rewrite map_map. simpl. apply map_id. Qed.

(** C1, as the code has it.  The registry is coherent -- the sequence and
    the table of local objects list the same objects, each once in the
    sequence -- and every object in the local or the shared sequence has
    its transfer component.  On a new connection to peer [id] the
    'connect' listeners are told, then [id] is sent one ADD message that
    lists every registered local object once, in the order of the
    sequence, with its info, then a forced sync is done: one SYNC
    broadcast with a record for each object in scope, serialized from its
    live state, and no broadcast when nothing is in scope.  The scope is
    the local objects, and also the shared ones when the remote peer asked
    for the connection ([fromRemote]), that is when this side is not the
    initiator. *)
Theorem onClientConnect_catalog_exchange
    (w : World) (id : string) (fromRemote : bool) :
  local_registry_coherent (this w) →
  snapshots_present (this w) →
  ∃ w' adds records,
    onClientConnect id fromRemote w = (Normal tt, w') ∧
    map add_id adds = localObjects (this w) ∧
    NoDup (map add_id adds) ∧
    (∀ u, u ∈ map add_id adds ↔ is_Some (localObjectTable (this w) !! u)) ∧
    (∀ record, record ∈ adds →
               add_info record = localObjectInfos (this w) !! add_id record) ∧
    Forall2 (λ u record, ∃ c, transferComponents (this w) !! u = Some c ∧
                              record = serialized c (scene w u))
            (localObjects (this w) ++
             (if fromRemote then sharedObjects (this w) else []))
            records ∧
    emitted w w' =
      map (λ f, OnConnect f id) (onConnects (this w)) ++
      [ClientSend id {| msg_id := rs_id (this w);
                        msg_did := Some id;
                        msg_list := AddList adds |}] ++
      match records with
      | [] => []
      | _ => [ClientBroadcast {| msg_id := rs_id (this w);
                                 msg_did := None;
                                 msg_list := SyncList records |}]
      end.
Proof.
  intros (Hnd & Htable & _) Hsnap. rewrite onClientConnect_run by done.
  eexists. eexists. eexists. split; [reflexivity|].
  rewrite catalog_ids. split_and!; [done|done|done| | |].
  - intros record (u & -> & _)%list_elem_of_fmap. reflexivity.
  - apply scan_forced. intros u Hu.
    destruct (Hsnap u) as (c & -> & _); [|by eexists].
    unfold connect_sync_scope in Hu. apply elem_of_app.
    apply elem_of_app in Hu as [?|Hu]; [by left|].
    destruct fromRemote; [by right|by apply elem_of_nil in Hu].
  - by apply emitted_app.
Qed.

Lemma registered_snapshots_present : snapshots_present (this Example.registered).
Proof.
  intros u Hu.
  change (u ∈ ["a"; "o"; "b"; "s"]) in Hu.
  repeat (apply elem_of_cons in Hu as [->|Hu]);
    [eexists; split; vm_compute; reflexivity..|].
  by apply elem_of_nil in Hu.
Qed.

Lemma registered_coherent : local_registry_coherent (this Example.registered).
Proof.
  change (localObjects (this Example.registered)) with ["a"; "o"; "b"].
  split_and!.
  - by_compute.
  - intros u. split.
    + intros Hu. repeat (apply elem_of_cons in Hu as [->|Hu]);
        [by_compute..|]. by apply elem_of_nil in Hu.
    + intros [o Hu].
      change (localObjectTable (this Example.registered))
        with (<["a" := "a"]> (<["o" := "o"]> (<["b" := "b"]>
                (∅ : gmap string string)))) in Hu.
      destruct (decide (u = "a")) as [->|?]; [by left|].
      destruct (decide (u = "o")) as [->|?]; [right; by left|].
      destruct (decide (u = "b")) as [->|?]; [right; right; by left|].
      by rewrite !lookup_insert_ne, lookup_empty in Hu.
  - intros u Hu. repeat (apply elem_of_cons in Hu as [->|Hu]);
      [by_compute..|]. by apply elem_of_nil in Hu.
Qed.

Lemma onClientConnect_catalog_exchange_witness :
  local_registry_coherent (this Example.registered) ∧
  snapshots_present (this Example.registered) ∧
  ∃ w' records,
    onClientConnect "Q" true Example.registered = (Normal tt, w') ∧
    map tc_id records = ["a"; "o"; "b"; "s"] ∧
    emitted Example.registered w' =
      [OnConnect 0 "Q";
       ClientSend "Q"
         {| msg_id := "me"; msg_did := Some "Q";
            msg_list := AddList
              [ {| add_id := "a"; add_info := Some (InfoObject []) |};
                {| add_id := "o";
                   add_info := Some (InfoObject [("type", "mesh")]) |};
                {| add_id := "b"; add_info := Some (InfoObject []) |} ] |};
       ClientBroadcast {| msg_id := "me"; msg_did := None;
                          msg_list := SyncList records |}].
Proof.
  split; [exact registered_coherent|].
  split; [exact registered_snapshots_present|].
  destruct (onClientConnect_catalog_exchange Example.registered "Q" true
              registered_coherent registered_snapshots_present)
    as (w' & adds & records & Hrun & _ & _ & _ & _ & _ & _).
  exists w', (sync_records (emitted Example.registered w')).
  split; [done|].
  assert (Hw' : w' = (onClientConnect "Q" true Example.registered).2)
    by by rewrite Hrun.
  rewrite Hw'. split; vm_compute; reflexivity.
Defined.

Lemma sync_records_connect self id fs component records :
  sync_records (map (λ f, OnConnect f id) fs ++
                [ClientSend id component] ++ sync_broadcast self records)
    = records.
Proof.
  induction fs as [|f fs IH]; [|done].
  destruct records; [done|]. simpl. by rewrite app_nil_r.
Qed.

(** C1, as stated: the shared objects would be covered when this side is
    the initiator.  With three local objects and one shared object, the
    initiator's forced sync carries three records, not four. *)
Lemma catalog_exchange_not_initiator : ¬ catalog_exchange initiator_sync_scope.
Proof.
  intros Hclaim.
  destruct (Hclaim Example.registered "Q" false registered_coherent
              registered_snapshots_present)
    as (w' & adds & records & Hrun & _ & _ & _ & _ & Hrecords & Hemitted).
  assert (Hscope : initiator_sync_scope false (this Example.registered)
                     = ["a"; "o"; "b"; "s"]) by (vm_compute; reflexivity).
  rewrite Hscope in Hrecords. apply Forall2_length in Hrecords.
  assert (Hactual :
    length (sync_records
              (emitted Example.registered
                 (onClientConnect "Q" false Example.registered).2)) = 3)
    by (vm_compute; reflexivity).
  rewrite Hrun in Hactual. cbn [snd] in Hactual.
  rewrite Hemitted, sync_records_connect in Hactual.
  simpl in Hrecords. lia.
Qed.

(** On a registry that [removeLocalObject] has been applied to, the
    exchange breaks off: the ADD message lists the removed object alone,
    and the forced sync throws at it, so that no SYNC message is sent. *)
Lemma onClientConnect_after_removal :
  ∃ w0 w',
    removeLocalObject "o" Example.registered = (Normal tt, w0) ∧
    onClientConnect "Q" true w0 = (Throw no_component, w') ∧
    emitted w0 w' =
      [OnConnect 0 "Q";
       ClientSend "Q"
         {| msg_id := "me"; msg_did := Some "Q";
            msg_list := AddList [ {| add_id := "o"; add_info := None |} ] |}].
Proof.
  exists (removeLocalObject "o" Example.registered).2.
  exists (onClientConnect "Q" true
            (removeLocalObject "o" Example.registered).2).2.
  split_and!; vm_compute; reflexivity.
Qed.

(** ** Delta detection *)

Section Delta.

Lemma channels_unchanged_changed c o :
  channels_unchanged c o → changed c o = false.
Proof.
  intros [Hmatrix Hmorph]. unfold changed.
  rewrite Forall2_same_float32_differs by done.
  destruct (morphTargetInfluences o) as [array2|]; [|done].
  by rewrite Forall2_same_float32_differs.
Qed.

Lemma channel_changed_changed c o :
  channel_changed c o → changed c o = true.
Proof.
  unfold changed.
  intros [(i & a & b & Ha & Hb & Hne)|(i & a & b & array2 & -> & Ha & Hb & Hne)].
  - by rewrite (differs_true _ _ _ _ _ Ha Hb Hne).
  - rewrite (differs_true _ _ _ _ _ Ha Hb Hne). by destruct (differs _ _).
Qed.

Lemma snapshots_present_scope onlyLocal self u :
  snapshots_present self → u ∈ sync_scope onlyLocal self →
  ∃ c, transferComponents self !! u = Some c ∧ tc_id c = u.
Proof.
  intros Hsnap Hu. apply Hsnap. unfold sync_scope in Hu.
  apply elem_of_app. apply elem_of_app in Hu as [?|Hu]; [by left|].
  destruct onlyLocal; [by apply elem_of_nil in Hu|by right].
Qed.

Lemma sync_records_broadcast self records :
  sync_records (sync_broadcast self records) = records.
Proof. destruct records; [done|]. simpl. by rewrite app_nil_r. Qed.

(** A sync that is not forced returns normally; what it logs is the SYNC
    broadcast of the records of its scan. *)
Lemma sync_false_run onlyLocal w :
  snapshots_present (this w) →
  ∃ w',
    sync false onlyLocal w = (Normal tt, w') ∧
    emitted w w' =
      sync_broadcast (this w)
        (scan false (scene w) (transferComponents (this w))
              (sync_scope onlyLocal (this w))).1.
Proof.
  intros Hsnap. rewrite sync_run by done.
  destruct (scan false (scene w) _ _) as [records tc'].
  eexists. split; [reflexivity|]. by apply emitted_app.
Qed.

(** An object whose channels did not change gets no record. *)
Lemma sync_no_record onlyLocal w u c :
  snapshots_present (this w) →
  transferComponents (this w) !! u = Some c →
  changed c (scene w u) = false →
  ∃ w',
    sync false onlyLocal w = (Normal tt, w') ∧
    u ∉ map tc_id (sync_records (emitted w w')).
Proof.
  intros Hsnap Hc Hsame.
  destruct (sync_false_run onlyLocal w Hsnap) as (w' & Hrun & Hemitted).
  exists w'. split; [done|].
  rewrite Hemitted, sync_records_broadcast.
  eapply scan_skips; [done..|].
  intros u' Hu'. by eapply snapshots_present_scope.
Qed.

(** A component that is what [serialize] would write now, and holds no
    NaN, does not count as changed. *)
Lemma differs_up_to_date array array2 :
  array = copy_float32 array array2 → nan_free array →
  differs array array2 = false.
Proof.
  intros Heq Hnan. apply differs_false. intros i Hi.
  destruct (lookup_lt_is_Some_2 array i Hi) as [v Hv].
  assert (Hv' : elem_f32 array2 i = v).
  { rewrite Heq, copy_float32_lookup in Hv by done. by injection Hv. }
  assert (Hnv : is_nan v = false).
  { unfold nan_free in Hnan. rewrite Forall_lookup in Hnan. by eapply Hnan. }
  unfold elem_f32 at 1. rewrite Hv. simpl. rewrite Hv'.
  unfold elem_f32 in Hv'. destruct (array2 !! i) as [x|]; simpl in Hv'.
  - rewrite <- Hv', ensureFloat32_idempotent. apply SFeqb_refl.
    by rewrite Hv'.
  - by rewrite <- Hv' in Hnv.
Qed.

Lemma changed_up_to_date c o :
  c = serialized c o →
  nan_free (tc_matrix c) → nan_free (tc_morphTargetInfluences c) →
  changed c o = false.
Proof.
  intros Heq Hn1 Hn2. unfold changed.
  rewrite differs_up_to_date; [|by rewrite Heq at 1|done].
  destruct (morphTargetInfluences o) as [array2|] eqn:Hmorph; [|done].
  rewrite differs_up_to_date; [done| |done].
  rewrite Heq at 1. unfold serialized. cbn [tc_morphTargetInfluences].
  by rewrite Hmorph.
Qed.

End Delta.

(** X25. When every object in the local or the shared sequence has its
    transfer component, a sync that is not forced returns normally and
    logs at most one event, the broadcast of its records, and nothing when
    there is no record.  An object whose channels all compare equal, as
    Float32, to those kept in its transfer component has no record; this
    is so in particular when the component is what serializing the object
    now would write and holds no NaN.  When no object occurs twice in the
    scanned sequences and exactly one object in them has a channel that
    differs (as a NaN channel always does), the others comparing equal,
    the records are that object's component alone, serialized from its
    live state. *)
Theorem sync_sends_changed_objects (w : World) (onlyLocal : bool) :
  snapshots_present (this w) →
  ∃ w' records,
    sync false onlyLocal w = (Normal tt, w') ∧
    emitted w w' =
      match records with
      | [] => []
      | _ => [ClientBroadcast {| msg_id := rs_id (this w);
                                 msg_did := None;
                                 msg_list := SyncList records |}]
      end ∧
    (∀ u c,
       transferComponents (this w) !! u = Some c →
       channels_unchanged c (scene w u) →
       u ∉ map tc_id records) ∧
    (∀ u c,
       transferComponents (this w) !! u = Some c →
       c = serialized c (scene w u) →
       nan_free (tc_matrix c) → nan_free (tc_morphTargetInfluences c) →
       u ∉ map tc_id records) ∧
    (∀ u c,
       NoDup (sync_scope onlyLocal (this w)) →
       u ∈ sync_scope onlyLocal (this w) →
       transferComponents (this w) !! u = Some c →
       channel_changed c (scene w u) →
       (∀ u' c', u' ∈ sync_scope onlyLocal (this w) → u' ≠ u →
                 transferComponents (this w) !! u' = Some c' →
                 channels_unchanged c' (scene w u')) →
       records = [serialized c (scene w u)]).
Proof.
  intros Hsnap.
  destruct (sync_false_run onlyLocal w Hsnap) as (w' & Hrun & Hemitted).
  assert (Hskip : ∀ u c,
            transferComponents (this w) !! u = Some c →
            changed c (scene w u) = false →
            u ∉ map tc_id (scan false (scene w) (transferComponents (this w))
                             (sync_scope onlyLocal (this w))).1).
  { intros u c Hc Hsame. eapply scan_skips; [done..|].
    intros u' Hu'. by eapply snapshots_present_scope. }
  exists w', (scan false (scene w) (transferComponents (this w))
                   (sync_scope onlyLocal (this w))).1.
  split_and!; [done|done| | |].
  - intros u c Hc Hsame. eapply Hskip; [done|].
    by apply channels_unchanged_changed.
  - intros u c Hc Heq Hn1 Hn2. eapply Hskip; [done|].
    by apply changed_up_to_date.
  - intros u c Hnd Hu Hc Hch Hothers.
    apply scan_single; [done..|by apply channel_changed_changed|].
    intros u' Hu' Hne.
    destruct (snapshots_present_scope _ _ _ Hsnap Hu') as (c' & Hc' & _).
    exists c'. split; [done|].
    apply channels_unchanged_changed. by eapply Hothers.
Qed.

Lemma Forall2_same_float32_check array array2 :
  length array = length array2 → differs array array2 = false →
  Forall2 same_float32 array array2.
Proof.
  intros Hlen Hsame. rewrite differs_false in Hsame.
  apply Forall2_same_length_lookup. split; [done|].
  intros i a b Ha Hb. specialize (Hsame i (lookup_lt_Some _ _ _ Ha)).
  unfold elem_f32 in Hsame. by rewrite Ha, Hb in Hsame.
Qed.

Lemma channels_unchanged_check c o :
  length (tc_matrix c) = length (matrix_elements o) →
  length (tc_morphTargetInfluences c)
    = length (default [] (morphTargetInfluences o)) →
  changed c o = false →
  channels_unchanged c o.
Proof.
  unfold changed, channels_unchanged. intros Hl1 Hl2 Hsame.
  destruct (differs (tc_matrix c) (matrix_elements o)) eqn:E1; [done|].
  split; [by apply Forall2_same_float32_check|].
  destruct (morphTargetInfluences o) as [array2|]; simpl in *.
  - destruct (differs _ array2) eqn:E2; [done|].
    by apply Forall2_same_float32_check.
  - destruct (tc_morphTargetInfluences c); [constructor|done].
Qed.

Lemma sync_sends_changed_objects_witness :
  snapshots_present (this Example.a_moved) ∧
  ∃ w' records,
    sync false false Example.a_moved = (Normal tt, w') ∧
    emitted Example.a_moved w' =
      [ClientBroadcast {| msg_id := "me"; msg_did := None;
                          msg_list := SyncList records |}] ∧
    ("o" ∉ map tc_id records) ∧
    ("b" ∉ map tc_id records) ∧
    map tc_id records = ["a"].
Proof.
  split; [exact registered_snapshots_present|].
  destruct (sync_sends_changed_objects Example.a_moved false
              registered_snapshots_present)
    as (w' & records & Hrun & Hemitted & Hsame & Hfresh & Hsingle).
  assert (Hscope : sync_scope false (this Example.a_moved)
                     = ["a"; "o"; "b"; "s"]) by (vm_compute; reflexivity).
  assert (Hunchanged : ∀ u c,
            u ∈ ["o"; "b"; "s"] →
            transferComponents (this Example.a_moved) !! u = Some c →
            channels_unchanged c (scene Example.a_moved u)).
  { intros u c Hu Hc.
    repeat (apply elem_of_cons in Hu as [->|Hu]);
      [vm_compute in Hc; injection Hc as <-;
       apply channels_unchanged_check; vm_compute; reflexivity..|].
    by apply elem_of_nil in Hu. }
  destruct (transferComponents (this Example.a_moved) !! "a") as [ca|] eqn:Ha;
    [|vm_compute in Ha; discriminate].
  assert (Hrecords : records = [serialized ca (scene Example.a_moved "a")]).
  { apply (Hsingle "a" ca).
    - rewrite Hscope. repeat (apply NoDup_cons; split;
        [rewrite ?elem_of_cons, elem_of_nil; intros H; by repeat destruct H as [H|H]|]).
      apply NoDup_nil_2.
    - rewrite Hscope. by left.
    - done.
    - vm_compute in Ha. injection Ha as <-. left.
      exists 12, (S754_zero false), (num 5 0).
      split_and!; [vm_compute; reflexivity..|].
      unfold same_float32. vm_compute. discriminate.
    - intros u' c' Hu' Hne Hc'. apply Hunchanged; [|done].
      rewrite Hscope in Hu'. apply elem_of_cons in Hu' as [->|Hu']; done. }
  exists w', records. split_and!.
  - done.
  - rewrite Hemitted, Hrecords. reflexivity.
  - destruct (transferComponents (this Example.a_moved) !! "o") as [co|] eqn:Ho;
      [|vm_compute in Ho; discriminate].
    apply (Hsame "o" co); [done|]. apply Hunchanged; [|done].
    by left.
  - destruct (transferComponents (this Example.a_moved) !! "b") as [cb|] eqn:Hb;
      [|vm_compute in Hb; discriminate].
    apply (Hfresh "b" cb); [done|..]; vm_compute in Hb; injection Hb as <-.
    + by vm_compute.
    + repeat (constructor; [reflexivity|]). constructor.
    + constructor.
  - rewrite Hrecords. vm_compute in Ha. injection Ha as <-. reflexivity.
Defined.

(** C5. The local object "n", whose matrix holds a NaN, has not changed
    since it was registered: its transfer component is what serializing it
    now would write.  A sync that is not forced sends a record for it all
    the same, and so does the next one, the scene being what it was:
    [checkUpdate] compares with [!==], and NaN differs from itself.  So
    the object that did not change is not left out of the records. *)
Theorem sync_resends_NaN_object :
  ∃ c w1 w2,
    transferComponents (this Example.nan_registered) !! "n" = Some c ∧
    c = serialized c (scene Example.nan_registered "n") ∧
    sync false false Example.nan_registered = (Normal tt, w1) ∧
    map tc_id (sync_records (emitted Example.nan_registered w1)) = ["n"] ∧
    scene w1 = scene Example.nan_registered ∧
    transferComponents (this w1) !! "n" = Some c ∧
    sync false false w1 = (Normal tt, w2) ∧
    map tc_id (sync_records (emitted w1 w2)) = ["n"] ∧
    ¬ no_record_when_unchanged Example.nan_registered "n".
Proof.
  destruct (transferComponents (this Example.nan_registered) !! "n")
    as [c|] eqn:Hc; [|vm_compute in Hc; discriminate].
  assert (Hfresh : c = serialized c (scene Example.nan_registered "n")).
  { vm_compute in Hc. injection Hc as <-. by vm_compute. }
  assert (Hids :
    map tc_id (sync_records
      (emitted Example.nan_registered
         (sync false false Example.nan_registered).2)) = ["n"])
    by (vm_compute; reflexivity).
  exists c, (sync false false Example.nan_registered).2,
    (sync false false (sync false false Example.nan_registered).2).2.
  split_and!; [done|done|by vm_compute|done|done| |by vm_compute
              |by vm_compute|].
  - rewrite <- Hc. vm_compute. reflexivity.
  - intros Hclaim. destruct (Hclaim c Hc Hfresh) as (w' & Hrun & Hnot).
    apply Hnot.
    assert (Hw' : w' = (sync false false Example.nan_registered).2)
      by by rewrite Hrun.
    rewrite Hw', Hids. by left.
Qed.

(** ** Echo suppression *)

Section Echo.

Lemma length_Matrix4_fromArray array : length (Matrix4_fromArray array) = 16.
Proof. reflexivity. Qed.

Lemma nan_free_Matrix4_fromArray array :
  16 ≤ length array → nan_free array → nan_free (Matrix4_fromArray array).
Proof.
  intros Hlen Hnan. unfold nan_free, Matrix4_fromArray.
  apply Forall_forall. intros v Hv.
  apply list_elem_of_fmap in Hv as (i & -> & Hi).
  apply elem_of_seq in Hi.
  destruct (lookup_lt_is_Some_2 array i ltac:(lia)) as [x Hx].
  rewrite Hx. simpl. unfold nan_free in Hnan. rewrite Forall_lookup in Hnan.
  by eapply Hnan.
Qed.

Lemma nan_free_copy_into array2 array :
  nan_free array2 → nan_free array → nan_free (copy_into array2 array).
Proof.
  intros H2 H1. rewrite copy_into_app. apply Forall_app. split; [done|].
  by apply Forall_drop.
Qed.

Lemma length_copy_into array2 array :
  length array2 ≤ length (copy_into array2 array).
Proof. rewrite copy_into_app, length_app, length_drop. lia. Qed.

(** Right after serializing, the object does not count as changed,
    provided its live channels are not NaN and cover the channels of the
    component. *)
Lemma changed_serialized c o :
  length (tc_matrix c) ≤ length (matrix_elements o) →
  nan_free (matrix_elements o) →
  (∀ array2, morphTargetInfluences o = Some array2 →
             length (tc_morphTargetInfluences c) ≤ length array2 ∧
             nan_free array2) →
  changed (serialized c o) o = false.
Proof.
  intros Hlen Hnan Hmorph. unfold changed, serialized.
  cbn [tc_matrix tc_morphTargetInfluences].
  rewrite differs_copy_float32 by done.
  destruct (morphTargetInfluences o) as [array2|]; [|done].
  destruct (Hmorph array2 eq_refl) as [Hlen2 Hnan2].
  by rewrite differs_copy_float32.
Qed.

(** Handling one record addressed to a shared object: the object is
    overwritten from the record, then its component is serialized. *)
Lemma handleSyncRequest_shared_run w destId record sid object c :
  tc_sid record = Some sid →
  sharedObjectTable (this w) !! sid = Some object →
  transferComponents (this w) !! object = Some c →
  handleSyncRequest destId [record] w =
    (Normal tt,
     with_components (deserialized w object record)
       (<[object := serialized c (scene (deserialized w object record) object)]>
          (transferComponents (this w)))).
Proof.
  intros Hsid Hshared Hc. unfold handleSyncRequest.
  rewrite bind_run. unfold gets. cbn [forEach].
  rewrite bind_run. unfold handleSyncRecord.
  rewrite bind_run. unfold gets. rewrite Hsid, (js_get_Some _ _ _ Hshared).
  rewrite bind_run, deserialize_run, bind_run, serialize_run.
  cbn [this deserialized]. by rewrite Hc.
Qed.

Lemma snapshots_present_refreshed self object c c' :
  snapshots_present self →
  transferComponents self !! object = Some c → tc_id c' = object →
  snapshots_present (set_transferComponents
                       (λ _, <[object := c']> (transferComponents self)) self).
Proof.
  intros Hsnap Hc Hid u Hu.
  cbn [localObjects sharedObjects transferComponents set_transferComponents]
    in *.
  destruct (decide (object = u)) as [<-|Hne].
  - rewrite lookup_insert_eq. by eexists.
  - rewrite lookup_insert_ne by done. by apply Hsnap.
Qed.

End Echo.

(** X26. Every object in the local or the shared sequence has its
    transfer component.  A SYNC record is addressed by shared id to a
    registered shared object whose transfer component carries the
    object's uuid and at most sixteen matrix channels; the record has at
    least sixteen matrix channels, none of which is NaN; and, when the
    object has morph target influences, they are at least as many as the
    component keeps, and there is no NaN among them nor among the
    influences of the record.  Then, after the record is handled, a sync
    that is not forced returns normally and sends no record for the
    object. *)
Theorem handleSyncRequest_suppresses_echo
    (w : World) (destId sid object : string)
    (c record : TransferComponent) (onlyLocal : bool) :
  snapshots_present (this w) →
  tc_sid record = Some sid →
  sharedObjectTable (this w) !! sid = Some object →
  transferComponents (this w) !! object = Some c →
  tc_id c = object →
  length (tc_matrix c) ≤ 16 →
  16 ≤ length (tc_matrix record) →
  nan_free (tc_matrix record) →
  (∀ array2, morphTargetInfluences (scene w object) = Some array2 →
             length (tc_morphTargetInfluences c) ≤ length array2 ∧
             nan_free array2 ∧
             nan_free (tc_morphTargetInfluences record)) →
  echo_suppressed w destId record object onlyLocal.
Proof.
  intros Hsnap Hsid Hshared Hc Hid Hlen Hlen' Hnan Hmorph.
  unfold echo_suppressed.
  rewrite (handleSyncRequest_shared_run w destId record sid object c) by done.
  set (w1 := with_components _ _).
  destruct (sync_no_record onlyLocal w1 object
              (serialized c (scene w1 object))) as (w2 & Hrun & Hnot).
  - subst w1. cbn [this with_components deserialized].
    by apply (snapshots_present_refreshed _ _ c).
  - subst w1.
    cbn [this with_components deserialized transferComponents
         set_transferComponents scene].
    by rewrite lookup_insert_eq.
  - apply changed_serialized; subst w1;
      cbn [scene with_components deserialized];
      rewrite fn_lookup_insert; cbn [matrix_elements morphTargetInfluences].
    + by rewrite length_Matrix4_fromArray.
    + by apply nan_free_Matrix4_fromArray.
    + intros array2' Hmorph'.
      destruct (morphTargetInfluences (scene w object)) as [array2|];
        [|done].
      destruct (Hmorph array2 eq_refl) as (Hl & Hn2 & Hnr).
      destruct (decide (0 < length (tc_morphTargetInfluences record)));
        injection Hmorph' as <-; [|done].
      split; [|by apply nan_free_copy_into].
      pose proof (length_copy_into array2 (tc_morphTargetInfluences record)).
      lia.
  - by exists w1, w2.
Qed.

Lemma handleSyncRequest_suppresses_echo_witness :
  snapshots_present (this Example.registered) ∧
  sharedObjectTable (this Example.registered) !! "S" = Some "s" ∧
  nan_free (tc_matrix Example.moved_record) ∧
  echo_suppressed Example.registered "P" Example.moved_record "s" false.
Proof.
  assert (Hshared : sharedObjectTable (this Example.registered) !! "S"
                      = Some "s") by (vm_compute; reflexivity).
  assert (Hnan : nan_free (tc_matrix Example.moved_record)).
  { repeat (constructor; [reflexivity|]). constructor. }
  destruct (transferComponents (this Example.registered) !! "s") as [c|] eqn:Hc;
    [|vm_compute in Hc; discriminate].
  split_and!; [exact registered_snapshots_present|exact Hshared|exact Hnan|].
  apply (handleSyncRequest_suppresses_echo
           Example.registered "P" "S" "s" c Example.moved_record false
           registered_snapshots_present eq_refl Hshared Hc).
  - vm_compute in Hc. by injection Hc as <-.
  - vm_compute in Hc. injection Hc as <-. simpl. lia.
  - simpl. lia.
  - exact Hnan.
  - intros array2 Harray2. vm_compute in Harray2. injection Harray2 as <-.
    vm_compute in Hc. injection Hc as <-.
    split_and!; [simpl; lia| |constructor].
    repeat (constructor; [reflexivity|]). constructor.
Defined.

(** C6. A SYNC record with a NaN in its first matrix channel, addressed
    to the shared id "S" of the shared object "s": the record is applied
    and the transfer component of "s" is serialized again, to the state
    just applied; the application changes nothing; and the sync that
    follows, not forced, sends a record for "s" all the same, because the
    NaN that the component now keeps differs from the NaN of the object.
    The applied change is echoed. *)
Theorem echo_of_NaN_record :
  ∃ c w1 w2,
    tc_sid Example.nan_record = Some "S" ∧
    sharedObjectTable (this Example.registered) !! "S" = Some "s" ∧
    length (tc_matrix Example.nan_record) = 16%nat ∧
    handleSyncRequest "P" [Example.nan_record] Example.registered
      = (Normal tt, w1) ∧
    matrix_elements (scene w1 "s") = tc_matrix Example.nan_record ∧
    transferComponents (this w1) !! "s" = Some c ∧
    c = serialized c (scene w1 "s") ∧
    sync false false w1 = (Normal tt, w2) ∧
    map tc_id (sync_records (emitted w1 w2)) = ["s"] ∧
    ¬ echo_suppressed Example.registered "P" Example.nan_record "s" false.
Proof.
  assert (Hids :
    map tc_id (sync_records
      (emitted
         (handleSyncRequest "P" [Example.nan_record] Example.registered).2
         (sync false false
            (handleSyncRequest "P" [Example.nan_record]
               Example.registered).2).2))
    = ["s"]) by (vm_compute; reflexivity).
  destruct (transferComponents
              (this (handleSyncRequest "P" [Example.nan_record]
                       Example.registered).2) !! "s") as [c|] eqn:Hc;
    [|vm_compute in Hc; discriminate].
  exists c, (handleSyncRequest "P" [Example.nan_record] Example.registered).2,
    (sync false false
       (handleSyncRequest "P" [Example.nan_record] Example.registered).2).2.
  split_and!; [reflexivity|by vm_compute|reflexivity|by vm_compute
              |by vm_compute|done| |by vm_compute|done|].
  - vm_compute in Hc. injection Hc as <-. by vm_compute.
  - intros (w1 & w2 & Hrun1 & Hrun2 & Hnot). apply Hnot.
    assert (Hw1 : w1 = (handleSyncRequest "P" [Example.nan_record]
                          Example.registered).2)
      by by rewrite Hrun1.
    assert (Hw2 : w2 = (sync false false w1).2) by by rewrite Hrun2.
    rewrite Hw2, Hw1, Hids. by left.
Qed.

(** * The rest of the engine *)

(** ** Storing a number in a Float32Array *)

(** X1. [ensureFloat32] projects the JS numbers onto the binary32 values:
    storing a stored value changes nothing; the result is NaN exactly when
    the argument is; a finite result has a mantissa below 2^24 and an
    exponent between -149 and 104; and the result differs from itself
    ([!==]) exactly when the argument is NaN. *)
Theorem ensureFloat32_projects (x : number) :
  ensureFloat32 (ensureFloat32 x) = ensureFloat32 x ∧
  is_nan (ensureFloat32 x) = is_nan x ∧
  match ensureFloat32 x with
  | S754_finite _ m e => (Z.pos m < 2 ^ 24)%Z ∧ (-149 ≤ e ≤ 104)%Z
  | _ => True
  end ∧
  strict_neq (ensureFloat32 x) (ensureFloat32 x) = is_nan x.
Proof.
  split_and!.
  - apply ensureFloat32_idempotent.
  - apply ensureFloat32_is_nan.
  - assert (H : is_nan x = false → rounded (ensureFloat32 x)).
    { destruct x as [s|s| |s m e]; try done. intros _.
      apply binary_round_rounded. }
    destruct (ensureFloat32 x) as [s|s| |s m e] eqn:E; try done.
    assert (Hx : is_nan x = false).
    { rewrite <- ensureFloat32_is_nan, E. reflexivity. }
    specialize (H Hx). cbn [rounded] in H.
    unfold bounded, canonical_mantissa in H.
    apply andb_true_iff in H as [Hc Hb].
    apply Z.eqb_eq in Hc. apply Z.leb_le in Hb.
    change (Z.pos (digits2_pos m)) with (Zdigits2 (Z.pos m)) in Hc.
    rewrite Zdigits2_log2 in Hc by lia.
    unfold fexp, emin, prec, emax in *.
    split; [|lia].
    apply Z.log2_lt_pow2; lia.
  - unfold strict_neq.
    destruct (is_nan x) eqn:Hx.
    + destruct x; try discriminate. reflexivity.
    + rewrite SFeqb_refl; [done|]. by rewrite ensureFloat32_is_nan.
Qed.

(** ** Compacting an array *)

(** X2. In an array without duplicates, [removeObjectFromArray] leaves the
    object alone when the array held it and nothing otherwise: the loop
    keeps the elements that are the object. *)
Theorem removeObjectFromArray_leaves_object
    (array : list string) (object : string) :
  NoDup array →
  removeObjectFromArray array object =
    if decide (object ∈ array) then [object] else [].
Proof.
  intros Hnd. rewrite removeObjectFromArray_filter.
  destruct (decide (object ∈ array)) as [Hin|Hout].
  - pose proof (filter_eq_NoDup array object Hnd Hin) as Hlen.
    destruct (filter (λ x, x = object) array) as [|y [|z l]] eqn:E;
      try discriminate.
    assert (Hy : y ∈ filter (λ x, x = object) array) by (rewrite E; left).
    apply list_elem_of_filter in Hy as [-> _]. reflexivity.
  - by apply filter_eq_not_in.
Qed.

Lemma removeObjectFromArray_leaves_object_witness :
  NoDup ["a"; "o"; "b"] ∧
  removeObjectFromArray ["a"; "o"; "b"] "o" = ["o"] ∧
  removeObjectFromArray ["a"; "o"; "b"] "c" = [].
Proof.
  assert (H : NoDup ["a"; "o"; "b"]).
  { repeat (apply NoDup_cons; split;
      [rewrite ?elem_of_cons, elem_of_nil; intros H;
       by repeat destruct H as [H|H]|]).
    apply NoDup_nil_2. }
  split_and!; [exact H| |].
  - exact (removeObjectFromArray_leaves_object ["a"; "o"; "b"] "o" H).
  - exact (removeObjectFromArray_leaves_object ["a"; "o"; "b"] "c" H).
Defined.

(** ** The connections of the client *)

Section Connections.

Lemma filter_peer_other (l : list Connection) (id : string) :
  id ∉ map peer l → filter (λ x, peer x ≠ id) l = l.
Proof.
  induction l as [|x l IH]; [done|]. cbn [map]. intros Hid.
  apply not_elem_of_cons in Hid as [Hne Hid].
  rewrite filter_cons_True by done. by rewrite IH.
Qed.

Lemma filter_peer_length (l : list Connection) (id : string) :
  NoDup (map peer l) → id ∈ map peer l →
  S (length (filter (λ x, peer x ≠ id) l)) = length l.
Proof.
  induction l as [|x l IH]; cbn [map]; intros Hnd Hid.
  - by apply elem_of_nil in Hid.
  - apply NoDup_cons in Hnd as [Hx Hnd].
    destruct (decide (peer x = id)) as [<-|Hne].
    + rewrite filter_cons_False by (intros H; by apply H).
      by rewrite filter_peer_other.
    + rewrite filter_cons_True by done. cbn [length]. f_equal.
      apply IH; [done|]. apply elem_of_cons in Hid as [?|?]; [congruence|done].
Qed.

Lemma filter_peer_elem_of (l : list Connection) (id p : string) :
  p ∈ map peer (filter (λ x, peer x ≠ id) l) ↔ p ∈ map peer l ∧ p ≠ id.
Proof.
  rewrite !list_elem_of_fmap. split.
  - intros (x & -> & Hx). apply list_elem_of_filter in Hx as [Hne Hx].
    split; [by exists x|done].
  - intros [(x & -> & Hx) Hne]. exists x. split; [done|].
    by apply list_elem_of_filter.
Qed.

Lemma filter_peer_NoDup (l : list Connection) (id : string) :
  NoDup (map peer l) → NoDup (map peer (filter (λ x, peer x ≠ id) l)).
Proof.
  induction l as [|x l IH]; cbn [map]; intros Hnd; [by rewrite filter_nil|].
  apply NoDup_cons in Hnd as [Hx Hnd].
  destruct (decide (peer x ≠ id)) as [Hne|He].
  - rewrite filter_cons_True by done. cbn [map]. apply NoDup_cons.
    split; [|by apply IH]. rewrite filter_peer_elem_of. by intros [? _].
  - rewrite filter_cons_False by done. by apply IH.
Qed.

Lemma hasConnection_own (c : NetworkClient) (id : string) :
  is_Some (connectionTable c !! id) → hasConnection c id = true.
Proof. intros [x Hx]. unfold hasConnection. by rewrite (js_get_Some _ _ _ Hx). Qed.

Lemma hasConnection_false (c : NetworkClient) (id : string) :
  hasConnection c id = false ↔
  connectionTable c !! id = None ∧ id ∉ Object_prototype.
Proof.
  unfold hasConnection. rewrite <- js_get_Undefined.
  by destruct (js_get (connectionTable c) id).
Qed.

Lemma hasConnection_inherited (c : NetworkClient) (id : string) :
  connectionTable c !! id = None →
  hasConnection c id = bool_decide (id ∈ Object_prototype).
Proof.
  intros Hnone. unfold hasConnection, js_get. rewrite Hnone.
  destruct (decide (id ∈ Object_prototype)).
  - by rewrite bool_decide_eq_true_2.
  - by rewrite bool_decide_eq_false_2.
Qed.

(** Removing a peer that was never connected but whose id names an
    inherited property: the guard lets it through, nothing is found to
    remove, and the call reports success. *)
Lemma removeConnection_inherited (c : NetworkClient) (id : string) :
  client_coherent c → id ≠ client_id c →
  connectionTable c !! id = None → id ∈ Object_prototype →
  removeConnection c id = (true, c).
Proof.
  intros [Hnd Htable] Hid Hnone Hname.
  rewrite removeConnection_filter; [|done|].
  - destruct c as [cid conns table].
    cbn [client_id connections connectionTable] in *. f_equal. f_equal.
    + apply filter_peer_other. rewrite Htable, Hnone. by intros [? ?].
    + by apply delete_id.
  - rewrite hasConnection_inherited by done. by apply bool_decide_eq_true_2.
Qed.

End Connections.

(** X3. [addConnection( id, connection )], for a connection whose [.peer]
    is [id] and a coherent client: with the client's own id, or an id for
    which [hasConnection] is true -- a connected peer, or a name that every
    object inherits, such as 'constructor' -- it returns false and changes
    nothing; otherwise it returns true, the connection is appended to the
    sequence, the peer is connected afterwards, the number of connections
    grows by one, the other peers are as before and the client is still
    coherent. *)
Theorem addConnection_connects
    (c : NetworkClient) (id : string) (connection : Connection) :
  client_coherent c → peer connection = id →
  (id = client_id c ∨ hasConnection c id = true →
   addConnection c id connection = (false, c)) ∧
  (id ≠ client_id c → hasConnection c id = false →
   ∃ c',
     addConnection c id connection = (true, c') ∧
     connections c' = connections c ++ [connection] ∧
     hasConnection c' id = true ∧
     connectionNum c' = S (connectionNum c) ∧
     (∀ p, p ≠ id → hasConnection c' p = hasConnection c p) ∧
     client_id c' = client_id c ∧
     client_coherent c') ∧
  (id ∈ Object_prototype → hasConnection c id = true).
Proof.
  intros [Hnd Htable] Hpeer. split_and!.
  - intros H. unfold addConnection, hasConnection in *.
    by rewrite decide_True.
  - intros Hid Hnew. pose proof Hnew as [Hnone Hname]%hasConnection_false.
    unfold addConnection. fold (hasConnection c id).
    rewrite decide_False by (intros [?|?]; congruence).
    eexists. split; [reflexivity|].
    unfold connectionNum. cbn [connections connectionTable client_id].
    split_and!.
    + done.
    + apply hasConnection_own. cbn [connectionTable].
      rewrite lookup_insert_eq. by eexists.
    + rewrite length_app. simpl. lia.
    + intros p Hp. unfold hasConnection, js_get. cbn [connectionTable].
      by rewrite lookup_insert_ne.
    + done.
    + unfold client_coherent. cbn [connections connectionTable].
      rewrite map_app. cbn [map]. rewrite Hpeer. split.
      * apply NoDup_app. split_and!; [done| |apply NoDup_singleton].
        intros p Hp ->%list_elem_of_singleton.
        apply Htable in Hp. rewrite Hnone in Hp. by destruct Hp.
      * intros p. rewrite elem_of_app, list_elem_of_singleton, Htable.
        destruct (decide (p = id)) as [->|Hne].
        -- rewrite lookup_insert_eq. split; [by eexists|by right].
        -- rewrite lookup_insert_ne by done. split; [by intros [?|?]|by left].
  - intros Hname. unfold hasConnection, js_get.
    destruct (connectionTable c !! id); [done|].
    by rewrite decide_True.
Qed.

Lemma addConnection_connects_witness :
  client_coherent Example.the_client ∧
  addConnection Example.the_client "P" {| peer := "P" |}
    = (false, Example.the_client) ∧
  addConnection Example.the_client "constructor" {| peer := "constructor" |}
    = (false, Example.the_client) ∧
  ∃ c',
    addConnection Example.the_client "Q" {| peer := "Q" |} = (true, c') ∧
    connections c' = [ {| peer := "P" |}; {| peer := "Q" |} ] ∧
    hasConnection c' "Q" = true ∧
    connectionNum c' = 2.
Proof.
  assert (H : client_coherent Example.the_client).
  { split.
    - apply NoDup_singleton.
    - intros p. cbn. rewrite list_elem_of_singleton.
      destruct (decide (p = "P")) as [->|Hne].
      + rewrite lookup_singleton_eq. split; [by eexists|done].
      + rewrite lookup_singleton_ne by done. split; [done|by intros [? ?]]. }
  split; [exact H|].
  destruct (addConnection_connects Example.the_client "P" {| peer := "P" |}
              H eq_refl) as (Hknown & _ & _).
  destruct (addConnection_connects Example.the_client "constructor"
              {| peer := "constructor" |} H eq_refl) as (Hrefused & _ & Hname).
  destruct (addConnection_connects Example.the_client "Q" {| peer := "Q" |}
              H eq_refl) as (_ & Hnew & _).
  split_and!.
  - apply Hknown. right. by vm_compute.
  - apply Hrefused. right. apply Hname. by_compute.
  - destruct (Hnew ltac:(discriminate) ltac:(by vm_compute))
      as (c' & Hrun & Hconns & Hhas & Hnum & _).
    exists c'. split_and!; done.
Defined.

(** X4. [removeConnection( id )] on a coherent client: with the client's
    own id, or an id for which [hasConnection] is false, it returns false
    and changes nothing.  For a connected peer it returns true, the
    sequence keeps the connections of the other peers in their order, the
    entry of the peer is gone from the table, the number of connections
    drops by one, the other peers are as before and the client is still
    coherent.  For an id that is not connected but names a property every
    object inherits, such as 'valueOf', it returns true and changes
    nothing. *)
Theorem removeConnection_disconnects (c : NetworkClient) (id : string) :
  client_coherent c →
  (id = client_id c ∨ hasConnection c id = false →
   removeConnection c id = (false, c)) ∧
  (id ≠ client_id c → is_Some (connectionTable c !! id) →
   ∃ c',
     removeConnection c id = (true, c') ∧
     connections c' = filter (λ x, peer x ≠ id) (connections c) ∧
     connectionTable c' !! id = None ∧
     hasConnection c' id = bool_decide (id ∈ Object_prototype) ∧
     S (connectionNum c') = connectionNum c ∧
     (∀ p, p ≠ id → hasConnection c' p = hasConnection c p) ∧
     client_id c' = client_id c ∧
     client_coherent c') ∧
  (id ≠ client_id c → connectionTable c !! id = None →
   id ∈ Object_prototype →
   removeConnection c id = (true, c)).
Proof.
  intros Hco. pose proof Hco as [Hnd Htable]. split_and!.
  - intros H. unfold removeConnection. fold (hasConnection c id).
    by rewrite decide_True.
  - intros Hid Hhas.
    rewrite removeConnection_filter by (done || by apply hasConnection_own).
    eexists. split; [reflexivity|].
    unfold connectionNum.
    cbn [connections connectionTable client_id].
    split_and!.
    + done.
    + apply lookup_delete_eq.
    + apply hasConnection_inherited. cbn [connectionTable].
      apply lookup_delete_eq.
    + apply filter_peer_length; [done|]. by apply Htable.
    + intros p Hp. unfold hasConnection, js_get. cbn [connectionTable].
      by rewrite lookup_delete_ne.
    + done.
    + unfold client_coherent. cbn [connections connectionTable]. split.
      * by apply filter_peer_NoDup.
      * intros p. rewrite filter_peer_elem_of, Htable.
        destruct (decide (p = id)) as [->|Hne].
        -- rewrite lookup_delete_eq. split; [by intros [_ ?]|by intros [? ?]].
        -- rewrite lookup_delete_ne by done. split; [by intros [? _]|done].
  - intros Hid Hnone Hname. by apply removeConnection_inherited.
Qed.

Lemma removeConnection_disconnects_witness :
  client_coherent Example.the_client ∧
  removeConnection Example.the_client "Q" = (false, Example.the_client) ∧
  removeConnection Example.the_client "valueOf" = (true, Example.the_client) ∧
  ∃ c',
    removeConnection Example.the_client "P" = (true, c') ∧
    connections c' = [] ∧
    hasConnection c' "P" = false ∧
    connectionNum c' = 0.
Proof.
  assert (H : client_coherent Example.the_client).
  { split.
    - apply NoDup_singleton.
    - intros p. cbn. rewrite list_elem_of_singleton.
      destruct (decide (p = "P")) as [->|Hne].
      + rewrite lookup_singleton_eq. split; [by eexists|done].
      + rewrite lookup_singleton_ne by done. split; [done|by intros [? ?]]. }
  split; [exact H|].
  destruct (removeConnection_disconnects Example.the_client "Q" H)
    as (Hunknown & _ & _).
  destruct (removeConnection_disconnects Example.the_client "valueOf" H)
    as (_ & _ & Hinherited).
  destruct (removeConnection_disconnects Example.the_client "P" H)
    as (_ & Hknown & _).
  split_and!.
  - apply Hunknown. right. by vm_compute.
  - apply Hinherited; [discriminate|by vm_compute|by_compute].
  - destruct (Hknown ltac:(discriminate)) as (c' & Hrun & Hconns & _ & Hhas & Hnum & _).
    { cbn. rewrite lookup_singleton_eq. by eexists. }
    exists c'. split_and!; [done|done| |].
    + rewrite Hhas. by vm_compute.
    + unfold connectionNum in *. rewrite Hconns. reflexivity.
Defined.

(** X5. Adding a connection for an id that has no entry in the table and
    removing it again gives the client back as it was, sequence and
    table; this is so also for an id that names a property every object
    inherits, where the connection is refused and nothing is found to
    remove. *)
Theorem addConnection_removeConnection
    (c : NetworkClient) (id : string) (connection : Connection) :
  client_coherent c → peer connection = id →
  id ≠ client_id c → connectionTable c !! id = None →
  removeConnection (addConnection c id connection).2 id = (true, c).
Proof.
  intros Hco Hpeer Hid Hnone. pose proof Hco as [Hnd Htable].
  unfold addConnection. fold (hasConnection c id).
  rewrite hasConnection_inherited by done.
  destruct (decide (id ∈ Object_prototype)) as [Hname|Hname].
  - rewrite decide_True by (right; by apply bool_decide_eq_true_2).
    cbn [snd]. by apply removeConnection_inherited.
  - rewrite decide_False
      by (intros [?|H]; [done|by apply bool_decide_eq_true in H]).
    cbn [snd]. rewrite removeConnection_filter;
      cbn [client_id connections connectionTable];
      [|done|apply hasConnection_own; cbn [connectionTable];
             rewrite lookup_insert_eq; by eexists].
    destruct c as [cid conns table].
    cbn [client_id connections connectionTable] in *.
    f_equal. f_equal.
    + rewrite filter_app, filter_peer_other.
      * rewrite filter_cons_False by (intros H; by apply H).
        by rewrite filter_nil, app_nil_r.
      * rewrite Htable, Hnone. by intros [? ?].
    + rewrite delete_insert_eq. by apply delete_id.
Qed.

Lemma addConnection_removeConnection_witness :
  client_coherent Example.the_client ∧
  connectionTable Example.the_client !! "Q" = None ∧
  removeConnection
    (addConnection Example.the_client "Q" {| peer := "Q" |}).2 "Q"
    = (true, Example.the_client).
Proof.
  assert (H : client_coherent Example.the_client).
  { split.
    - apply NoDup_singleton.
    - intros p. cbn. rewrite list_elem_of_singleton.
      destruct (decide (p = "P")) as [->|Hne].
      + rewrite lookup_singleton_eq. split; [by eexists|done].
      + rewrite lookup_singleton_ne by done. split; [done|by intros [? ?]]. }
  assert (Hnew : connectionTable Example.the_client !! "Q" = None)
    by (vm_compute; reflexivity).
  split_and!; [exact H|exact Hnew|].
  exact (addConnection_removeConnection Example.the_client "Q"
           {| peer := "Q" |} H eq_refl ltac:(discriminate) Hnew).
Defined.

(** ** What the operations keep *)

Section Kept.

Lemma components_kept_refl self : components_kept self self.
Proof. split_and!; [done|done|]. intros u c Hc. by exists c. Qed.

Lemma components_kept_trans self1 self2 self3 :
  components_kept self1 self2 → components_kept self2 self3 →
  components_kept self1 self3.
Proof.
  intros (Hl1 & Hs1 & Hc1) (Hl2 & Hs2 & Hc2). split_and!; [congruence..|].
  intros u c Hc. destruct (Hc1 u c Hc) as (c' & Hc' & Hid').
  destruct (Hc2 u c' Hc') as (c'' & Hc'' & Hid''). exists c''.
  split; [done|congruence].
Qed.

Lemma components_kept_snapshots self self' :
  components_kept self self' → snapshots_present self →
  snapshots_present self'.
Proof.
  intros (Hl & Hs & Hc) Hsnap u Hu. rewrite Hl, Hs in Hu.
  destruct (Hsnap u Hu) as (c & Hcu & Hid).
  destruct (Hc u c Hcu) as (c' & Hc' & Hid'). exists c'.
  split; [done|congruence].
Qed.

Lemma keeps_ret {A} (a : A) : keeps_components (mret a).
Proof. intros w res w' [= _ <-]. apply components_kept_refl. Qed.

Lemma keeps_throw {A} (e : JSError) : keeps_components (throw (A := A) e).
Proof. intros w res w' [= _ <-]. apply components_kept_refl. Qed.

Lemma keeps_gets {A} (f : World → A) : keeps_components (gets f).
Proof. intros w res w' [= _ <-]. apply components_kept_refl. Qed.

Lemma keeps_emit (e : Event) : keeps_components (emit e).
Proof. intros w res w' [= _ <-]. apply components_kept_refl. Qed.

Lemma keeps_modify_scene f : keeps_components (modify_scene f).
Proof. intros w res w' [= _ <-]. apply components_kept_refl. Qed.

Lemma keeps_modify_this f :
  (∀ self, components_kept self (f self)) → keeps_components (modify_this f).
Proof. intros Hf w res w' [= _ <-]. apply Hf. Qed.

Lemma keeps_bind {A B} (m : JS A) (f : A → JS B) :
  keeps_components m → (∀ a, keeps_components (f a)) →
  keeps_components (m ≫= f).
Proof.
  intros Hm Hf w res w'. rewrite bind_run.
  destruct (m w) as [[a|e] w1] eqn:E.
  - intros Hrun. eapply components_kept_trans; [by eapply Hm|by eapply Hf].
  - intros [= _ <-]. by eapply Hm.
Qed.

Lemma keeps_forEach {A} (l : list A) (body : A → JS unit) :
  (∀ x, keeps_components (body x)) → keeps_components (forEach l body).
Proof.
  intros Hbody. induction l as [|x l IH]; simpl.
  - apply keeps_ret.
  - apply keeps_bind; [apply Hbody|]. intros _. apply IH.
Qed.

Lemma keeps_collect {A B} (l : list A) (body : A → JS (option B)) :
  (∀ x, keeps_components (body x)) → keeps_components (collect l body).
Proof.
  intros Hbody. induction l as [|x l IH]; simpl.
  - apply keeps_ret.
  - apply keeps_bind; [apply Hbody|]. intros r.
    apply keeps_bind; [apply IH|]. intros rest. apply keeps_ret.
Qed.

Lemma keeps_checkUpdate object : keeps_components (checkUpdate object).
Proof.
  intros w res w'. rewrite checkUpdate_run.
  destruct (transferComponents (this w) !! object); intros [= _ <-];
    apply components_kept_refl.
Qed.

Lemma keeps_serialize object : keeps_components (serialize object).
Proof.
  intros w res w'. rewrite serialize_run.
  destruct (transferComponents (this w) !! object) as [c|] eqn:Hc;
    intros [= _ <-]; [|apply components_kept_refl].
  split_and!; [done|done|]. intros u c0 Hu.
  cbn [this with_components transferComponents set_transferComponents].
  destruct (decide (object = u)) as [->|Hne].
  - rewrite lookup_insert_eq. eexists. split; [done|]. cbn. congruence.
  - rewrite lookup_insert_ne by done. by exists c0.
Qed.

Lemma keeps_sync_scan force array : keeps_components (sync_scan force array).
Proof.
  apply keeps_collect. intros object. apply keeps_bind.
  - destruct force; [apply keeps_ret|apply keeps_checkUpdate].
  - intros [|]; [|apply keeps_ret].
    apply keeps_bind; [apply keeps_serialize|]. intros c. apply keeps_ret.
Qed.

Lemma keeps_sync force onlyLocal : keeps_components (sync force onlyLocal).
Proof.
  apply keeps_bind; [apply keeps_gets|]. intros self.
  apply keeps_bind; [apply keeps_sync_scan|]. intros local.
  apply keeps_bind.
  - destruct onlyLocal; [apply keeps_ret|apply keeps_sync_scan].
  - intros shared. cbv zeta.
    destruct (decide _); [apply keeps_emit|apply keeps_ret].
Qed.

Lemma keeps_set_remoteObjectTable f :
  keeps_components (modify_this (set_remoteObjectTable f)).
Proof.
  apply keeps_modify_this. intros self. split_and!; [done|done|].
  intros u c Hc. by exists c.
Qed.

Lemma keeps_listeners {A} (pick : World → list A) (g : A → Event) :
  keeps_components (fs ← gets pick; forEach fs (λ f, emit (g f))).
Proof.
  apply keeps_bind; [apply keeps_gets|]. intros fs.
  apply keeps_forEach. intros f. apply keeps_emit.
Qed.

Lemma keeps_addRemoteObject destId objectId object :
  keeps_components (addRemoteObject destId objectId object).
Proof.
  apply keeps_bind; [apply keeps_gets|]. intros self.
  apply keeps_bind.
  - destruct (js_get (remoteObjectTable self) destId);
      [apply keeps_ret|apply keeps_ret|apply keeps_set_remoteObjectTable].
  - intros _. apply keeps_bind; [apply keeps_gets|]. intros objects.
    destruct objects as [table|name|]; [|apply keeps_ret..].
    destruct (js_get table objectId);
      [apply keeps_ret|apply keeps_ret|apply keeps_set_remoteObjectTable].
Qed.

Lemma keeps_removeRemoteObject destId objectId :
  keeps_components (removeRemoteObject destId objectId).
Proof.
  apply keeps_bind; [apply keeps_gets|]. intros self.
  destruct (js_get (remoteObjectTable self) destId) as [objects|name|];
    [| |apply keeps_ret].
  - destruct (js_get objects objectId) as [object|name|]; [| |apply keeps_ret];
      (apply keeps_bind; [apply keeps_set_remoteObjectTable|]); intros _;
      apply keeps_listeners.
  - destruct (builtin_get objectId);
      [apply keeps_ret|apply keeps_listeners|apply keeps_ret].
Qed.

Lemma keeps_handleSyncRequest destId list :
  keeps_components (handleSyncRequest destId list).
Proof.
  apply keeps_bind; [apply keeps_gets|]. intros objects.
  apply keeps_forEach. intros record.
  apply keeps_bind; [apply keeps_gets|]. intros self.
  destruct (match tc_sid record with
            | Some sid => js_get (sharedObjectTable self) sid
            | None => _
            end) as [object|name|]; [|apply keeps_throw|apply keeps_ret].
  apply keeps_bind; [apply keeps_modify_scene|]. intros _.
  destruct (tc_sid record); [|apply keeps_ret].
  apply keeps_bind; [apply keeps_serialize|]. intros c. apply keeps_ret.
Qed.

Lemma keeps_handleAddRequest destId list :
  keeps_components (handleAddRequest destId list).
Proof.
  apply keeps_bind; [apply keeps_gets|]. intros objects.
  apply keeps_forEach. intros record.
  destruct (defined _); [apply keeps_ret|apply keeps_listeners].
Qed.

Lemma keeps_call_method name destId objectId object :
  keeps_components (call_method name destId objectId object).
Proof.
  unfold call_method. repeat destruct (decide _).
  - apply keeps_removeRemoteObject.
  - apply keeps_addRemoteObject.
  - apply keeps_listeners.
  - apply keeps_throw.
Qed.

Lemma keeps_handleRemoveRequest destId list :
  keeps_components (handleRemoveRequest destId list).
Proof.
  apply keeps_bind; [apply keeps_gets|]. intros objects.
  destruct (defined objects); [|apply keeps_ret].
  apply keeps_forEach. intros objectId. apply keeps_bind.
  - unfold resolve_identifier.
    destruct (_ !! _); [apply keeps_ret|apply keeps_throw].
  - intros objests. destruct (get_in objests objectId);
      [apply keeps_call_method|apply keeps_throw|apply keeps_ret].
Qed.

Lemma keeps_onClientReceive component :
  keeps_components (onClientReceive component).
Proof.
  apply keeps_bind; [apply keeps_gets|]. intros self.
  destruct (from_option _ _ _); [apply keeps_ret|].
  apply keeps_bind; [|intros _; apply keeps_listeners].
  destruct (msg_list component).
  - apply keeps_handleSyncRequest.
  - apply keeps_handleAddRequest.
  - apply keeps_handleRemoveRequest.
  - apply keeps_listeners.
  - apply keeps_emit.
Qed.

Lemma keeps_onClientConnect id fromRemote :
  keeps_components (onClientConnect id fromRemote).
Proof.
  apply keeps_bind; [apply keeps_listeners|]. intros _.
  apply keeps_bind; [|intros _; apply keeps_sync].
  apply keeps_bind; [apply keeps_gets|]. intros self. apply keeps_emit.
Qed.

Lemma keeps_onClientDisconnect Object_keys id :
  keeps_components (onClientDisconnect Object_keys id).
Proof.
  apply keeps_bind; [apply keeps_listeners|]. intros _.
  apply keeps_bind; [apply keeps_gets|]. intros self.
  destruct (remoteObjectTable self !! id) as [objects|]; [|apply keeps_ret].
  apply keeps_bind; [|intros _; apply keeps_set_remoteObjectTable].
  apply keeps_forEach. intros key. apply keeps_removeRemoteObject.
Qed.

Lemma keeps_onClientOpen id : keeps_components (onClientOpen id).
Proof.
  apply keeps_bind; [|intros _; apply keeps_listeners].
  apply keeps_modify_this. intros self. split_and!; [done|done|].
  intros u c Hc. by exists c.
Qed.

Lemma keeps_snapshots {A} (m : JS A) (w : World) :
  keeps_components m → snapshots_present (this w) →
  snapshots_present (this (m w).2).
Proof.
  intros Hm Hsnap. destruct (m w) as [res w'] eqn:E.
  eapply components_kept_snapshots; [by eapply Hm|done].
Qed.

End Kept.

(** ** Registering and removing a shared object *)

Section Shared_registration.

Lemma emitted_same_log (w w' : World) : log w' = log w → emitted w w' = [].
Proof. unfold emitted. intros ->. by rewrite drop_all. Qed.

Lemma differs_stored (l : list number) :
  nan_free l → differs (map ensureFloat32 l) l = false.
Proof.
  intros Hnan. apply Forall2_same_float32_differs.
  apply Forall2_fmap_l, Forall_Forall2_diag.
  eapply Forall_impl; [exact Hnan|]. intros x Hx.
  by apply stored_same_float32.
Qed.

Lemma addSharedObject_run object id w :
  addSharedObject object id w =
    if defined (js_get (sharedObjectTable (this w)) id)
    then
      (Normal tt,
       {| this := this w; scene := scene w;
          log := log w ++
            [ConsoleWarn ("THREE.RemoteSystem.addSharedObject: Shared id "
                            +:+ id +:+ " is already used.")] |})
    else
      (Normal tt,
       {| this :=
            set_transferComponents
              <[object :=
                 {| tc_id := object; tc_sid := Some id;
                    tc_matrix := fill_float32 (matrix_elements (scene w object));
                    tc_morphTargetInfluences :=
                      match morphTargetInfluences (scene w object) with
                      | Some influences => fill_float32 influences
                      | None => []
                      end |}]>
              (set_sharedObjects (λ l, l ++ [object])
                 (set_sharedObjectTable <[id := object]> (this w)));
          scene := scene w;
          log := log w |}).
Proof.
  unfold addSharedObject. rewrite bind_run. unfold gets at 1.
  destruct (defined _); by js_run.
Qed.

Lemma removeObjectFromArray_inherited_nil (array : list string) :
  removeObjectFromArray_inherited array = [].
Proof.
  unfold removeObjectFromArray_inherited.
  assert (Hloop : ∀ (l : list nat) (a : list string) (r : nat),
    foldl (λ (s : list string * nat * nat) (i : nat),
             let '(array, readIndex, writeIndex) := s in
             (array, S readIndex, writeIndex)) (a, r, 0) l
    = (a, r + length l, 0)).
  { induction l as [|i l IH]; intros a r; simpl.
    - by rewrite Nat.add_0_r.
    - rewrite IH. f_equal. f_equal. lia. }
  rewrite Hloop. apply take_0.
Qed.

Lemma removeSharedObject_run id w :
  removeSharedObject id w =
    match js_get (sharedObjectTable (this w)) id with
    | Undefined => (Normal tt, w)
    | Own object =>
        (Normal tt,
         {| this :=
              set_sharedObjects (λ l, removeObjectFromArray l object)
                (set_sharedObjectTable (delete id) (this w));
            scene := scene w;
            log := log w |})
    | Inherited _ =>
        (Normal tt,
         {| this :=
              set_sharedObjects removeObjectFromArray_inherited
                (set_sharedObjectTable (delete id) (this w));
            scene := scene w;
            log := log w |})
    end.
Proof.
  unfold removeSharedObject. rewrite bind_run. unfold gets at 1.
  by destruct (js_get (sharedObjectTable (this w)) id).
Qed.

End Shared_registration.

(** X6. Registering an object under a shared id that is free -- not
    bound, and not the name of a property that every object inherits --
    binds the id to the object, appends the object to the shared sequence
    and stores its transfer component, tagged with the shared id and
    holding the live channels as Float32; nothing is sent, whatever the
    connections.  When no live channel is NaN the object does not count as
    changed.  Under an id that names an inherited property, such as
    'constructor', nothing can be registered: the call warns that the id
    is already used and changes nothing. *)
Theorem addSharedObject_registers (w : World) (object id : string) :
  (js_get (sharedObjectTable (this w)) id = Undefined →
   ∃ w' c,
     addSharedObject object id w = (Normal tt, w') ∧
     emitted w w' = [] ∧
     scene w' = scene w ∧
     sharedObjectTable (this w') = <[id := object]> (sharedObjectTable (this w)) ∧
     sharedObjects (this w') = sharedObjects (this w) ++ [object] ∧
     transferComponents (this w')
       = <[object := c]> (transferComponents (this w)) ∧
     tc_id c = object ∧
     tc_sid c = Some id ∧
     tc_matrix c = map ensureFloat32 (matrix_elements (scene w object)) ∧
     tc_morphTargetInfluences c
       = map ensureFloat32 (default [] (morphTargetInfluences (scene w object))) ∧
     (nan_free (matrix_elements (scene w object)) →
      nan_free (default [] (morphTargetInfluences (scene w object))) →
      changed c (scene w object) = false)) ∧
  (id ∈ Object_prototype →
   ∃ w',
     addSharedObject object id w = (Normal tt, w') ∧
     emitted w w' =
       [ConsoleWarn ("THREE.RemoteSystem.addSharedObject: Shared id "
                       +:+ id +:+ " is already used.")] ∧
     this w' = this w ∧
     scene w' = scene w).
Proof.
  rewrite addSharedObject_run. split.
  - intros ->. cbn [defined]. eexists _, _. split; [reflexivity|].
    cbn [this scene log sharedObjectTable sharedObjects transferComponents
         set_transferComponents set_sharedObjects set_sharedObjectTable
         tc_id tc_sid tc_matrix tc_morphTargetInfluences].
    split_and!; try reflexivity.
    + by apply emitted_same_log.
    + apply fill_float32_map.
    + destruct (morphTargetInfluences (scene w object)); [|done].
      apply fill_float32_map.
    + intros Hn1 Hn2. unfold changed.
      cbn [tc_matrix tc_morphTargetInfluences].
      rewrite fill_float32_map, differs_stored by done.
      destruct (morphTargetInfluences (scene w object)) as [array2|]; [|done].
      simpl in Hn2. by rewrite fill_float32_map, differs_stored.
  - intros Hname.
    assert (defined (js_get (sharedObjectTable (this w)) id) = true) as ->.
    { unfold js_get. destruct (sharedObjectTable (this w) !! id); [done|].
      by rewrite decide_True. }
    eexists. split; [reflexivity|]. cbn [this scene log].
    split_and!; [by apply emitted_app|done|done].
Qed.

Lemma addSharedObject_registers_witness :
  js_get (sharedObjectTable (this Example.fresh)) "S" = Undefined ∧
  (∃ w' c,
     addSharedObject "s" "S" Example.fresh = (Normal tt, w') ∧
     emitted Example.fresh w' = [] ∧
     sharedObjectTable (this w') !! "S" = Some "s" ∧
     sharedObjects (this w') = ["s"] ∧
     transferComponents (this w') !! "s" = Some c ∧
     tc_sid c = Some "S" ∧
     changed c (scene Example.fresh "s") = false) ∧
  ∃ w',
    addSharedObject "s" "constructor" Example.fresh = (Normal tt, w') ∧
    this w' = this Example.fresh.
Proof.
  assert (Hnew : js_get (sharedObjectTable (this Example.fresh)) "S" = Undefined)
    by reflexivity.
  split; [exact Hnew|].
  destruct (addSharedObject_registers Example.fresh "s" "S") as [Hfree _].
  destruct (addSharedObject_registers Example.fresh "s" "constructor")
    as [_ Hinherited].
  split.
  - destruct (Hfree Hnew)
      as (w' & c & Hrun & Hlog & _ & Htable & Hseq & Htc & _ & Hsid & _ & _ & Hsame).
    exists w', c. split_and!; [done|done| |done| |done|].
    + rewrite Htable. apply lookup_insert_eq.
    + rewrite Htc. apply lookup_insert_eq.
    + apply Hsame;
        repeat (constructor; [reflexivity|]); constructor.
  - destruct Hinherited as (w' & Hrun & _ & Hthis & _); [by_compute|].
    by exists w'.
Defined.

(** X7. [removeSharedObject( id )] for a bound id unbinds the id, sends
    nothing and keeps every transfer component; of the shared sequence it
    keeps the occurrences of the object that was bound and drops every
    other object.  For an id whose lookup yields [undefined] it does
    nothing.  For an id that is not bound but names a property that every
    object inherits, such as 'constructor', it empties the shared sequence
    and changes nothing else. *)
Theorem removeSharedObject_unbinds (w : World) (id : string) :
  (∀ object,
     sharedObjectTable (this w) !! id = Some object →
     ∃ w',
       removeSharedObject id w = (Normal tt, w') ∧
       emitted w w' = [] ∧
       scene w' = scene w ∧
       sharedObjectTable (this w') = delete id (sharedObjectTable (this w)) ∧
       transferComponents (this w') = transferComponents (this w) ∧
       sharedObjects (this w')
         = filter (λ x, x = object) (sharedObjects (this w)) ∧
       (∀ u, u ∈ sharedObjects (this w') ↔
             u = object ∧ object ∈ sharedObjects (this w))) ∧
  (js_get (sharedObjectTable (this w)) id = Undefined →
   removeSharedObject id w = (Normal tt, w)) ∧
  (sharedObjectTable (this w) !! id = None → id ∈ Object_prototype →
   ∃ w',
     removeSharedObject id w = (Normal tt, w') ∧
     emitted w w' = [] ∧
     scene w' = scene w ∧
     sharedObjectTable (this w') = sharedObjectTable (this w) ∧
     transferComponents (this w') = transferComponents (this w) ∧
     sharedObjects (this w') = []).
Proof.
  rewrite removeSharedObject_run. split_and!.
  - intros object Hbound. rewrite (js_get_Some _ _ _ Hbound).
    eexists. split; [reflexivity|].
    cbn [this scene log sharedObjectTable sharedObjects transferComponents
         set_sharedObjects set_sharedObjectTable].
    split_and!; try reflexivity.
    + by apply emitted_same_log.
    + apply removeObjectFromArray_filter.
    + intros u. rewrite removeObjectFromArray_filter, list_elem_of_filter.
      split; [by intros [-> ?]|by intros [-> ?]].
  - by intros ->.
  - intros Hnone Hname.
    assert (js_get (sharedObjectTable (this w)) id = Inherited id) as ->
      by by apply js_get_Inherited.
    eexists. split; [reflexivity|].
    cbn [this scene log sharedObjectTable sharedObjects transferComponents
         set_sharedObjects set_sharedObjectTable].
    split_and!; try reflexivity.
    + by apply emitted_same_log.
    + by apply delete_id.
    + apply removeObjectFromArray_inherited_nil.
Qed.

Lemma removeSharedObject_unbinds_witness :
  sharedObjectTable (this Example.registered) !! "S" = Some "s" ∧
  (∃ w',
     removeSharedObject "S" Example.registered = (Normal tt, w') ∧
     sharedObjectTable (this w') !! "S" = None ∧
     sharedObjects (this w') = ["s"] ∧
     is_Some (transferComponents (this w') !! "s")) ∧
  removeSharedObject "T" Example.registered = (Normal tt, Example.registered) ∧
  ∃ w',
    removeSharedObject "constructor" Example.registered = (Normal tt, w') ∧
    sharedObjects (this Example.registered) = ["s"] ∧
    sharedObjects (this w') = [].
Proof.
  assert (Hbound : sharedObjectTable (this Example.registered) !! "S"
                     = Some "s") by (vm_compute; reflexivity).
  split; [exact Hbound|].
  destruct (removeSharedObject_unbinds Example.registered "S") as (Hown & _ & _).
  destruct (removeSharedObject_unbinds Example.registered "T")
    as (_ & Hundefined & _).
  destruct (removeSharedObject_unbinds Example.registered "constructor")
    as (_ & _ & Hinherited).
  split_and!.
  - destruct (Hown "s" Hbound) as (w' & Hrun & _ & _ & Htable & Htc & Hseq & _).
    exists w'. split_and!; [done| | |].
    + rewrite Htable. apply lookup_delete_eq.
    + rewrite Hseq. by vm_compute.
    + rewrite Htc.
      destruct (transferComponents (this Example.registered) !! "s") eqn:E;
        [by eexists|vm_compute in E; discriminate].
  - apply Hundefined. by vm_compute.
  - destruct Hinherited as (w' & Hrun & _ & _ & _ & _ & Hseq);
      [by vm_compute|by_compute|].
    exists w'. split_and!; [done|by vm_compute|done].
Defined.

(** ** The registry invariant *)

(** X8. Every object in the local or the shared sequence has its transfer
    component, stored under the uuid the component carries: a new instance
    has this property, and registering a local or shared object, removing
    a shared object, adding or removing a mirror, [sync], and the 'open',
    'connect', 'disconnect' and 'receive' listeners of the client all keep
    it, however they end. *)
Theorem snapshots_present_invariant (w : World) :
  snapshots_present (this w) →
  (∀ c, snapshots_present (RemoteSync_new c)) ∧
  (∀ object info, snapshots_present (this (addLocalObject object info w).2)) ∧
  (∀ object id, snapshots_present (this (addSharedObject object id w).2)) ∧
  (∀ id, snapshots_present (this (removeSharedObject id w).2)) ∧
  (∀ destId objectId object,
     snapshots_present (this (addRemoteObject destId objectId object w).2)) ∧
  (∀ destId objectId,
     snapshots_present (this (removeRemoteObject destId objectId w).2)) ∧
  (∀ force onlyLocal, snapshots_present (this (sync force onlyLocal w).2)) ∧
  (∀ id, snapshots_present (this (onClientOpen id w).2)) ∧
  (∀ id fromRemote,
     snapshots_present (this (onClientConnect id fromRemote w).2)) ∧
  (∀ Object_keys id,
     snapshots_present (this (onClientDisconnect Object_keys id w).2)) ∧
  (∀ component, snapshots_present (this (onClientReceive component w).2)).
Proof.
  intros Hsnap. split_and!.
  - intros c u Hu. by apply elem_of_nil in Hu.
  - intros object info. rewrite addLocalObject_run.
    destruct (localObjectTable (this w) !! object); [done|].
    cbn [snd]. intros u Hu. unfold with_local in *.
    cbn [this localObjects sharedObjects transferComponents
         set_transferComponents set_localObjectInfos set_localObjects
         set_localObjectTable] in *.
    destruct (decide (object = u)) as [->|Hne].
    + rewrite lookup_insert_eq. by eexists.
    + rewrite lookup_insert_ne by done. apply Hsnap.
      rewrite !elem_of_app, list_elem_of_singleton in Hu.
      rewrite elem_of_app. destruct Hu as [[?|?]|?]; [by left|done|by right].
  - intros object id. rewrite addSharedObject_run.
    destruct (defined _); [done|].
    cbn [snd]. intros u Hu.
    cbn [this localObjects sharedObjects transferComponents
         set_transferComponents set_sharedObjects set_sharedObjectTable] in *.
    destruct (decide (object = u)) as [->|Hne].
    + rewrite lookup_insert_eq. by eexists.
    + rewrite lookup_insert_ne by done. apply Hsnap.
      rewrite !elem_of_app, list_elem_of_singleton in Hu.
      rewrite elem_of_app. destruct Hu as [?|[?|?]]; [by left|by right|done].
  - intros id. rewrite removeSharedObject_run.
    destruct (js_get (sharedObjectTable (this w)) id) as [object|name|];
      [| |done]; cbn [snd]; intros u Hu;
      cbn [this localObjects sharedObjects transferComponents
           set_sharedObjects set_sharedObjectTable] in *;
      apply Hsnap; rewrite elem_of_app in *;
      (destruct Hu as [?|Hu]; [by left|]); right.
    + rewrite removeObjectFromArray_filter in Hu.
      by apply list_elem_of_filter in Hu as [_ ?].
    + rewrite removeObjectFromArray_inherited_nil in Hu.
      by apply elem_of_nil in Hu.
  - intros. by apply keeps_snapshots; [apply keeps_addRemoteObject|].
  - intros. by apply keeps_snapshots; [apply keeps_removeRemoteObject|].
  - intros. by apply keeps_snapshots; [apply keeps_sync|].
  - intros. by apply keeps_snapshots; [apply keeps_onClientOpen|].
  - intros. by apply keeps_snapshots; [apply keeps_onClientConnect|].
  - intros. by apply keeps_snapshots; [apply keeps_onClientDisconnect|].
  - intros. by apply keeps_snapshots; [apply keeps_onClientReceive|].
Qed.

Lemma snapshots_present_invariant_witness :
  snapshots_present (this Example.registered) ∧
  snapshots_present (this (addLocalObject "c" None Example.registered).2) ∧
  snapshots_present (this (sync true false Example.registered).2) ∧
  snapshots_present
    (this (onClientReceive (Example.message (SyncList [Example.moved_record]))
             Example.registered).2).
Proof.
  split; [exact registered_snapshots_present|].
  destruct (snapshots_present_invariant Example.registered
              registered_snapshots_present)
    as (_ & Hlocal & _ & _ & _ & _ & Hsync & _ & _ & _ & Hreceive).
  split_and!; [apply Hlocal|apply Hsync|apply Hreceive].
Defined.

(** ** Mirrors of remote objects *)

Section Mirrors.

Lemma addRemoteObject_run destId objectId object w :
  addRemoteObject destId objectId object w =
    match js_get (remoteObjectTable (this w)) destId with
    | Inherited _ => (Normal tt, w)
    | Own table =>
        if defined (js_get table objectId) then (Normal tt, w)
        else
          (Normal tt,
           {| this :=
                set_remoteObjectTable
                  (λ _, <[destId := <[objectId := object]> table]>
                          (remoteObjectTable (this w)))
                  (this w);
              scene := scene w;
              log := log w |})
    | Undefined =>
        (Normal tt,
         {| this :=
              set_remoteObjectTable
                (λ _, <[destId := if decide (objectId ∈ Object_prototype)
                                  then ∅ else {[ objectId := object ]}]>
                        (remoteObjectTable (this w)))
                (this w);
            scene := scene w;
            log := log w |})
    end.
Proof.
  unfold addRemoteObject. rewrite bind_run. unfold gets at 1.
  destruct (js_get (remoteObjectTable (this w)) destId) as [table|name|]
    eqn:Hpeer.
  - js_run. rewrite Hpeer.
    by destruct (js_get table objectId) eqn:Hobject; cbn [defined].
  - js_run. by rewrite Hpeer.
  - js_run. cbn [remoteObjectTable set_remoteObjectTable].
    rewrite (js_get_Some _ _ ∅) by apply lookup_insert_eq.
    unfold js_get at 1. rewrite lookup_empty.
    destruct (decide (objectId ∈ Object_prototype));
      destruct w as [[] ? ?]; unfold set_remoteObjectTable;
      cbn [this scene log client rs_id localObjects localObjectTable
           localObjectInfos remoteObjectTable sharedObjects sharedObjectTable
           transferComponents onOpens onConnects onDisconnects onReceives
           onAdds onRemoves onReceiveUserDatas];
      [done|by rewrite insert_insert_eq].
Qed.

Lemma mirror_of_set_remoteObjectTable table self destId objectId :
  mirror_of (set_remoteObjectTable (λ _, table) self) destId objectId =
    table !! destId ≫= (λ objects : gmap string string, objects !! objectId).
Proof. reflexivity. Qed.

Lemma set_remoteObjectTable_id self :
  set_remoteObjectTable (λ _, remoteObjectTable self) self = self.
Proof. by destruct self. Qed.

(** The lookup of a mirror, for a peer whose table is not a built-in. *)
Lemma mirror_lookup_plain self destId objectId :
  plain_peer self destId →
  mirror_lookup self destId objectId =
    match remoteObjectTable self !! destId with
    | Some objects => js_get objects objectId
    | None => Undefined
    end.
Proof.
  intros Hplain. unfold mirror_lookup, js_get at 1.
  destruct (remoteObjectTable self !! destId) as [objects|] eqn:Hpeer; [done|].
  destruct Hplain as [[? ?]|Hname]; [congruence|]. by rewrite decide_False.
Qed.

Lemma mirror_lookup_Own self destId objectId object :
  mirror_of self destId objectId = Some object →
  mirror_lookup self destId objectId = Own object.
Proof.
  unfold mirror_of, mirror_lookup.
  destruct (remoteObjectTable self !! destId) as [objects|] eqn:Hpeer; [|done].
  cbn [mbind option_bind]. intros Hobject.
  rewrite (js_get_Some _ _ _ Hpeer). by apply js_get_Some.
Qed.

End Mirrors.

(** X9. Registering a mirror for an object of a peer, when the object has
    none, the peer has a table or an id that names no inherited property,
    and the object id names no inherited property, stores it: afterwards
    the mirror of that object is the one given, the mirror of every other
    object of every peer is as before, nothing else of the registry or of
    the scene has changed and nothing is sent or announced.  Under an
    object id that names a property every object inherits, such as
    'constructor', no mirror is ever stored. *)
Theorem addRemoteObject_registers
    (w : World) (destId objectId object : string) :
  (plain_peer (this w) destId →
   mirror_of (this w) destId objectId = None →
   objectId ∉ Object_prototype →
   ∃ w' table,
     addRemoteObject destId objectId object w = (Normal tt, w') ∧
     this w' = set_remoteObjectTable (λ _, table) (this w) ∧
     scene w' = scene w ∧
     log w' = log w ∧
     mirror_of (this w') destId objectId = Some object ∧
     mirror_lookup (this w') destId objectId = Own object ∧
     ∀ d o, (d, o) ≠ (destId, objectId) →
            mirror_of (this w') d o = mirror_of (this w) d o) ∧
  (objectId ∈ Object_prototype →
   ∃ w',
     addRemoteObject destId objectId object w = (Normal tt, w') ∧
     scene w' = scene w ∧
     log w' = log w ∧
     ∀ d o, mirror_of (this w') d o = mirror_of (this w) d o).
Proof.
  rewrite addRemoteObject_run. split.
  - intros Hplain Hnew Hname.
    assert (Hstored : ∀ table0,
      remoteObjectTable (this w) !! destId ≫=
        (λ objects : gmap string string, objects !! objectId) = None →
      default ∅ (remoteObjectTable (this w) !! destId) = table0 →
      ∃ w' table,
        (Normal tt,
         {| this :=
              set_remoteObjectTable
                (λ _, <[destId := <[objectId := object]> table0]>
                        (remoteObjectTable (this w)))
                (this w);
            scene := scene w; log := log w |}) = (Normal tt, w') ∧
        this w' = set_remoteObjectTable (λ _, table) (this w) ∧
        scene w' = scene w ∧
        log w' = log w ∧
        mirror_of (this w') destId objectId = Some object ∧
        mirror_lookup (this w') destId objectId = Own object ∧
        ∀ d o, (d, o) ≠ (destId, objectId) →
               mirror_of (this w') d o = mirror_of (this w) d o).
    { intros table0 Hnone Htable0. eexists _, _. split; [reflexivity|].
      cbn [this scene log].
      assert (Hm : mirror_of
                (set_remoteObjectTable
                   (λ _, <[destId := <[objectId := object]> table0]>
                           (remoteObjectTable (this w))) (this w))
                destId objectId = Some object).
      { rewrite mirror_of_set_remoteObjectTable, lookup_insert_eq. simpl.
        apply lookup_insert_eq. }
      split_and!; try reflexivity; [done|by apply mirror_lookup_Own|].
      intros d o Hne. rewrite mirror_of_set_remoteObjectTable.
      unfold mirror_of. destruct (decide (d = destId)) as [->|Hd].
      - rewrite lookup_insert_eq. simpl.
        rewrite lookup_insert_ne by congruence. subst table0.
        by destruct (remoteObjectTable (this w) !! destId).
      - by rewrite lookup_insert_ne. }
    unfold mirror_of in Hnew. unfold js_get at 1.
    destruct (remoteObjectTable (this w) !! destId) as [objects|] eqn:Hpeer.
    + cbn [mbind option_bind] in Hnew.
      assert (js_get objects objectId = Undefined) as ->
        by by apply js_get_Undefined.
      cbn [defined]. by apply Hstored.
    + destruct Hplain as [[? ?]|Hplain]; [congruence|].
      rewrite decide_False by done. rewrite decide_False by done.
      by apply (Hstored ∅).
  - intros Hname. unfold js_get at 1.
    destruct (remoteObjectTable (this w) !! destId) as [objects|] eqn:Hpeer.
    + assert (defined (js_get objects objectId) = true) as ->.
      { unfold js_get. destruct (objects !! objectId); [done|].
        by rewrite decide_True. }
      by exists w.
    + destruct (decide (destId ∈ Object_prototype)); [by exists w|].
      rewrite decide_True by done. eexists. split; [reflexivity|].
      cbn [this scene log]. split_and!; [done|done|].
      intros d o. rewrite mirror_of_set_remoteObjectTable. unfold mirror_of.
      destruct (decide (d = destId)) as [->|Hd].
      * rewrite lookup_insert_eq, Hpeer. simpl. apply lookup_empty.
      * by rewrite lookup_insert_ne.
Qed.

Lemma addRemoteObject_registers_witness :
  plain_peer (this Example.fresh) "P" ∧
  mirror_of (this Example.fresh) "P" "x" = None ∧
  (∃ w',
     addRemoteObject "P" "x" "m1" Example.fresh = (Normal tt, w') ∧
     log w' = log Example.fresh ∧
     mirror_of (this w') "P" "x" = Some "m1" ∧
     mirror_of (this w') "P" "y" = None) ∧
  ∃ w',
    addRemoteObject "P" "constructor" "m1" Example.fresh = (Normal tt, w') ∧
    mirror_of (this w') "P" "constructor" = None.
Proof.
  assert (Hplain : plain_peer (this Example.fresh) "P") by (right; by_compute).
  assert (Hnew : mirror_of (this Example.fresh) "P" "x" = None)
    by reflexivity.
  split_and!; [exact Hplain|exact Hnew| |].
  - destruct (addRemoteObject_registers Example.fresh "P" "x" "m1")
      as [Hstore _].
    destruct (Hstore Hplain Hnew ltac:(by_compute))
      as (w' & table & Hrun & _ & _ & Hlog & Hmirror & _ & Hothers).
    exists w'. split_and!; [done|done|done|].
    by rewrite (Hothers "P" "y").
  - destruct (addRemoteObject_registers Example.fresh "P" "constructor" "m1")
      as [_ Hnever].
    destruct (Hnever ltac:(by_compute)) as (w' & Hrun & _ & _ & Hsame).
    exists w'. split; [done|]. by rewrite Hsame.
Defined.

(** X10. [removeRemoteObject], for a peer that has a table or whose id
    names no inherited property, always returns normally.  When the object
    was mirrored, its entry is deleted and each 'remove' listener is
    called once with the peer, the object id and the mirror; when the
    lookup yields [undefined] -- no table, or no entry under an id that
    names no inherited property -- nothing happens; when the peer has a
    table without such an entry and the object id names a property that
    every object inherits, each 'remove' listener is called with the
    inherited value in place of a mirror.  No mirror of another object
    changes, and a second call, for an object id that names no inherited
    property, does nothing. *)
Theorem removeRemoteObject_retracts (w : World) (destId objectId : string) :
  plain_peer (this w) destId →
  ∃ w',
    removeRemoteObject destId objectId w = (Normal tt, w') ∧
    mirror_of (this w') destId objectId = None ∧
    (∀ d o, (d, o) ≠ (destId, objectId) →
            mirror_of (this w') d o = mirror_of (this w) d o) ∧
    scene w' = scene w ∧
    emitted w w' =
      match mirror_lookup (this w) destId objectId with
      | Own object =>
          map (λ f, OnRemove f destId objectId object) (onRemoves (this w))
      | Inherited name =>
          map (λ f, OnRemoveInherited f destId objectId name)
              (onRemoves (this w))
      | Undefined => []
      end ∧
    (mirror_lookup (this w) destId objectId = Undefined → w' = w) ∧
    (objectId ∉ Object_prototype →
     removeRemoteObject destId objectId w' = (Normal tt, w')).
Proof.
  intros Hplain. rewrite removeRemoteObject_run.
  rewrite (mirror_lookup_plain _ _ _ Hplain). unfold js_get at 1.
  destruct (remoteObjectTable (this w) !! destId) as [objects|] eqn:Hpeer.
  - assert (Hframe : ∀ events,
      mirror_of (this (with_remote w (<[destId := delete objectId objects]>
                                        (remoteObjectTable (this w))) events))
                destId objectId = None ∧
      (∀ d o, (d, o) ≠ (destId, objectId) →
              mirror_of (this (with_remote w
                                 (<[destId := delete objectId objects]>
                                    (remoteObjectTable (this w))) events)) d o
              = mirror_of (this w) d o) ∧
      (objectId ∉ Object_prototype →
       removeRemoteObject destId objectId
         (with_remote w (<[destId := delete objectId objects]>
                           (remoteObjectTable (this w))) events)
       = (Normal tt,
          with_remote w (<[destId := delete objectId objects]>
                           (remoteObjectTable (this w))) events))).
    { intros events. unfold with_remote. cbn [this]. split_and!.
      - rewrite mirror_of_set_remoteObjectTable, lookup_insert_eq. simpl.
        apply lookup_delete_eq.
      - intros d o Hne. rewrite mirror_of_set_remoteObjectTable.
        unfold mirror_of. destruct (decide (d = destId)) as [->|Hd].
        + rewrite lookup_insert_eq, Hpeer. simpl.
          rewrite lookup_delete_ne by congruence. done.
        + by rewrite lookup_insert_ne.
      - intros Hname. rewrite removeRemoteObject_run.
        cbn [this remoteObjectTable set_remoteObjectTable].
        rewrite (js_get_Some _ _ (delete objectId objects))
          by apply lookup_insert_eq.
        assert (js_get (delete objectId objects) objectId = Undefined) as ->
          by (apply js_get_Undefined; split; [apply lookup_delete_eq|done]).
        done. }
    destruct (js_get objects objectId) as [object|name|] eqn:Hobject.
    + destruct (Hframe (remove_calls (this w) destId (objectId, object)))
        as (Hgone & Hothers & Hagain).
      eexists. split; [reflexivity|].
      split_and!; [done|done|done|by apply emitted_app|discriminate|done].
    + destruct (Hframe (map (λ f, OnRemoveInherited f destId objectId name)
                            (onRemoves (this w))))
        as (Hgone & Hothers & Hagain).
      eexists. split; [reflexivity|].
      split_and!; [done|done|done|by apply emitted_app|discriminate|done].
    + apply js_get_Undefined in Hobject as [Hnone Hname].
      exists w. split_and!; try done.
      * unfold mirror_of. by rewrite Hpeer.
      * apply emitted_refl.
      * intros _. rewrite removeRemoteObject_run.
        rewrite (js_get_Some _ _ _ Hpeer).
        assert (js_get objects objectId = Undefined) as ->
          by by apply js_get_Undefined.
        done.
  - destruct Hplain as [[? ?]|Hname]; [congruence|].
    rewrite decide_False by done.
    exists w. split_and!; try done.
    + unfold mirror_of. by rewrite Hpeer.
    + apply emitted_refl.
    + intros _. rewrite removeRemoteObject_run.
      assert (js_get (remoteObjectTable (this w)) destId = Undefined) as ->
        by by apply js_get_Undefined.
      done.
Qed.

Lemma removeRemoteObject_retracts_witness :
  plain_peer (this Example.registered) "P" ∧
  (∃ w',
     removeRemoteObject "P" "x" Example.registered = (Normal tt, w') ∧
     mirror_of (this w') "P" "x" = None ∧
     mirror_of (this w') "P" "y" = Some "m2" ∧
     emitted Example.registered w' =
       [OnRemove 0 "P" "x" "m1"; OnRemove 1 "P" "x" "m1"] ∧
     removeRemoteObject "P" "x" w' = (Normal tt, w')) ∧
  ∃ w',
    removeRemoteObject "P" "constructor" Example.registered = (Normal tt, w') ∧
    emitted Example.registered w' =
      [OnRemoveInherited 0 "P" "constructor" "constructor";
       OnRemoveInherited 1 "P" "constructor" "constructor"].
Proof.
  assert (Hplain : plain_peer (this Example.registered) "P")
    by (right; by_compute).
  split; [exact Hplain|]. split.
  - destruct (removeRemoteObject_retracts Example.registered "P" "x" Hplain)
      as (w' & Hrun & Hgone & Hothers & _ & Hlog & _ & Hagain).
    exists w'. split_and!; [done|done| |done|].
    + rewrite (Hothers "P" "y") by discriminate. by vm_compute.
    + apply Hagain. by_compute.
  - destruct (removeRemoteObject_retracts Example.registered "P" "constructor"
                Hplain) as (w' & Hrun & _ & _ & _ & Hlog & _).
    exists w'. split; [done|]. rewrite Hlog. by vm_compute.
Defined.

(** X11. Mirroring an object that was not mirrored and retracting it
    again, for a peer that has a table or whose id names no inherited
    property and an object id that names no inherited property, gives the
    registry back as it was -- but for an empty table left for a peer that
    had none -- and the scene unchanged; each 'remove' listener has been
    called once with the mirror. *)
Theorem addRemoteObject_removeRemoteObject
    (w : World) (destId objectId object : string) :
  plain_peer (this w) destId →
  mirror_of (this w) destId objectId = None →
  objectId ∉ Object_prototype →
  ∃ w',
    (addRemoteObject destId objectId object ;;
     removeRemoteObject destId objectId) w = (Normal tt, w') ∧
    this w' =
      match remoteObjectTable (this w) !! destId with
      | Some _ => this w
      | None => set_remoteObjectTable <[destId := ∅]> (this w)
      end ∧
    scene w' = scene w ∧
    emitted w w' =
      map (λ f, OnRemove f destId objectId object) (onRemoves (this w)).
Proof.
  intros Hplain Hnew Hname. rewrite bind_run, addRemoteObject_run.
  unfold mirror_of in Hnew. unfold js_get at 1.
  destruct (remoteObjectTable (this w) !! destId) as [objects|] eqn:Hpeer;
    cbn [mbind option_bind] in Hnew.
  - assert (js_get objects objectId = Undefined) as ->
      by by apply js_get_Undefined.
    cbn [defined].
    rewrite (removeRemoteObject_mirrored destId objectId
               (<[objectId := object]> objects) object);
      cbn [this remoteObjectTable set_remoteObjectTable];
      [|apply lookup_insert_eq..].
    eexists. split; [reflexivity|]. unfold with_remote.
    cbn [this scene log remoteObjectTable set_remoteObjectTable onRemoves].
    split_and!; [|done|by apply emitted_app].
    rewrite insert_insert_eq, delete_insert_eq.
    rewrite delete_id by done. rewrite insert_id by done.
    by destruct w as [[] ? ?].
  - destruct Hplain as [[? ?]|Hplain]; [congruence|].
    rewrite decide_False by done. rewrite decide_False by done.
    rewrite (removeRemoteObject_mirrored destId objectId
               {[ objectId := object ]} object);
      cbn [this remoteObjectTable set_remoteObjectTable];
      [|apply lookup_insert_eq|apply lookup_singleton_eq].
    eexists. split; [reflexivity|]. unfold with_remote.
    cbn [this scene log remoteObjectTable set_remoteObjectTable onRemoves].
    split_and!; [|done|by apply emitted_app].
    rewrite insert_insert_eq, delete_singleton_eq.
    by destruct w as [[] ? ?].
Qed.

Lemma addRemoteObject_removeRemoteObject_witness :
  plain_peer (this Example.registered) "P" ∧
  mirror_of (this Example.registered) "P" "z" = None ∧
  ∃ w',
    (addRemoteObject "P" "z" "m3" ;; removeRemoteObject "P" "z")
      Example.registered = (Normal tt, w') ∧
    this w' = this Example.registered ∧
    emitted Example.registered w' =
      [OnRemove 0 "P" "z" "m3"; OnRemove 1 "P" "z" "m3"].
Proof.
  assert (Hplain : plain_peer (this Example.registered) "P")
    by (right; by_compute).
  assert (Hnew : mirror_of (this Example.registered) "P" "z" = None)
    by (vm_compute; reflexivity).
  split_and!; [exact Hplain|exact Hnew|].
  destruct (addRemoteObject_removeRemoteObject Example.registered
              "P" "z" "m3" Hplain Hnew ltac:(by_compute))
    as (w' & Hrun & Hthis & _ & Hlog).
  exists w'. split_and!; [done| |done].
  rewrite Hthis.
  destruct (remoteObjectTable (this Example.registered) !! "P") eqn:E;
    [done|vm_compute in E; discriminate].
Defined.

(** ** Incoming messages *)

Section Receive.

Lemma listeners_run {A} (pick : RemoteSync → list A) (g : A → Event) w :
  (fs ← gets (λ w, pick (this w)); forEach fs (λ f, emit (g f))) w =
    (Normal tt, {| this := this w; scene := scene w;
                   log := log w ++ map g (pick (this w)) |}).
Proof. rewrite bind_run. unfold gets. apply forEach_emit. Qed.

Lemma invokeReceiveListeners_run component w :
  invokeReceiveListeners component w =
    (Normal tt, {| this := this w; scene := scene w;
                   log := log w ++ receive_calls (this w) component |}).
Proof. apply (listeners_run onReceives). Qed.

Lemma handleAddRequest_run destId list w :
  handleAddRequest destId list w =
    (Normal tt, {| this := this w; scene := scene w;
                   log := log w ++ add_calls (this w) destId list |}).
Proof.
  unfold handleAddRequest, add_calls, mirror_lookup. rewrite bind_run.
  unfold gets.
  generalize (js_get (remoteObjectTable (this w)) destId). intros objects.
  assert (Hloop : ∀ (self : RemoteSync) sc lg,
    forEach list (λ record,
      if defined (get_in objects (add_id record)) then mret tt
      else invokeAddListeners destId (add_id record) (add_info record))
      {| this := self; scene := sc; log := lg |} =
    (Normal tt,
     {| this := self; scene := sc;
        log := lg ++ flat_map (λ record,
          if defined (get_in objects (add_id record)) then []
          else map (λ f, OnAdd f destId (add_id record) (add_info record))
                   (onAdds self)) list |})).
  { induction list as [|record list IH]; intros self sc lg; simpl.
    - js_run. by rewrite app_nil_r.
    - rewrite bind_run.
      destruct (defined (get_in objects (add_id record))).
      + unfold mret at 1, JS_ret at 1. by rewrite IH.
      + unfold invokeAddListeners.
        rewrite (listeners_run onAdds). cbn [this scene log].
        by rewrite IH, <- app_assoc. }
  destruct w as [self sc lg]. apply Hloop.
Qed.

Lemma onClientReceive_ignored component did w :
  msg_did component = Some did → rs_id (this w) ≠ did →
  onClientReceive component w = (Normal tt, w).
Proof.
  intros Hdid Hne. unfold onClientReceive. rewrite bind_run. unfold gets.
  rewrite Hdid. simpl. by rewrite bool_decide_eq_true_2.
Qed.

Lemma onClientReceive_accepted component w :
  msg_did component = None ∨ msg_did component = Some (rs_id (this w)) →
  onClientReceive component w =
    ((match msg_list component with
      | SyncList list => handleSyncRequest (msg_id component) list
      | AddList list => handleAddRequest (msg_id component) list
      | RemoveList list => handleRemoveRequest (msg_id component) list
      | UserDataList data => invokeReceiveUserDataListeners data
      | UnknownList type =>
          emit (ConsoleLog ("THREE.RemoteSync: Unknown type " +:+ pretty type))
      end) ;; invokeReceiveListeners component) w.
Proof.
  intros Hdid. unfold onClientReceive. rewrite bind_run. unfold gets at 1.
  destruct Hdid as [->| ->]; simpl; [done|].
  by rewrite bool_decide_eq_false_2 by (intros H; by apply H).
Qed.


End Receive.

(** X12. An ADD message from a peer that has a table here, or whose id
    names no inherited property, never changes the registry or the scene:
    for each record in turn whose lookup in the table of the sender yields
    [undefined], every 'add' listener is called once with the sender, the
    object id and the info; the other records -- those of mirrored
    objects, and those whose id names a property that every object
    inherits when the sender has a table -- are passed over.  So once the
    application has called [addRemoteObject] for an object, a repeated ADD
    for it is silent. *)
Theorem handleAddRequest_announces
    (w : World) (destId : string) (list : list AddRecord) :
  plain_peer (this w) destId →
  ∃ w',
    handleAddRequest destId list w = (Normal tt, w') ∧
    this w' = this w ∧
    scene w' = scene w ∧
    emitted w w' =
      flat_map (λ record,
        match remoteObjectTable (this w) !! destId with
        | Some objects =>
            if defined (js_get objects (add_id record)) then []
            else map (λ f, OnAdd f destId (add_id record) (add_info record))
                     (onAdds (this w))
        | None => map (λ f, OnAdd f destId (add_id record) (add_info record))
                      (onAdds (this w))
        end) list ∧
    ((∀ record, record ∈ list →
                is_Some (mirror_of (this w) destId (add_id record))) →
     emitted w w' = []) ∧
    ∀ objectId object info,
      ∃ w1 w2,
        addRemoteObject destId objectId object w = (Normal tt, w1) ∧
        handleAddRequest destId [ {| add_id := objectId; add_info := info |} ] w1
          = (Normal tt, w2) ∧
        emitted w1 w2 = [].
Proof.
  intros Hplain. rewrite handleAddRequest_run. eexists.
  split; [reflexivity|]. cbn [this scene log].
  assert (Hlog : emitted w {| this := this w; scene := scene w;
                             log := log w ++ add_calls (this w) destId list |}
                 = add_calls (this w) destId list) by by apply emitted_app.
  rewrite Hlog. clear Hlog. split_and!; [done|done| | |].
  - unfold add_calls. apply flat_map_ext. intros record.
    rewrite (mirror_lookup_plain _ _ _ Hplain).
    by destruct (remoteObjectTable (this w) !! destId).
  - intros Hall. unfold add_calls.
    induction list as [|record list IH]; [done|]. simpl.
    destruct (Hall record ltac:(left)) as [object Hobject].
    rewrite (mirror_lookup_Own _ _ _ _ Hobject). simpl.
    apply IH. intros r Hr. apply Hall. by right.
  - intros objectId object info.
    assert (Hmirrored : ∃ w1,
      addRemoteObject destId objectId object w = (Normal tt, w1) ∧
      defined (mirror_lookup (this w1) destId objectId) = true).
    { rewrite addRemoteObject_run. unfold mirror_lookup, js_get at 1.
      destruct (remoteObjectTable (this w) !! destId) as [objects|] eqn:Hpeer.
      - destruct (defined (js_get objects objectId)) eqn:Hdef.
        + exists w. split; [done|]. by rewrite (js_get_Some _ _ _ Hpeer).
        + eexists. split; [reflexivity|].
          cbn [this remoteObjectTable set_remoteObjectTable].
          rewrite (js_get_Some _ _ (<[objectId := object]> objects))
            by apply lookup_insert_eq.
          cbn [get_in].
          by rewrite (js_get_Some _ _ object) by apply lookup_insert_eq.
      - destruct Hplain as [[? ?]|Hname]; [congruence|].
        rewrite decide_False by done. eexists. split; [reflexivity|].
        cbn [this remoteObjectTable set_remoteObjectTable].
        destruct (decide (objectId ∈ Object_prototype)) as [Hin|Hout].
        + rewrite (js_get_Some _ _ ∅) by apply lookup_insert_eq.
          cbn [get_in]. unfold js_get. rewrite lookup_empty.
          by rewrite decide_True.
        + rewrite (js_get_Some _ _ {[ objectId := object ]})
            by apply lookup_insert_eq.
          cbn [get_in].
          by rewrite (js_get_Some _ _ object) by apply lookup_singleton_eq. }
    destruct Hmirrored as (w1 & Hrun & Hdef).
    exists w1. eexists. split; [done|].
    rewrite handleAddRequest_run. split; [reflexivity|].
    apply emitted_app. cbn [log]. unfold add_calls. simpl. by rewrite Hdef.
Qed.

Lemma handleAddRequest_announces_witness :
  plain_peer (this Example.registered) "P" ∧
  (∃ w',
     handleAddRequest "P"
       [ {| add_id := "x"; add_info := None |};
         {| add_id := "constructor"; add_info := None |};
         {| add_id := "z"; add_info := Some (InfoObject [("type", "mesh")]) |} ]
       Example.registered = (Normal tt, w') ∧
     this w' = this Example.registered ∧
     emitted Example.registered w' =
       [OnAdd 0 "P" "z" (Some (InfoObject [("type", "mesh")]))]) ∧
  ∃ w2,
    handleAddRequest "P" [ {| add_id := "x"; add_info := None |} ]
      Example.registered = (Normal tt, w2) ∧
    emitted Example.registered w2 = [].
Proof.
  assert (Hplain : plain_peer (this Example.registered) "P")
    by (right; by_compute).
  split; [exact Hplain|].
  destruct (handleAddRequest_announces Example.registered "P"
              [ {| add_id := "x"; add_info := None |};
                {| add_id := "constructor"; add_info := None |};
                {| add_id := "z";
                   add_info := Some (InfoObject [("type", "mesh")]) |} ] Hplain)
    as (w' & Hrun & Hthis & _ & Hlog & _ & _).
  destruct (handleAddRequest_announces Example.registered "P"
              [ {| add_id := "x"; add_info := None |} ] Hplain)
    as (w2 & Hrun2 & _ & _ & _ & Hsilent & _).
  split.
  - exists w'. split_and!; [done|done|].
    rewrite Hlog. by vm_compute.
  - exists w2. split; [done|]. apply Hsilent.
    intros record ->%list_elem_of_singleton. vm_compute. by eexists.
Defined.

(** X13. A REMOVE message that is addressed to this peer or to all never
    retracts a mirror and never calls a 'remove' listener.  When the
    lookup of the sender in the table of tables yields [undefined], or the
    message lists nothing, the handler returns normally and the 'receive'
    listeners are called with the message; otherwise -- the sender has a
    table, or its id names a property that every object inherits --
    [handleRemoveRequest] throws the ReferenceError at the first record
    and the world is left as it was, the 'receive' listeners not being
    called. *)
Theorem REMOVE_message_never_retracts
    (w : World) (component : Message) (records : list string) :
  msg_list component = RemoveList records →
  msg_did component = None ∨ msg_did component = Some (rs_id (this w)) →
  onClientReceive component w =
    if defined (js_get (remoteObjectTable (this w)) (msg_id component))
       && bool_decide (records ≠ [])
    then (Throw (ReferenceError "objests"), w)
    else (Normal tt, {| this := this w; scene := scene w;
                        log := log w ++ receive_calls (this w) component |}).
Proof.
  intros Hlist Hdid. rewrite onClientReceive_accepted by done.
  rewrite Hlist, bind_run. unfold handleRemoveRequest at 1.
  rewrite bind_run. unfold gets at 1.
  destruct (defined (js_get (remoteObjectTable (this w)) (msg_id component))).
  - destruct records as [|objectId records].
    + cbn [forEach andb]. rewrite bool_decide_eq_false_2 by (intros H; by apply H).
      unfold mret at 1, JS_ret at 1. apply invokeReceiveListeners_run.
    + cbn [forEach andb]. rewrite bool_decide_eq_true_2 by done.
      rewrite bind_run. unfold resolve_identifier.
      by rewrite bind_run, lookup_singleton_ne.
  - cbn [andb]. unfold mret at 1, JS_ret at 1.
    apply invokeReceiveListeners_run.
Qed.

Lemma REMOVE_message_never_retracts_witness :
  onClientReceive (Example.message (RemoveList ["x"])) Example.registered
    = (Throw (ReferenceError "objests"), Example.registered) ∧
  onClientReceive
    {| msg_id := "constructor"; msg_did := None; msg_list := RemoveList ["x"] |}
    Example.registered
    = (Throw (ReferenceError "objests"), Example.registered) ∧
  ∃ w',
    onClientReceive
      {| msg_id := "Q"; msg_did := None; msg_list := RemoveList ["x"] |}
      Example.registered = (Normal tt, w') ∧
    this w' = this Example.registered ∧
    emitted Example.registered w' =
      [OnReceive 0
         {| msg_id := "Q"; msg_did := None; msg_list := RemoveList ["x"] |}].
Proof.
  pose proof (REMOVE_message_never_retracts Example.registered
                (Example.message (RemoveList ["x"])) ["x"] eq_refl
                ltac:(by left)) as H1.
  pose proof (REMOVE_message_never_retracts Example.registered
                {| msg_id := "constructor"; msg_did := None;
                   msg_list := RemoveList ["x"] |} ["x"] eq_refl
                ltac:(by left)) as H2.
  pose proof (REMOVE_message_never_retracts Example.registered
                {| msg_id := "Q"; msg_did := None;
                   msg_list := RemoveList ["x"] |} ["x"] eq_refl
                ltac:(by left)) as H3.
  assert (Hd1 : defined (js_get (remoteObjectTable (this Example.registered))
                           (msg_id (Example.message (RemoveList ["x"])))) = true)
    by (vm_compute; reflexivity).
  assert (Hd2 : defined (js_get (remoteObjectTable (this Example.registered))
                           "constructor") = true)
    by (vm_compute; reflexivity).
  assert (Hd3 : defined (js_get (remoteObjectTable (this Example.registered))
                           "Q") = false)
    by (vm_compute; reflexivity).
  rewrite Hd1 in H1. cbn [msg_id] in H2, H3. rewrite Hd2 in H2.
  rewrite Hd3 in H3. cbn [andb] in H3.
  rewrite bool_decide_eq_true_2 in H1, H2 by done. cbn [andb] in H1, H2.
  split_and!; [exact H1|exact H2|].
  eexists. split; [exact H3|]. split; [reflexivity|].
  apply emitted_app. reflexivity.
Defined.



Lemma sendUserData_run buffer destId data w :
  sendUserData buffer destId data w =
    (Normal tt,
     {| this := this w; scene := scene w;
        log := log w ++
          [ClientSend destId
             {| msg_id := rs_id (this w); msg_did := Some destId;
                msg_list := UserDataList data |}] |}).
Proof. reflexivity. Qed.

Lemma broadcastUserData_run buffer data w :
  broadcastUserData buffer data w =
    (Normal tt,
     {| this := this w; scene := scene w;
        log := log w ++
          [ClientBroadcast
             {| msg_id := rs_id (this w); msg_did := None;
                msg_list := UserDataList data |}] |}).
Proof. reflexivity. Qed.

(** X15. User data sent to one peer reaches that peer only, and broadcast
    user data reaches every peer.  Whatever the previous message left in
    the buffer, [sendUserData] hands the client one message for [destId]
    carrying the data; a peer with another id that receives it ignores it
    altogether, while the peer [destId] -- and any peer, for the message of
    [broadcastUserData] -- calls each 'receive_user_data' listener with the
    data, then each 'receive' listener with the message, and changes
    neither its registry nor its scene. *)
Theorem user_data_reaches_addressee
    (buffer : Message) (wA wB : World) (destId : string) (data : Info) :
  ∃ wA' wA'' m m',
    sendUserData buffer destId data wA = (Normal tt, wA') ∧
    emitted wA wA' = [ClientSend destId m] ∧
    this wA' = this wA ∧
    m = {| msg_id := rs_id (this wA); msg_did := Some destId;
           msg_list := UserDataList data |} ∧
    broadcastUserData buffer data wA = (Normal tt, wA'') ∧
    emitted wA wA'' = [ClientBroadcast m'] ∧
    this wA'' = this wA ∧
    m' = {| msg_id := rs_id (this wA); msg_did := None;
            msg_list := UserDataList data |} ∧
    (rs_id (this wB) ≠ destId → onClientReceive m wB = (Normal tt, wB)) ∧
    (rs_id (this wB) = destId →
     ∃ wB',
       onClientReceive m wB = (Normal tt, wB') ∧
       this wB' = this wB ∧
       scene wB' = scene wB ∧
       emitted wB wB' =
         map (λ f, OnReceiveUserData f data) (onReceiveUserDatas (this wB)) ++
         receive_calls (this wB) m) ∧
    ∃ wB',
      onClientReceive m' wB = (Normal tt, wB') ∧
      this wB' = this wB ∧
      scene wB' = scene wB ∧
      emitted wB wB' =
        map (λ f, OnReceiveUserData f data) (onReceiveUserDatas (this wB)) ++
        receive_calls (this wB) m'.
Proof.
  assert (Hdeliver : ∀ m0,
    msg_did m0 = None ∨ msg_did m0 = Some (rs_id (this wB)) →
    msg_list m0 = UserDataList data →
    ∃ wB',
      onClientReceive m0 wB = (Normal tt, wB') ∧
      this wB' = this wB ∧
      scene wB' = scene wB ∧
      emitted wB wB' =
        map (λ f, OnReceiveUserData f data) (onReceiveUserDatas (this wB)) ++
        receive_calls (this wB) m0).
  { intros m0 Hdid Hlist. rewrite onClientReceive_accepted by done.
    rewrite Hlist, bind_run. unfold invokeReceiveUserDataListeners.
    rewrite (listeners_run onReceiveUserDatas), invokeReceiveListeners_run.
    cbn [this scene log]. eexists. split; [reflexivity|].
    cbn [this scene log]. split_and!; [done|done|].
    apply emitted_app. cbn [log]. by rewrite <- app_assoc. }
  rewrite sendUserData_run, broadcastUserData_run.
  eexists _, _, _, _.
  split; [reflexivity|]. cbn [this scene log].
  split_and!; [by apply emitted_app|done|reflexivity|reflexivity|
               by apply emitted_app|done|reflexivity| | |].
  - intros Hother. by eapply onClientReceive_ignored.
  - intros Hme. apply Hdeliver; [right; by rewrite Hme|done].
  - apply Hdeliver; [by left|done].
Qed.

Lemma user_data_reaches_addressee_witness :
  ∃ m,
    emitted Example.registered
      (sendUserData (Example.message (UnknownList (-1))) "P"
         (InfoObject [("chat", "hello")]) Example.registered).2
      = [ClientSend "P" m] ∧
    onClientReceive m Example.registered = (Normal tt, Example.registered) ∧
    ∃ wB',
      onClientReceive m Peer.fresh = (Normal tt, wB') ∧
      emitted Peer.fresh wB' =
        [OnReceiveUserData 0 (InfoObject [("chat", "hello")]);
         OnReceiveUserData 1 (InfoObject [("chat", "hello")]);
         OnReceive 0 m].
Proof.
  destruct (user_data_reaches_addressee (Example.message (UnknownList (-1)))
              Example.registered Example.registered "P"
              (InfoObject [("chat", "hello")]))
    as (wA' & _ & m & _ & Hrun & Hsent & _ & Hm & _ & _ & _ & _ & Hother & _).
  destruct (user_data_reaches_addressee (Example.message (UnknownList (-1)))
              Example.registered Peer.fresh "P"
              (InfoObject [("chat", "hello")]))
    as (_ & _ & m1 & _ & _ & _ & _ & Hm1 & _ & _ & _ & _ & _ & Hmine & _).
  assert (m1 = m) as -> by congruence.
  exists m. rewrite Hrun. split_and!; [done| |].
  - apply Hother. discriminate.
  - destruct (Hmine eq_refl) as (wB' & HrunB & _ & _ & Hlog).
    exists wB'. split; [done|]. rewrite Hlog, Hm. by vm_compute.
Defined.

(** ** From the sender's object to the receiver's mirror *)

Section Propagation.

Lemma copy_float32_full array array2 :
  length array = length array2 →
  copy_float32 array array2 = map ensureFloat32 array2.
Proof.
  intros Hlen. rewrite copy_float32_map. apply list_eq. intros i.
  rewrite !list_lookup_fmap.
  destruct (decide (i < length array2)) as [Hi|Hi].
  - rewrite lookup_seq_lt by lia. simpl. unfold elem_f32.
    destruct (lookup_lt_is_Some_2 array2 i Hi) as [x ->]. reflexivity.
  - rewrite lookup_seq_ge by lia. rewrite lookup_ge_None_2 by lia. reflexivity.
Qed.

Lemma Matrix4_fromArray_16 array :
  length array = 16 → Matrix4_fromArray array = array.
Proof.
  intros Hlen. unfold Matrix4_fromArray. apply list_eq. intros i.
  rewrite list_lookup_fmap.
  destruct (decide (i < 16)) as [Hi|Hi].
  - rewrite lookup_seq_lt by lia. simpl.
    destruct (lookup_lt_is_Some_2 array i ltac:(lia)) as [x ->]. reflexivity.
  - rewrite lookup_seq_ge by lia. rewrite lookup_ge_None_2 by lia. reflexivity.
Qed.

Lemma handleSyncRequest_mirror_run w destId record objects mirror :
  tc_sid record = None →
  remoteObjectTable (this w) !! destId = Some objects →
  objects !! tc_id record = Some mirror →
  handleSyncRequest destId [record] w
    = (Normal tt, deserialized w mirror record).
Proof.
  intros Hsid Hpeer Hmirror. unfold handleSyncRequest.
  rewrite bind_run. unfold gets. cbn [forEach].
  rewrite bind_run. unfold handleSyncRecord.
  rewrite bind_run. unfold gets. cbn [this]. rewrite Hsid.
  rewrite (js_get_Some _ _ _ Hpeer). cbn [get_in].
  rewrite (js_get_Some _ _ _ Hmirror).
  by rewrite bind_run, deserialize_run.
Qed.

End Propagation.

(** X16. The record that [sync] builds for a local object, applied by a
    peer that mirrors the object, makes the mirror's matrix the sender's
    matrix seen as Float32, channel by channel -- for a sixteen-entry
    matrix and component -- and, when the mirror has morph target
    influences, puts the sender's influences, as Float32, over the first
    of them.  Nothing else changes at the receiver: no other object, no
    registry entry, no transfer component, and nothing is sent back. *)
Theorem sync_record_reaches_mirror
    (wA wB : World) (u mirror : string) (c : TransferComponent)
    (objects : gmap string string) :
  transferComponents (this wA) !! u = Some c →
  tc_id c = u → tc_sid c = None →
  length (tc_matrix c) = 16 →
  length (matrix_elements (scene wA u)) = 16 →
  remoteObjectTable (this wB) !! rs_id (this wA) = Some objects →
  objects !! u = Some mirror →
  ∃ wB',
    handleSyncRequest (rs_id (this wA)) [serialized c (scene wA u)] wB
      = (Normal tt, wB') ∧
    matrix_elements (scene wB' mirror)
      = map ensureFloat32 (matrix_elements (scene wA u)) ∧
    (∀ influences influences',
       morphTargetInfluences (scene wA u) = Some influences →
       morphTargetInfluences (scene wB mirror) = Some influences' →
       length (tc_morphTargetInfluences c) = length influences →
       0 < length influences →
       morphTargetInfluences (scene wB' mirror)
         = Some (map ensureFloat32 influences ++
                 drop (length influences) influences')) ∧
    (morphTargetInfluences (scene wB mirror) = None →
     morphTargetInfluences (scene wB' mirror) = None) ∧
    (∀ v, v ≠ mirror → scene wB' v = scene wB v) ∧
    this wB' = this wB ∧
    log wB' = log wB.
Proof.
  intros Hc Hid Hsid Hlen Hlen' Hpeer Hmirror.
  rewrite (handleSyncRequest_mirror_run wB _ _ objects mirror);
    [|done|done|cbn [serialized tc_id]; by rewrite Hid].
  eexists. split; [reflexivity|].
  unfold deserialized. cbn [this scene log].
  rewrite fn_lookup_insert. cbn [matrix_elements morphTargetInfluences].
  split_and!; try done.
  - cbn [serialized tc_matrix].
    rewrite copy_float32_full by congruence.
    apply Matrix4_fromArray_16. by rewrite length_map.
  - intros influences influences' HA HB Hl Hpos. rewrite HB.
    cbn [serialized tc_morphTargetInfluences]. rewrite HA.
    rewrite copy_float32_full by done.
    rewrite decide_True by (rewrite length_map; lia).
    by rewrite copy_into_app, length_map.
  - by intros ->.
  - intros v Hv. by rewrite fn_lookup_insert_ne.
Qed.

Lemma sync_record_reaches_mirror_witness :
  ∃ c wB',
    transferComponents (this Example.a_moved) !! "a" = Some c ∧
    mirror_of (this Peer.mirroring) "me" "a" = Some "ma" ∧
    handleSyncRequest "me" [serialized c (scene Example.a_moved "a")]
      Peer.mirroring = (Normal tt, wB') ∧
    matrix_elements (scene wB' "ma") = map ensureFloat32 Example.moved ∧
    scene wB' "s" = scene Peer.mirroring "s" ∧
    this wB' = this Peer.mirroring.
Proof.
  destruct (transferComponents (this Example.a_moved) !! "a") as [c|] eqn:Hc;
    [|vm_compute in Hc; discriminate].
  assert (Hpeer : remoteObjectTable (this Peer.mirroring)
                    !! rs_id (this Example.a_moved) = Some {[ "a" := "ma" ]})
    by (vm_compute; reflexivity).
  assert (Hmirror : ({[ "a" := "ma" ]} : gmap string string) !! "a" = Some "ma")
    by (vm_compute; reflexivity).
  assert (Hc' := Hc). vm_compute in Hc'. injection Hc' as Hc'.
  destruct (sync_record_reaches_mirror Example.a_moved Peer.mirroring
              "a" "ma" c {[ "a" := "ma" ]} Hc)
    as (wB' & Hrun & Hmatrix & _ & _ & Hothers & Hthis & _);
    [rewrite <- Hc'; reflexivity..|reflexivity|exact Hpeer|exact Hmirror|].
  exists c, wB'. split_and!; [done|by vm_compute|exact Hrun|exact Hmatrix| |done].
  by apply Hothers.
Defined.

(** ** sync on a registry that lost a transfer component *)

Section Missing_component.

Lemma with_components_with_components (w : World)
    (tc1 tc2 : gmap string TransferComponent) :
  with_components (with_components w tc1) tc2 = with_components w tc2.
Proof. reflexivity. Qed.

(** One turn of the scan of [sync]. *)
Lemma sync_visit_run (force : bool) (x : string) (w : World) :
  (update ← (if force then mret true else checkUpdate x);
   if update : bool then c0 ← serialize x; mret (Some c0) else mret None) w =
  match transferComponents (this w) !! x with
  | None => (Throw no_component, w)
  | Some c =>
      if force || changed c (scene w x)
      then (Normal (Some (serialized c (scene w x))),
            with_components w (<[x := serialized c (scene w x)]>
                                 (transferComponents (this w))))
      else (Normal None, w)
  end.
Proof.
  rewrite bind_run. destruct force.
  - unfold mret at 1, JS_ret at 1. rewrite bind_run, serialize_run.
    by destruct (transferComponents (this w) !! x).
  - rewrite checkUpdate_run.
    destruct (transferComponents (this w) !! x) as [c|] eqn:Hc; [|done].
    cbn [orb]. destruct (changed c (scene w x)); [|done].
    by rewrite bind_run, serialize_run, Hc.
Qed.

Lemma sync_scan_cons force x l w :
  sync_scan force (x :: l) w =
    match transferComponents (this w) !! x with
    | None => (Throw no_component, w)
    | Some c =>
        if force || changed c (scene w x)
        then
          match sync_scan force l
                  (with_components w (<[x := serialized c (scene w x)]>
                                        (transferComponents (this w)))) with
          | (Normal rest, w') => (Normal (serialized c (scene w x) :: rest), w')
          | (Throw e, w') => (Throw e, w')
          end
        else sync_scan force l w
    end.
Proof.
  unfold sync_scan at 1. cbn [collect]. rewrite bind_run, sync_visit_run.
  destruct (transferComponents (this w) !! x) as [c|]; [|done].
  destruct (force || changed c (scene w x)).
  - rewrite bind_run. fold (sync_scan force l).
    by destruct (sync_scan force l _) as [[rest|e] w'].
  - rewrite bind_run. fold (sync_scan force l).
    by destruct (sync_scan force l w) as [[rest|e] w'].
Qed.

(** The scan stops with a TypeError at the first object that has no
    transfer component; the components written before are kept. *)
Lemma sync_scan_throws force l : ∀ w u,
  u ∈ l → transferComponents (this w) !! u = None →
  ∃ tc',
    sync_scan force l w = (Throw no_component, with_components w tc') ∧
    ∀ v, is_Some (tc' !! v) ↔ is_Some (transferComponents (this w) !! v).
Proof.
  induction l as [|x l IH]; intros w u Hu Hnone.
  - by apply elem_of_nil in Hu.
  - rewrite sync_scan_cons.
    destruct (transferComponents (this w) !! x) as [c|] eqn:Hx.
    + assert (Hin : u ∈ l).
      { apply elem_of_cons in Hu as [->|?]; [congruence|done]. }
      destruct (force || changed c (scene w x)).
      * set (w1 := with_components w _).
        destruct (IH w1 u Hin) as (tc' & Hrun & Hsome).
        { subst w1. cbn [this with_components transferComponents
                         set_transferComponents].
          rewrite lookup_insert_ne; [done|]. intros ->. congruence. }
        exists tc'. rewrite Hrun. split; [done|]. intros v.
        rewrite Hsome. subst w1.
        cbn [this with_components transferComponents set_transferComponents].
        destruct (decide (x = v)) as [->|Hne].
        -- rewrite lookup_insert_eq, Hx. split; by eexists.
        -- by rewrite lookup_insert_ne.
      * by apply (IH w u).
    + exists (transferComponents (this w)). by rewrite with_components_id.
Qed.

(** The scan on objects that all have their component. *)
Lemma sync_scan_present force l w :
  (∀ u, u ∈ l → is_Some (transferComponents (this w) !! u)) →
  sync_scan force l w =
    (Normal (scan force (scene w) (transferComponents (this w)) l).1,
     with_components w (scan force (scene w) (transferComponents (this w)) l).2).
Proof.
  intros Hall.
  pose proof (sync_scan_run force w l (transferComponents (this w)) Hall) as H.
  by rewrite with_components_id in H.
Qed.

Lemma sync_throws force onlyLocal w u :
  u ∈ sync_scope onlyLocal (this w) →
  transferComponents (this w) !! u = None →
  ∃ tc',
    sync force onlyLocal w = (Throw no_component, with_components w tc') ∧
    ∀ v, is_Some (tc' !! v) ↔ is_Some (transferComponents (this w) !! v).
Proof.
  intros Hu Hnone. unfold sync. rewrite bind_run. unfold gets at 1.
  rewrite bind_run.
  destruct (decide (Forall (λ v, is_Some (transferComponents (this w) !! v))
                           (localObjects (this w)))) as [Hall|Hnot].
  - rewrite Forall_forall in Hall.
    assert (Hshared : u ∈ sharedObjects (this w) ∧ onlyLocal = false).
    { unfold sync_scope in Hu. apply elem_of_app in Hu as [Hu|Hu].
      - apply Hall in Hu. rewrite Hnone in Hu. by destruct Hu.
      - destruct onlyLocal; [by apply elem_of_nil in Hu|done]. }
    destruct Hshared as [Hu' ->].
    rewrite sync_scan_present by done. rewrite bind_run.
    set (tc1 := (scan force _ _ _).2).
    destruct (sync_scan_throws force (sharedObjects (this w))
                (with_components w tc1) u Hu') as (tc' & Hrun & Hsome).
    { cbn [this with_components transferComponents set_transferComponents].
      apply eq_None_not_Some. subst tc1. rewrite scan_is_Some, Hnone.
      by intros [? ?]. }
    cbn [this with_components sharedObjects set_transferComponents] in Hrun.
    exists tc'. rewrite Hrun. split; [done|]. intros v. rewrite Hsome.
    cbn [this with_components transferComponents set_transferComponents].
    subst tc1. apply scan_is_Some.
  - apply not_Forall_Exists in Hnot; [|apply _].
    apply Exists_exists in Hnot as (v & Hv & Hmiss).
    destruct (sync_scan_throws force (localObjects (this w)) w v Hv)
      as (tc' & Hrun & Hsome).
    { by apply eq_None_not_Some. }
    exists tc'. by rewrite Hrun.
Qed.

Lemma removeLocalObject_run object w :
  removeLocalObject object w =
    match localObjectTable (this w) !! object with
    | None => (Normal tt, w)
    | Some _ =>
        (Normal tt,
         {| this :=
              set_localObjects (λ l, removeObjectFromArray l object)
                (set_transferComponents (delete object)
                   (set_localObjectInfos (delete object)
                      (set_localObjectTable (delete object) (this w))));
            scene := scene w;
            log := log w ++
              if decide (0 < connectionNum (client (this w)))
              then [ClientBroadcast
                      (buildObjectRemovalComponent (rs_id (this w)) object)]
              else [] |})
    end.
Proof.
  unfold removeLocalObject. rewrite bind_run. unfold gets at 1.
  destruct (localObjectTable (this w) !! object); [|done].
  unfold broadcastRemoveObjectRequest. js_run.
  cbn [client set_localObjects set_transferComponents set_localObjectInfos
       set_localObjectTable].
  destruct (decide (0 < connectionNum (client (this w))));
    cbn [this scene log client rs_id set_localObjects set_transferComponents
         set_localObjectInfos set_localObjectTable].
  - done.
  - by rewrite app_nil_r.
Qed.

End Missing_component.

(** X17. When an object that [sync] scans has no transfer component,
    [sync] throws a TypeError and sends nothing; the scene and the
    registries are as before, and only transfer components written before
    the throw may differ, none appearing or disappearing. *)
Theorem sync_throws_without_component
    (w : World) (force onlyLocal : bool) (u : string) :
  u ∈ sync_scope onlyLocal (this w) →
  transferComponents (this w) !! u = None →
  ∃ w',
    sync force onlyLocal w = (Throw no_component, w') ∧
    emitted w w' = [] ∧
    scene w' = scene w ∧
    same_registries (this w) (this w') ∧
    ∀ v, is_Some (transferComponents (this w') !! v) ↔
         is_Some (transferComponents (this w) !! v).
Proof.
  intros Hu Hnone.
  destruct (sync_throws force onlyLocal w u Hu Hnone) as (tc' & Hrun & Hsome).
  exists (with_components w tc'). split_and!; [done| |done| |done].
  - by apply emitted_same_log.
  - unfold same_registries. cbn [this with_components].
    by destruct w as [[] ? ?].
Qed.

(** X18. Removing a local object that is in the table and in the
    sequence of local objects breaks the [sync] that follows:
    [removeLocalObject] returns normally, having deleted the transfer
    component of the object and left in the local sequence the
    occurrences of the object and nothing else; the [sync] called right
    after it, forced or not, local only or not, throws the TypeError and
    sends nothing. *)
Theorem removeLocalObject_breaks_sync
    (w : World) (object : string) (force onlyLocal : bool) :
  is_Some (localObjectTable (this w) !! object) →
  object ∈ localObjects (this w) →
  ∃ w1 w2,
    removeLocalObject object w = (Normal tt, w1) ∧
    localObjects (this w1)
      = filter (λ x, x = object) (localObjects (this w)) ∧
    object ∈ localObjects (this w1) ∧
    transferComponents (this w1) !! object = None ∧
    sync force onlyLocal w1 = (Throw no_component, w2) ∧
    emitted w1 w2 = [].
Proof.
  intros [o Hreg] Hin. rewrite removeLocalObject_run, Hreg.
  set (w1 := {| this := _; scene := _; log := _ |}).
  assert (Hseq : localObjects (this w1)
                   = filter (λ x, x = object) (localObjects (this w))).
  { subst w1. cbn [this localObjects set_localObjects set_transferComponents
                   set_localObjectInfos set_localObjectTable].
    apply removeObjectFromArray_filter. }
  assert (Hin1 : object ∈ localObjects (this w1)).
  { rewrite Hseq. by apply list_elem_of_filter. }
  assert (Hnone : transferComponents (this w1) !! object = None).
  { subst w1. cbn [this transferComponents set_localObjects
                   set_transferComponents set_localObjectInfos
                   set_localObjectTable].
    apply lookup_delete_eq. }
  destruct (sync_throws force onlyLocal w1 object) as (tc' & Hrun & _).
  { unfold sync_scope. apply elem_of_app. by left. }
  { done. }
  exists w1, (with_components w1 tc'). split_and!; try done.
  by apply emitted_same_log.
Qed.

Lemma removeLocalObject_breaks_sync_witness :
  is_Some (localObjectTable (this Example.registered) !! "o") ∧
  localObjects (this Example.registered) = ["a"; "o"; "b"] ∧
  ∃ w1 w2,
    removeLocalObject "o" Example.registered = (Normal tt, w1) ∧
    localObjects (this w1) = ["o"] ∧
    sync false true w1 = (Throw no_component, w2) ∧
    emitted w1 w2 = [].
Proof.
  assert (Hreg : is_Some (localObjectTable (this Example.registered) !! "o")).
  { destruct (localObjectTable (this Example.registered) !! "o") eqn:E;
      [by eexists|vm_compute in E; discriminate]. }
  assert (Hseq : localObjects (this Example.registered) = ["a"; "o"; "b"])
    by (vm_compute; reflexivity).
  split_and!; [exact Hreg|exact Hseq|].
  destruct (removeLocalObject_breaks_sync Example.registered "o" false true
              Hreg)
    as (w1 & w2 & Hrun & Hseq1 & _ & _ & Hsync & Hlog).
  { rewrite Hseq. apply elem_of_cons. right. by left. }
  exists w1, w2. split_and!; [done| |done|done].
  rewrite Hseq1, Hseq. by vm_compute.
Defined.

Lemma sync_throws_without_component_witness :
  ∃ w1 w',
    removeLocalObject "o" Example.registered = (Normal tt, w1) ∧
    transferComponents (this w1) !! "o" = None ∧
    sync true false w1 = (Throw no_component, w') ∧
    emitted w1 w' = [] ∧
    scene w' = scene w1.
Proof.
  set (w1 := (removeLocalObject "o" Example.registered).2).
  assert (Hrun : removeLocalObject "o" Example.registered = (Normal tt, w1))
    by (vm_compute; reflexivity).
  assert (Hnone : transferComponents (this w1) !! "o" = None)
    by (vm_compute; reflexivity).
  assert (Hin : "o" ∈ sync_scope false (this w1)).
  { assert (Hscope : sync_scope false (this w1) = ["o"; "s"])
      by (vm_compute; reflexivity).
    rewrite Hscope. by left. }
  destruct (sync_throws_without_component w1 true false "o" Hin Hnone)
    as (w' & Hsync & Hlog & Hscene & _).
  exists w1, w'. split_and!; done.
Defined.

(** ** A sync after a sync *)

Section Idle.




(** The ids of the records of a scan follow the scanned sequence. *)
Lemma scan_ids force sc l : ∀ tc,
  (∀ u, u ∈ l → ∃ c, tc !! u = Some c ∧ tc_id c = u) →
  map tc_id (scan force sc tc l).1 `sublist_of` l ∧
  (force = true → map tc_id (scan force sc tc l).1 = l).
Proof.
  induction l as [|x l IH]; intros tc Hall; simpl; [done|].
  destruct (Hall x ltac:(left)) as (cx & Hx & Hidx). rewrite Hx.
  destruct (force || changed cx (sc x)) eqn:Hupdate.
  - destruct (IH (<[x := serialized cx (sc x)]> tc)) as [Hsub Hforced].
    { intros v Hv. destruct (decide (x = v)) as [->|Hne].
      - rewrite lookup_insert_eq. by eexists.
      - rewrite lookup_insert_ne by done. apply Hall. by right. }
    destruct (scan force sc _ l) as [records tc']. cbn [fst map] in *.
    change (tc_id (serialized cx (sc x))) with (tc_id cx). rewrite Hidx. split.
    + by apply sublist_skip.
    + intros Hf. by rewrite Hforced.
  - destruct (IH tc) as [Hsub Hforced].
    { intros v Hv. apply Hall. by right. }
    split; [by apply sublist_cons|].
    intros ->. discriminate.
Qed.

End Idle.



(** X20. The records of a sync follow the scanned sequence.  With every
    transfer component in place, [sync] returns normally and broadcasts
    its records in one message, or nothing when there is none; the ids of
    the records, in order, are a subsequence of the local objects followed
    by the shared ones (the local ones alone with [onlyLocal]), and all of
    it when the sync is forced.  The scene and the registries are as
    before; only transfer components are rewritten. *)
Theorem sync_records_follow_scope (w : World) (force onlyLocal : bool) :
  snapshots_present (this w) →
  ∃ w' records,
    sync force onlyLocal w = (Normal tt, w') ∧
    emitted w w' = sync_broadcast (this w) records ∧
    map tc_id records `sublist_of` sync_scope onlyLocal (this w) ∧
    (force = true → map tc_id records = sync_scope onlyLocal (this w)) ∧
    scene w' = scene w ∧
    same_registries (this w) (this w').
Proof.
  intros Hsnap. rewrite sync_run by done.
  destruct (scan_ids force (scene w) (sync_scope onlyLocal (this w))
              (transferComponents (this w))) as [Hsub Hforced].
  { intros u Hu. by eapply snapshots_present_scope. }
  destruct (scan force (scene w) (transferComponents (this w))
              (sync_scope onlyLocal (this w))) as [records tc'].
  cbn [fst] in *. eexists _, records. split; [reflexivity|].
  cbn [this scene log]. split_and!; [by apply emitted_app|done|done|done|].
  unfold same_registries. by destruct w as [[] ? ?].
Qed.

Lemma sync_records_follow_scope_witness :
  snapshots_present (this Example.registered) ∧
  sync_scope true (this Example.registered) = ["a"; "o"; "b"] ∧
  ∃ w' records,
    sync true true Example.registered = (Normal tt, w') ∧
    emitted Example.registered w' =
      [ClientBroadcast {| msg_id := "me"; msg_did := None;
                          msg_list := SyncList records |}] ∧
    map tc_id records = ["a"; "o"; "b"].
Proof.
  assert (Hscope : sync_scope true (this Example.registered) = ["a"; "o"; "b"])
    by (vm_compute; reflexivity).
  split_and!; [exact registered_snapshots_present|exact Hscope|].
  destruct (sync_records_follow_scope Example.registered true true
              registered_snapshots_present)
    as (w' & records & Hrun & Hlog & _ & Hforced & _).
  specialize (Hforced eq_refl). rewrite Hscope in Hforced.
  exists w', records. split_and!; [done| |done].
  rewrite Hlog. destruct records; [discriminate|reflexivity].
Defined.

(** ** The listeners of a signaling server *)

Section Signaling.

Ltac solve_event_type :=
  cbn [fst];
  first
    [ done
    | by (let Hin := fresh in
          intros Hin; apply Hin; rewrite !elem_of_cons; auto 10)
    | by (rewrite !not_elem_of_cons; split_and!;
          [done..|apply not_elem_of_nil]) ].

Lemma SignalingServer_register_spec (calls : list (string * Listener)) :
  ∀ s0 out0,
    ∃ s,
      foldl (λ acc call,
               let '(s', out) :=
                 SignalingServer.addEventListener call.1 call.2 acc.1 in
               (s', acc.2 ++ out))
            (s0, out0) calls =
        (s, out0 ++
            map (λ call, SignalingServer.Log
                   ("THREE.SignalingServer.addEventListener: Unknown type "
                      +:+ call.1))
                (filter (λ call, call.1 ∉ SignalingServer.event_types) calls)) ∧
      SignalingServer.id s = SignalingServer.id s0 ∧
      SignalingServer.roomId s = SignalingServer.roomId s0 ∧
      SignalingServer.onOpens s =
        SignalingServer.onOpens s0 ++ SignalingServer.registered "open" calls ∧
      SignalingServer.onCloses s =
        SignalingServer.onCloses s0 ++ SignalingServer.registered "close" calls ∧
      SignalingServer.onErrors s =
        SignalingServer.onErrors s0 ++ SignalingServer.registered "error" calls ∧
      SignalingServer.onReceives s =
        SignalingServer.onReceives s0 ++
        SignalingServer.registered "receive" calls ∧
      SignalingServer.onRemoteJoins s =
        SignalingServer.onRemoteJoins s0 ++
        SignalingServer.registered "remote_join" calls.
Proof.
  unfold SignalingServer.registered, SignalingServer.event_types.
  induction calls as [|[type func] calls IH]; intros s0 out0.
  - exists s0. simpl. by rewrite !app_nil_r.
  - cbn [foldl fst snd].
    destruct (SignalingServer.addEventListener type func s0) as [s1 out1] eqn:E.
    destruct (IH s1 (out0 ++ out1))
      as (s & -> & Hid & Hroom & H1 & H2 & H3 & H4 & H5).
    exists s. rewrite Hid, Hroom, H1, H2, H3, H4, H5. clear IH Hid Hroom H1 H2 H3 H4 H5.
    unfold SignalingServer.addEventListener in E.
    repeat case_decide; simplify_eq;
      cbn [SignalingServer.id SignalingServer.roomId SignalingServer.onOpens
           SignalingServer.onCloses SignalingServer.onErrors
           SignalingServer.onReceives SignalingServer.onRemoteJoins].
    all: repeat first
           [ rewrite filter_cons_True by solve_event_type
           | rewrite filter_cons_False by solve_event_type ].
    all: cbn [map snd fst]; rewrite <- ?app_assoc, ?app_nil_r; done.
Qed.

End Signaling.

(** X21. The listeners of a signaling server are called in the order in
    which they were registered.  After any series of [addEventListener]
    calls on a new server, each [invoke...Listeners] calls exactly the
    functions registered under its event type, once per registration and
    in registration order, with the arguments it was given; a
    registration under any other type only writes to the console, and the
    ids of the server are still empty. *)
Theorem SignalingServer_listeners_in_registration_order
    (calls : list (string * Listener)) (id error : string)
    (localTimestamp remoteTimestamp : number) (signal : Info) :
  ∃ s out,
    SignalingServer.register SignalingServer.new calls = (s, out) ∧
    SignalingServer.invokeOpenListeners id s =
      map (λ f, SignalingServer.Open f id)
          (SignalingServer.registered "open" calls) ∧
    SignalingServer.invokeCloseListeners id s =
      map (λ f, SignalingServer.Close f id)
          (SignalingServer.registered "close" calls) ∧
    SignalingServer.invokeErrorListeners error s =
      map (λ f, SignalingServer.Error f error)
          (SignalingServer.registered "error" calls) ∧
    SignalingServer.invokeRemoteJoinListeners id localTimestamp
        remoteTimestamp s =
      map (λ f, SignalingServer.RemoteJoin f id localTimestamp remoteTimestamp)
          (SignalingServer.registered "remote_join" calls) ∧
    SignalingServer.invokeReceiveListeners signal s =
      map (λ f, SignalingServer.Receive f signal)
          (SignalingServer.registered "receive" calls) ∧
    out = map (λ call, SignalingServer.Log
                 ("THREE.SignalingServer.addEventListener: Unknown type "
                    +:+ call.1))
              (filter (λ call, call.1 ∉ SignalingServer.event_types) calls) ∧
    SignalingServer.id s = "" ∧
    SignalingServer.roomId s = "".
Proof.
  unfold SignalingServer.register.
  destruct (SignalingServer_register_spec calls SignalingServer.new [])
    as (s & Hrun & Hid & Hroom & H1 & H2 & H3 & H4 & H5).
  exists s. eexists. split; [exact Hrun|].
  unfold SignalingServer.invokeOpenListeners,
    SignalingServer.invokeCloseListeners, SignalingServer.invokeErrorListeners,
    SignalingServer.invokeRemoteJoinListeners,
    SignalingServer.invokeReceiveListeners.
  rewrite H1, H2, H3, H4, H5. by split_and!.
Qed.

(** ** A shared object on two peers *)

(** X22. Two peers that registered an object under the same shared id
    agree on it after one record.  The record that the sender's [sync]
    builds for its shared object is applied by the receiver to the object
    it bound to the shared id, whatever the uuids: the receiver's matrix
    becomes the sender's matrix seen as Float32, and the receiver's
    transfer component is rewritten to the same sixteen values as the
    record, its uuid and shared id being kept.  Nothing is sent, and no
    other object or transfer component changes. *)
Theorem shared_object_converges
    (wA wB : World) (u object sid : string) (c cB : TransferComponent) :
  transferComponents (this wA) !! u = Some c →
  tc_sid c = Some sid →
  length (tc_matrix c) = 16 →
  length (matrix_elements (scene wA u)) = 16 →
  sharedObjectTable (this wB) !! sid = Some object →
  transferComponents (this wB) !! object = Some cB →
  length (tc_matrix cB) = 16 →
  ∃ wB' cB',
    handleSyncRequest (rs_id (this wA)) [serialized c (scene wA u)] wB
      = (Normal tt, wB') ∧
    matrix_elements (scene wB' object)
      = map ensureFloat32 (matrix_elements (scene wA u)) ∧
    transferComponents (this wB') !! object = Some cB' ∧
    tc_matrix cB' = tc_matrix (serialized c (scene wA u)) ∧
    tc_id cB' = tc_id cB ∧
    tc_sid cB' = tc_sid cB ∧
    log wB' = log wB ∧
    (∀ v, v ≠ object → scene wB' v = scene wB v) ∧
    (∀ v, v ≠ object →
          transferComponents (this wB') !! v = transferComponents (this wB) !! v).
Proof.
  intros Hc Hsid Hlen Hlen' Hshared HcB HlenB.
  rewrite (handleSyncRequest_shared_run wB _ _ sid object cB) by done.
  set (record := serialized c (scene wA u)).
  assert (Hrecord : tc_matrix record
                      = map ensureFloat32 (matrix_elements (scene wA u))).
  { subst record. cbn [serialized tc_matrix]. apply copy_float32_full.
    congruence. }
  assert (Hmatrix : matrix_elements (scene (deserialized wB object record) object)
                      = map ensureFloat32 (matrix_elements (scene wA u))).
  { unfold deserialized. cbn [scene]. rewrite fn_lookup_insert.
    cbn [matrix_elements]. rewrite Hrecord.
    apply Matrix4_fromArray_16. by rewrite length_map. }
  exists (with_components (deserialized wB object record)
            (<[object := serialized cB
                           (scene (deserialized wB object record) object)]>
               (transferComponents (this wB)))),
         (serialized cB (scene (deserialized wB object record) object)).
  split; [reflexivity|].
  cbn [this scene log with_components transferComponents
       set_transferComponents].
  split_and!.
  - exact Hmatrix.
  - apply lookup_insert_eq.
  - cbn [serialized tc_matrix]. rewrite Hmatrix.
    rewrite copy_float32_full by (rewrite length_map; congruence).
    fold (serialized c (scene wA u)). fold record. rewrite Hrecord.
    rewrite <- list_fmap_compose. apply list_fmap_ext.
    intros i x _. apply ensureFloat32_idempotent.
  - reflexivity.
  - reflexivity.
  - reflexivity.
  - intros v Hv. unfold deserialized. cbn [scene].
    by rewrite fn_lookup_insert_ne.
  - intros v Hv. by rewrite lookup_insert_ne.
Qed.

Lemma shared_object_converges_witness :
  ∃ c wB' cB',
    transferComponents (this Example.registered) !! "s" = Some c ∧
    tc_sid c = Some "S" ∧
    handleSyncRequest "me" [serialized c (scene Example.registered "s")]
      Peer.sharing = (Normal tt, wB') ∧
    matrix_elements (scene wB' "t")
      = map ensureFloat32 (matrix_elements (scene Example.registered "s")) ∧
    transferComponents (this wB') !! "t" = Some cB' ∧
    tc_matrix cB' = tc_matrix (serialized c (scene Example.registered "s")) ∧
    tc_id cB' = "t".
Proof.
  destruct (transferComponents (this Example.registered) !! "s") as [c|] eqn:Hc;
    [|vm_compute in Hc; discriminate].
  destruct (transferComponents (this Peer.sharing) !! "t") as [cB|] eqn:HcB;
    [|vm_compute in HcB; discriminate].
  assert (Hc' := Hc). vm_compute in Hc'. injection Hc' as Hc'.
  assert (HcB' := HcB). vm_compute in HcB'. injection HcB' as HcB'.
  assert (Hshared : sharedObjectTable (this Peer.sharing) !! "S" = Some "t")
    by (vm_compute; reflexivity).
  destruct (shared_object_converges Example.registered Peer.sharing
              "s" "t" "S" c cB Hc)
    as (wB' & cB' & Hrun & Hmatrix & Hcomp & Hsame & Hid & _);
    [rewrite <- Hc'; reflexivity..|reflexivity|exact Hshared|exact HcB
    |rewrite <- HcB'; reflexivity|].
  exists c, wB', cB'. split_and!; try done.
  - by rewrite <- Hc'.
  - rewrite Hid, <- HcB'. reflexivity.
Defined.

(** ** A newly registered local object *)

(** X23. A local object that has just been registered is not sent by the
    next sync that is not forced, as long as it has not moved.  When every
    object in the local or the shared sequence has its transfer component,
    after [addLocalObject] of an object that has no entry in the table of
    local objects and whose live channels hold no NaN, the transfer
    component of the object holds the live channels as Float32 and no
    shared id, and [sync( false, ... )] returns normally with no record
    for the object. *)
Theorem addLocalObject_then_sync_silent
    (w : World) (object : string) (info : option Info) (onlyLocal : bool) :
  snapshots_present (this w) →
  localObjectTable (this w) !! object = None →
  nan_free (matrix_elements (scene w object)) →
  nan_free (default [] (morphTargetInfluences (scene w object))) →
  ∃ w1 w2 c,
    addLocalObject object info w = (Normal tt, w1) ∧
    transferComponents (this w1) !! object = Some c ∧
    tc_matrix c = map ensureFloat32 (matrix_elements (scene w object)) ∧
    tc_morphTargetInfluences c
      = map ensureFloat32 (default [] (morphTargetInfluences (scene w object))) ∧
    tc_sid c = None ∧
    sync false onlyLocal w1 = (Normal tt, w2) ∧
    object ∉ map tc_id (sync_records (emitted w1 w2)).
Proof.
  intros Hsnap Hnew Hn1 Hn2.
  assert (Hsnap1 : snapshots_present (this (addLocalObject object info w).2)).
  { rewrite addLocalObject_run, Hnew. cbn [snd]. intros u Hu.
    unfold with_local in *.
    cbn [this localObjects sharedObjects transferComponents
         set_transferComponents set_localObjectInfos set_localObjects
         set_localObjectTable] in *.
    destruct (decide (object = u)) as [->|Hne].
    - rewrite lookup_insert_eq. by eexists.
    - rewrite lookup_insert_ne by done. apply Hsnap.
      rewrite !elem_of_app, list_elem_of_singleton in Hu.
      rewrite elem_of_app. destruct Hu as [[?|?]|?]; [by left|done|by right]. }
  rewrite addLocalObject_run, Hnew in *. cbn [snd] in Hsnap1.
  set (w1 := with_local w object (default (InfoObject []) info)) in *.
  assert (Hc : transferComponents (this w1) !! object
                 = Some (createTransferComponent object (scene w object))).
  { subst w1. unfold with_local.
    cbn [this transferComponents set_transferComponents].
    apply lookup_insert_eq. }
  destruct (sync_no_record onlyLocal w1 object _ Hsnap1 Hc) as (w2 & Hrun & Hnot).
  { change (scene w1 object) with (scene w object). unfold changed.
    cbn [createTransferComponent tc_matrix tc_morphTargetInfluences].
    rewrite fill_float32_map, differs_stored by done.
    destruct (morphTargetInfluences (scene w object)) as [array2|]; [|done].
    simpl in Hn2. by rewrite fill_float32_map, differs_stored. }
  exists w1, w2, (createTransferComponent object (scene w object)).
  split_and!; try done.
  - apply fill_float32_map.
  - cbn [createTransferComponent tc_morphTargetInfluences].
    destruct (morphTargetInfluences (scene w object)); [|done].
    apply fill_float32_map.
Qed.

Lemma addLocalObject_then_sync_silent_witness :
  snapshots_present (this Example.registered) ∧
  localObjectTable (this Example.registered) !! "c" = None ∧
  ∃ w1 w2,
    addLocalObject "c" None Example.registered = (Normal tt, w1) ∧
    localObjects (this w1) = ["a"; "o"; "b"; "c"] ∧
    sync false false w1 = (Normal tt, w2) ∧
    "c" ∉ map tc_id (sync_records (emitted w1 w2)).
Proof.
  assert (Hnew : localObjectTable (this Example.registered) !! "c" = None)
    by (vm_compute; reflexivity).
  split_and!; [exact registered_snapshots_present|exact Hnew|].
  destruct (addLocalObject_then_sync_silent Example.registered "c" None false
              registered_snapshots_present Hnew)
    as (w1 & w2 & c & Hrun & _ & _ & _ & _ & Hsync & Hnot).
  { vm_compute. repeat (constructor; [reflexivity|]). constructor. }
  { vm_compute. constructor. }
  exists w1, w2. split_and!; [done| |done|done].
  assert (Hw1 : w1 = (addLocalObject "c" None Example.registered).2)
    by by rewrite Hrun.
  rewrite Hw1. by vm_compute.
Defined.
